(** * pong-arcadehack: the value types of [sfml.h] and the program of [game.cpp]

    A shallow embedding of the constexpr value types of [src/sfml.h]
    ([sf::Angle], [sf::Color], [sf::Vector2], [sf::Vector3], [sf::Rect],
    [sf::Transform], [sf::Time]), of its Unicode conversions ([sf::Utf<8>],
    [sf::Utf<16>], [sf::Utf<32>] and the factories of [sf::String] on them),
    of the render-state cache that header declares, and of [main] in
    [src/game.cpp].

    The header computes on [int], on [std::uint8_t] and on [float].  The
    templates ([Vector2<T>], [Rect<T>]) and the [float] code are written once,
    over the class [Scalar] of the arithmetic they use, and read at three
    instances:
    - [Scalar_int]: C++ [int] as [Z].  Signed overflow is undefined in C++, so
      the instance is the arithmetic of the executions in which every result
      is an [int]; the properties of [IntRect] state that as a hypothesis
      ([IntRect.in_range], [IntRect.no_overflow]);
    - [Scalar_binary32]: C++ [float] as IEEE 754 binary32, bit for bit, through
      the specification of floating-point numbers of the Rocq kernel
      ([SpecFloat], precision 24, maximal exponent 128, round to nearest even);
    - [Scalar_exact]: the same formulas on rationals, with no rounding, which
      is what a law "up to floating-point tolerance" speaks about. *)

From Stdlib Require Import ZArith QArith Qcanon Qround Bool List String Lia Lqa Field.
From Stdlib Require Import Floats.SpecFloat.
Import ListNotations.

Local Open Scope Z_scope.

(** ** The arithmetic the header is written over *)

(** What the code of the header asks of a number type [T]: the arithmetic
    operators, the three comparisons it uses, the conversion of an [int]
    (a literal such as [180], or [static_cast<T>(int)]) and
    [static_cast<int>(x)].  The cast to [int] truncates toward zero and is
    undefined when the truncated value is no [int] (or [x] is no number):
    [to_int] is [None] there. *)
Class Scalar (T : Type) : Type := {
  of_int : Z -> T;
  to_int : T -> option Z;
  add : T -> T -> T;
  sub : T -> T -> T;
  mul : T -> T -> T;
  div : T -> T -> T;
  neg : T -> T;
  ltb : T -> T -> bool;
  leb : T -> T -> bool;
  eqb : T -> T -> bool
}.

Declare Scope scalar_scope.
Delimit Scope scalar_scope with S.
Infix "+" := add (at level 50, left associativity) : scalar_scope.
Infix "-" := sub (at level 50, left associativity) : scalar_scope.
Infix "*" := mul (at level 40, left associativity) : scalar_scope.
Infix "/" := div (at level 40, left associativity) : scalar_scope.
Notation "- x" := (neg x) (at level 35, right associativity) : scalar_scope.
Infix "<?" := ltb (at level 70, no associativity) : scalar_scope.
Infix "<=?" := leb (at level 70, no associativity) : scalar_scope.
Infix "=?" := eqb (at level 70, no associativity) : scalar_scope.
(** C++ [a > b], [a >= b] and [a != b]. *)
Notation "x >? y" := (ltb y x) (at level 70, no associativity) : scalar_scope.
Notation "x >=? y" := (leb y x) (at level 70, no associativity) : scalar_scope.
Notation "x !=? y" := (negb (eqb x y)) (at level 70, no associativity) : scalar_scope.
(** An integer literal in a [T] expression. *)
Notation "# z" := (of_int z) (at level 9, z at level 9, format "# z") : scalar_scope.

(** The range of a 32-bit [int]. *)
Definition INT_MIN : Z := - 2 ^ 31.
Definition INT_MAX : Z := 2 ^ 31 - 1.
Definition in_int (z : Z) : bool := (INT_MIN <=? z) && (z <=? INT_MAX).
Definition checked_int (z : Z) : option Z := if in_int z then Some z else None.

(** Fixed-width integers.  The value an integer takes when it is converted
    to an unsigned type of [bits] bits (the value modulo 2^bits) and to a
    signed one (two's complement); the range of [std::int64_t], whose
    arithmetic is undefined outside it. *)
Definition to_unsigned (bits z : Z) : Z := z mod 2 ^ bits.
Definition to_signed (bits z : Z) : Z :=
  (z + 2 ^ (bits - 1)) mod 2 ^ bits - 2 ^ (bits - 1).

Definition INT64_MIN : Z := - 2 ^ 63.
Definition INT64_MAX : Z := 2 ^ 63 - 1.
Definition in_int64 (z : Z) : bool := (INT64_MIN <=? z) && (z <=? INT64_MAX).
Definition checked_int64 (z : Z) : option Z := if in_int64 z then Some z else None.

(** *** [int]

    The operators of [int] on [Z].  They are those of C++ as long as every
    operand and every result is an [int] ([in_int]); past that the C++
    operation is undefined, and nothing is claimed of it. *)

#[export] Instance Scalar_int : Scalar Z := {|
  of_int := fun z => z;
  to_int := fun z => Some z;
  add := Z.add;
  sub := Z.sub;
  mul := Z.mul;
  div := Z.quot;
  neg := Z.opp;
  ltb := Z.ltb;
  leb := Z.leb;
  eqb := Z.eqb
|}.

(** *** [float], exactly: rationals *)

Definition Qc_of_Z (z : Z) : Qc := Q2Qc (inject_Z z).
(** Truncation toward zero of a rational. *)
Definition Qc_trunc (q : Qc) : Z := Z.quot (Qnum q) (Zpos (Qden q)).
Definition Qc_ltb (x y : Qc) : bool :=
  match (x ?= y)%Qc with Lt => true | _ => false end.
Definition Qc_leb (x y : Qc) : bool :=
  match (x ?= y)%Qc with Gt => false | _ => true end.

(** Division by zero has no counterpart here ([Qcdiv x 0] is [0], a [float]
    gives an infinity or a NaN); the functions below divide only behind their
    guards ([det != 0.f], [assert(b > 0.0f)]). *)
#[export] Instance Scalar_exact : Scalar Qc := {|
  of_int := Qc_of_Z;
  to_int := fun q => checked_int (Qc_trunc q);
  add := Qcplus;
  sub := Qcminus;
  mul := Qcmult;
  div := Qcdiv;
  neg := Qcopp;
  ltb := Qc_ltb;
  leb := Qc_leb;
  eqb := Qc_eq_bool
|}.

(** *** [float], bit for bit: IEEE 754 binary32 *)

Definition prec32 : Z := 24.
Definition emax32 : Z := 128.
Definition binary32 : Type := spec_float.

(** [static_cast<float>(int)]: the nearest binary32 number, ties to even. *)
Definition b32_of_Z (z : Z) : binary32 := binary_normalize prec32 emax32 z 0 false.
(** The binary32 number nearest to [m * 2^e] (it is [m * 2^e] itself when
    [m] has at most 24 bits): how the float constants below are written. *)
Definition b32 (m e : Z) : binary32 := binary_normalize prec32 emax32 m e false.
(** The integer part of a finite binary32 number [(-1)^s * m * 2^e]. *)
Definition b32_trunc (x : binary32) : option Z :=
  match x with
  | S754_zero _ => Some 0
  | S754_finite s m e =>
      let mag := match e with
                 | Zneg p => Z.shiftr (Zpos m) (Zpos p)
                 | _ => Z.shiftl (Zpos m) e
                 end in
      checked_int (if s then - mag else mag)
  | S754_infinity _ | S754_nan => None
  end.

#[export] Instance Scalar_binary32 : Scalar binary32 := {|
  of_int := b32_of_Z;
  to_int := b32_trunc;
  add := SFadd prec32 emax32;
  sub := SFsub prec32 emax32;
  mul := SFmul prec32 emax32;
  div := SFdiv prec32 emax32;
  neg := SFopp;
  ltb := SFltb;
  leb := SFleb;
  eqb := SFeqb
|}.

(** A binary32 value of sign [s] that is neither a zero nor the NaN: a finite
    number or an infinity. *)
Definition has_sign (s : bool) (x : binary32) : Prop :=
  x = S754_infinity s \/ exists m e, x = S754_finite s m e.

(** *** The order laws the rectangles rely on

    The comparisons of a number type are asymmetric and transitive.  The
    three instances have the laws ([OrderLaws_int], [OrderLaws_exact],
    [OrderLaws_binary32]); in binary32 they hold of the NaN as well, which
    compares false with everything. *)
Class OrderLaws (T : Type) `{Scalar T} : Prop := {
  ltb_asym : forall x y : T, (x <? y)%S = true -> (y <? x)%S = false;
  leb_ltb_trans :
    forall a x b : T, (a <=? x)%S = true -> (x <? b)%S = true -> (a <? b)%S = true
}.

(** ** [sf::Angle] (sfml.h, lines 149-621) *)

Module Angle.
Section WithScalar.
Context {T : Type} `{Scalar T}.
Local Open Scope scalar_scope.

(** [class Angle]: its one member, [float m_degrees]. *)
Record t : Type := mk { m_degrees : T }.

(** Modelled from the spec: [sf::degrees(float)] is declared in src/sfml.h
    (line 283, a friend of [Angle] that "constructs an angle value from a
    number of degrees") and its body is not in src; the angle is stored in
    degrees, so it wraps its argument. *)
Definition degrees (angle : T) : t := mk angle.


(** [priv::positiveRemainder]: [None] when the assertion [b > 0.0f] fails or
    the cast of [a / b] to [int] is undefined. *)
Definition positiveRemainder (a b : T) : option T :=
  if b >? #0 then
    match to_int (a / b) with
    | Some q =>
        let val := a - of_int q * b in
        if val >=? #0 then Some val else Some (val + b)
    | None => None
    end
  else None.

Definition wrapSigned (a : t) : option t :=
  option_map (fun r => degrees (r - #180))
             (positiveRemainder (m_degrees a + #180) #360).

(** Modelled from the spec: [Angle::wrapUnsigned] is declared in src/sfml.h
    (line 244) and its body is not in src.  The spec gives it "canonical
    representatives in [0,360)", the counterpart of [wrapSigned] without the
    shift by 180. *)
Definition wrapUnsigned (a : t) : option t :=
  option_map degrees (positiveRemainder (m_degrees a) #360).

End WithScalar.
Arguments t T : clear implicits.


End Angle.

(** ** [sf::Color] (sfml.h, lines 6657-6972) *)

Module Color.

(** Four [std::uint8_t] channels, as integers; [wf] says each is a byte. *)
Record t : Type := mk { r : Z; g : Z; b : Z; a : Z }.

Definition byte (z : Z) : Prop := 0 <= z <= 255.
Definition wf (c : t) : Prop := byte (r c) /\ byte (g c) /\ byte (b c) /\ byte (a c).

(** [static_cast<std::uint8_t>] and [static_cast<std::uint16_t>] of an
    integer: the value modulo 2^8 and 2^16. *)
Definition to_uint8 (z : Z) : Z := z mod 2 ^ 8.
Definition to_uint16 (z : Z) : Z := z mod 2 ^ 16.

(** The lambdas of [operator+], [operator-] and [operator*]. *)
Definition clampedAdd (lhs rhs : Z) : Z :=
  let intResult := lhs + rhs in
  to_uint8 (if intResult <? 255 then intResult else 255).

Definition clampedSub (lhs rhs : Z) : Z :=
  let intResult := lhs - rhs in
  to_uint8 (if intResult >? 0 then intResult else 0).

Definition scaledMul (lhs rhs : Z) : Z :=
  let uint16Result := to_uint16 (to_uint16 lhs * to_uint16 rhs) in
  to_uint8 (uint16Result / 255).

Definition add (left right : t) : t :=
  mk (clampedAdd (r left) (r right)) (clampedAdd (g left) (g right))
     (clampedAdd (b left) (b right)) (clampedAdd (a left) (a right)).

Definition sub (left right : t) : t :=
  mk (clampedSub (r left) (r right)) (clampedSub (g left) (g right))
     (clampedSub (b left) (b right)) (clampedSub (a left) (a right)).

Definition mul (left right : t) : t :=
  mk (scaledMul (r left) (r right)) (scaledMul (g left) (g right))
     (scaledMul (b left) (b right)) (scaledMul (a left) (a right)).

(** [operator==] on colors. *)
Definition eqb (left right : t) : bool :=
  (r left =? r right) && (g left =? g right) && (b left =? b right) && (a left =? a right).

Definition Cyan : t := mk 0 255 255 255.

(** [Color(std::uint32_t color)]: the four bytes of [color], the red channel
    in the most significant one. *)
Definition ofInteger (color : Z) : t :=
  mk (to_uint8 (Z.shiftr (Z.land color 0xff000000) 24))
     (to_uint8 (Z.shiftr (Z.land color 0x00ff0000) 16))
     (to_uint8 (Z.shiftr (Z.land color 0x0000ff00) 8))
     (to_uint8 (Z.land color 0x000000ff)).

(** [toInteger].  The channels are promoted to [int], so [r << 24] is a
    shift of an [int], whose value wraps to 32 bits in two's complement when
    [r] is 128 or more; the [static_cast] takes the whole modulo 2^32. *)
Definition toInteger (c : t) : Z :=
  to_unsigned 32
    (Z.lor (Z.lor (Z.lor (to_signed 32 (Z.shiftl (r c) 24)) (Z.shiftl (g c) 16))
                  (Z.shiftl (b c) 8))
           (a c)).

(** [Color::White] (the alpha channel defaults to 255) and
    [Color::Transparent]. *)
Definition White : t := mk 255 255 255 255.
Definition Transparent : t := mk 0 0 0 0.

End Color.

(** ** [sf::Vector2<T>] (sfml.h, lines 643-1184) *)

Module Vector2.
Section WithScalar.
Context {T : Type} `{Scalar T}.
Local Open Scope scalar_scope.

Record t : Type := mk { x : T; y : T }.

(** Unary [operator-]. *)
Definition opp (right : t) : t := mk (- x right) (- y right).

Definition dot (v rhs : t) : T := x v * x rhs + y v * y rhs.

Definition lengthSq (v : t) : T := dot v v.

Definition perpendicular (v : t) : t := mk (- y v) (x v).

Definition cross (v rhs : t) : T := x v * y rhs - y v * x rhs.

Definition cwiseMul (v rhs : t) : t := mk (x v * x rhs) (y v * y rhs).

(** [cwiseDiv]: [None] when one of its two assertions fails. *)
Definition cwiseDiv (v rhs : t) : option t :=
  if (x rhs !=? #0) && (y rhs !=? #0)
  then Some (mk (x v / x rhs) (y v / y rhs))
  else None.

(** [operator+]. *)
Definition add (left right : t) : t := mk (x left + x right) (y left + y right).

(** [operator*(Vector2, T)], [operator*(T, Vector2)] and
    [operator/(Vector2, T)]. *)
Definition mul (left : t) (right : T) : t := mk (x left * right) (y left * right).
Definition mul_left (left : T) (right : t) : t := mk (x right * left) (y right * left).
Definition div (left : t) (right : T) : t := mk (x left / right) (y left / right).

(** [operator==] and [operator!=]. *)
Definition eqb (left right : t) : bool :=
  (x left =? x right) && (y left =? y right).
Definition neqb (left right : t) : bool :=
  (x left !=? x right) || (y left !=? y right).

End WithScalar.
Arguments t T : clear implicits.
End Vector2.

(** ** [sf::Vector3<T>] (sfml.h, lines 1856-2310) *)

Module Vector3.
Section WithScalar.
Context {T : Type} `{Scalar T}.
Local Open Scope scalar_scope.

Record t : Type := mk { x : T; y : T; z : T }.

Definition dot (v rhs : t) : T := x v * x rhs + y v * y rhs + z v * z rhs.

Definition lengthSq (v : t) : T := dot v v.

Definition cross (v rhs : t) : t :=
  mk ((y v * z rhs) - (z v * y rhs))
     ((z v * x rhs) - (x v * z rhs))
     ((x v * y rhs) - (y v * x rhs)).

(** Unary [operator-]. *)
Definition opp (left : t) : t := mk (- x left) (- y left) (- z left).

(** [operator==] and [operator!=]. *)
Definition eqb (left right : t) : bool :=
  (x left =? x right) && (y left =? y right) && (z left =? z right).
Definition neqb (left right : t) : bool :=
  (x left !=? x right) || (y left !=? y right) || (z left !=? z right).

End WithScalar.
Arguments t T : clear implicits.
End Vector3.

(** ** [sf::Rect<T>] (sfml.h, lines 7005-7249) *)

Module Rect.
Section WithScalar.
Context {T : Type} `{Scalar T}.
Local Open Scope scalar_scope.

Record t : Type := mk { left : T; top : T; width : T; height : T }.

(** [Rect(position, size)]. *)
Definition make (position size : Vector2.t T) : t :=
  mk (Vector2.x position) (Vector2.y position) (Vector2.x size) (Vector2.y size).

(** The two lambdas both member functions start with. *)
Definition min (a b : T) : T := if a <? b then a else b.
Definition max (a b : T) : T := if a <? b then b else a.

Definition contains (rect : t) (point : Vector2.t T) : bool :=
  let minX := min (left rect) (left rect + width rect) in
  let maxX := max (left rect) (left rect + width rect) in
  let minY := min (top rect) (top rect + height rect) in
  let maxY := max (top rect) (top rect + height rect) in
  (Vector2.x point >=? minX) && (Vector2.x point <? maxX)
  && (Vector2.y point >=? minY) && (Vector2.y point <? maxY).

Definition findIntersection (rect rectangle : t) : option t :=
  let r1MinX := min (left rect) (left rect + width rect) in
  let r1MaxX := max (left rect) (left rect + width rect) in
  let r1MinY := min (top rect) (top rect + height rect) in
  let r1MaxY := max (top rect) (top rect + height rect) in
  let r2MinX := min (left rectangle) (left rectangle + width rectangle) in
  let r2MaxX := max (left rectangle) (left rectangle + width rectangle) in
  let r2MinY := min (top rectangle) (top rectangle + height rectangle) in
  let r2MaxY := max (top rectangle) (top rectangle + height rectangle) in
  let interLeft := max r1MinX r2MinX in
  let interTop := max r1MinY r2MinY in
  let interRight := min r1MaxX r2MaxX in
  let interBottom := min r1MaxY r2MaxY in
  if (interLeft <? interRight) && (interTop <? interBottom)
  then Some (make (Vector2.mk interLeft interTop)
                  (Vector2.mk (interRight - interLeft) (interBottom - interTop)))
  else None.

(** What the spec says of [contains] on one axis: [x] lies between the two
    ends [a] and [b] of the side, whichever is smaller, the smaller end
    included and the larger excluded. *)
Definition between (a b x : T) : bool :=
  ((a <=? x) && (x <? b)) || ((b <=? x) && (x <? a)).

(** What the spec says of [findIntersection]: the innermost of the
    normalized sides of two rectangles, and their overlap, the rectangle
    between those sides. *)
Definition interLeft (r1 r2 : t) : T :=
  max (min (left r1) (left r1 + width r1)) (min (left r2) (left r2 + width r2)).
Definition interTop (r1 r2 : t) : T :=
  max (min (top r1) (top r1 + height r1)) (min (top r2) (top r2 + height r2)).
Definition interRight (r1 r2 : t) : T :=
  min (max (left r1) (left r1 + width r1)) (max (left r2) (left r2 + width r2)).
Definition interBottom (r1 r2 : t) : T :=
  min (max (top r1) (top r1 + height r1)) (max (top r2) (top r2 + height r2)).
Definition overlap (r1 r2 : t) : t :=
  mk (interLeft r1 r2) (interTop r1 r2)
     (interRight r1 r2 - interLeft r1 r2) (interBottom r1 r2 - interTop r1 r2).

(** The four corners of a rectangle, in the order [Transform::transformRect]
    takes them. *)
Definition corners (rect : t) : list (Vector2.t T) :=
  [ Vector2.mk (left rect) (top rect);
    Vector2.mk (left rect) (top rect + height rect);
    Vector2.mk (left rect + width rect) (top rect);
    Vector2.mk (left rect + width rect) (top rect + height rect) ].

End WithScalar.
Arguments t T : clear implicits.
End Rect.

(** What the spec says of an [IntRect]: its sides after normalization, and
    the overlap of two rectangles, the rectangle between the innermost of
    their normalized sides.  The properties compare [Rect.contains] and
    [Rect.findIntersection] with these. *)
Module IntRect.

Definition minX (r : Rect.t Z) : Z := Z.min (Rect.left r) (Rect.left r + Rect.width r).
Definition maxX (r : Rect.t Z) : Z := Z.max (Rect.left r) (Rect.left r + Rect.width r).
Definition minY (r : Rect.t Z) : Z := Z.min (Rect.top r) (Rect.top r + Rect.height r).
Definition maxY (r : Rect.t Z) : Z := Z.max (Rect.top r) (Rect.top r + Rect.height r).

Definition interLeft (r1 r2 : Rect.t Z) : Z := Z.max (minX r1) (minX r2).
Definition interTop (r1 r2 : Rect.t Z) : Z := Z.max (minY r1) (minY r2).
Definition interRight (r1 r2 : Rect.t Z) : Z := Z.min (maxX r1) (maxX r2).
Definition interBottom (r1 r2 : Rect.t Z) : Z := Z.min (maxY r1) (maxY r2).
Definition overlap (r1 r2 : Rect.t Z) : Rect.t Z :=
  Rect.mk (interLeft r1 r2) (interTop r1 r2)
          (interRight r1 r2 - interLeft r1 r2) (interBottom r1 r2 - interTop r1 r2).

(** An [IntRect] holds four [int]s, and [contains] and [findIntersection]
    add its width to its left side and its height to its top.  Signed
    overflow is undefined: the calls are defined on the rectangles for which
    these two sums are [int]s as well. *)
Definition in_range (r : Rect.t Z) : bool :=
  in_int (Rect.left r) && in_int (Rect.top r)
  && in_int (Rect.width r) && in_int (Rect.height r)
  && in_int (Rect.left r + Rect.width r) && in_int (Rect.top r + Rect.height r).

(** When it finds an overlap, [findIntersection] also subtracts
    [interLeft] from [interRight] and [interTop] from [interBottom]:
    [no_overflow] adds that these two differences are [int]s. *)
Definition no_overflow (r1 r2 : Rect.t Z) : bool :=
  in_range r1 && in_range r2
  && (if (interLeft r1 r2 <? interRight r1 r2) && (interTop r1 r2 <? interBottom r1 r2)
      then in_int (interRight r1 r2 - interLeft r1 r2)
           && in_int (interBottom r1 r2 - interTop r1 r2)
      else true).

End IntRect.

(** A [FloatRect] holds four [float]s, values of binary32: a finite number
    with a mantissa of at most 24 bits and an exponent in range, a zero, an
    infinity or the NaN.  ([spec_float] has other elements besides, with a
    longer mantissa or an exponent out of range.) *)
Module FloatRect.

Definition is_float (x : binary32) : bool := valid_binary prec32 emax32 x.

Definition valid (r : Rect.t binary32) : bool :=
  is_float (Rect.left r) && is_float (Rect.top r)
  && is_float (Rect.width r) && is_float (Rect.height r).

End FloatRect.

(** ** [sf::Transform] (sfml.h, lines 7261-7768) *)

Module Transform.
Section WithScalar.
Context {T : Type} `{Scalar T}.
Local Open Scope scalar_scope.

(** [float m_matrix[16]], one field per entry. *)
Record t : Type := mk {
  m0 : T; m1 : T; m2 : T; m3 : T;
  m4 : T; m5 : T; m6 : T; m7 : T;
  m8 : T; m9 : T; m10 : T; m11 : T;
  m12 : T; m13 : T; m14 : T; m15 : T
}.

(** The constructor from the nine entries of a 3x3 matrix. *)
Definition make (a00 a01 a02 a10 a11 a12 a20 a21 a22 : T) : t :=
  mk a00 a10 #0 a20
     a01 a11 #0 a21
     #0  #0  #1 #0
     a02 a12 #0 a22.

(** The default member initializer, which is also [Transform::Identity]. *)
Definition Identity : t :=
  mk #1 #0 #0 #0
     #0 #1 #0 #0
     #0 #0 #1 #0
     #0 #0 #0 #1.

(** The local [det] of [getInverse]. *)
Definition determinant (m : t) : T :=
  m0 m * (m15 m * m5 m - m7 m * m13 m)
  - m1 m * (m15 m * m4 m - m7 m * m12 m)
  + m3 m * (m13 m * m4 m - m5 m * m12 m).

Definition getInverse (m : t) : t :=
  let det := determinant m in
  if det !=? #0 then
    make ((m15 m * m5 m - m7 m * m13 m) / det)
         ((- (m15 m * m4 m - m7 m * m12 m)) / det)
         ((m13 m * m4 m - m5 m * m12 m) / det)
         ((- (m15 m * m1 m - m3 m * m13 m)) / det)
         ((m15 m * m0 m - m3 m * m12 m) / det)
         ((- (m13 m * m0 m - m1 m * m12 m)) / det)
         ((m7 m * m1 m - m3 m * m5 m) / det)
         ((- (m7 m * m0 m - m3 m * m4 m)) / det)
         ((m5 m * m0 m - m1 m * m4 m) / det)
  else Identity.

Definition transformPoint (m : t) (point : Vector2.t T) : Vector2.t T :=
  Vector2.mk
    (m0 m * Vector2.x point + m4 m * Vector2.y point + m12 m)
    (m1 m * Vector2.x point + m5 m * Vector2.y point + m13 m).

(** [combine] assigns to [*this] and returns it: the new value of the
    receiver [a]. *)
Definition combine (a b : t) : t :=
  make (m0 a * m0 b + m4 a * m1 b + m12 a * m3 b)
       (m0 a * m4 b + m4 a * m5 b + m12 a * m7 b)
       (m0 a * m12 b + m4 a * m13 b + m12 a * m15 b)
       (m1 a * m0 b + m5 a * m1 b + m13 a * m3 b)
       (m1 a * m4 b + m5 a * m5 b + m13 a * m7 b)
       (m1 a * m12 b + m5 a * m13 b + m13 a * m15 b)
       (m3 a * m0 b + m7 a * m1 b + m15 a * m3 b)
       (m3 a * m4 b + m7 a * m5 b + m15 a * m7 b)
       (m3 a * m12 b + m7 a * m13 b + m15 a * m15 b).

Definition translate (m : t) (offset : Vector2.t T) : t :=
  let translation := make #1 #0 (Vector2.x offset)
                          #0 #1 (Vector2.y offset)
                          #0 #0 #1 in
  combine m translation.

(** [scale(factors)]. *)
Definition scale (m : t) (factors : Vector2.t T) : t :=
  let scaling := make (Vector2.x factors) #0 #0
                      #0 (Vector2.y factors) #0
                      #0 #0 #1 in
  combine m scaling.

(** [scale(factors, center)]. *)
Definition scale_about (m : t) (factors center : Vector2.t T) : t :=
  let scaling := make (Vector2.x factors) #0 (Vector2.x center * (#1 - Vector2.x factors))
                      #0 (Vector2.y factors) (Vector2.y center * (#1 - Vector2.y factors))
                      #0 #0 #1 in
  combine m scaling.

(** [operator==] on transforms: the nine entries of the 3x3 matrix. *)
Definition eqb (left right : t) : bool :=
  (m0 left =? m0 right) && (m1 left =? m1 right) && (m3 left =? m3 right)
  && (m4 left =? m4 right) && (m5 left =? m5 right) && (m7 left =? m7 right)
  && (m12 left =? m12 right) && (m13 left =? m13 right) && (m15 left =? m15 right).

(** A transform is affine when the last row of its 3x3 matrix is (0, 0, 1). *)
Definition affine (m : t) : Prop := m3 m = #0 /\ m7 m = #0 /\ m15 m = #1.

(** The body of the loop of [transformRect]: the bounds [left], [top],
    [right], [bottom] after one more transformed corner. *)
Definition extend (bounds : T * T * T * T) (point : Vector2.t T) : T * T * T * T :=
  let '(left0, top0, right0, bottom0) := bounds in
  let '(left1, right1) :=
    if Vector2.x point <? left0 then (Vector2.x point, right0)
    else if Vector2.x point >? right0 then (left0, Vector2.x point)
    else (left0, right0) in
  let '(top1, bottom1) :=
    if Vector2.y point <? top0 then (Vector2.y point, bottom0)
    else if Vector2.y point >? bottom0 then (top0, Vector2.y point)
    else (top0, bottom0) in
  (left1, top1, right1, bottom1).

Definition transformRect (m : t) (rectangle : Rect.t T) : Rect.t T :=
  let left := Rect.left rectangle in
  let top := Rect.top rectangle in
  let width := Rect.width rectangle in
  let height := Rect.height rectangle in
  let p0 := transformPoint m (Vector2.mk left top) in
  let p1 := transformPoint m (Vector2.mk left (top + height)) in
  let p2 := transformPoint m (Vector2.mk (left + width) top) in
  let p3 := transformPoint m (Vector2.mk (left + width) (top + height)) in
  let '(left1, top1, right1, bottom1) :=
    fold_left extend [p1; p2; p3]
              (Vector2.x p0, Vector2.y p0, Vector2.x p0, Vector2.y p0) in
  Rect.make (Vector2.mk left1 top1) (Vector2.mk (right1 - left1) (bottom1 - top1)).

(** [operator*(Transform, Transform)] combines a copy of [left]. *)
Definition mul (left right : t) : t := combine left right.

End WithScalar.
Arguments t T : clear implicits.
End Transform.

(** ** The render-state cache of [sf::RenderTarget] (sfml.h, lines 8181-8630) *)

Module RenderTarget.

(** [BlendMode::Factor], [BlendMode::Equation] and the members of
    [struct BlendMode], as src/sfml.h declares them (lines 6526-6620). *)
Inductive Factor : Type :=
| Zero | One | SrcColor | OneMinusSrcColor | DstColor | OneMinusDstColor
| SrcAlpha | OneMinusSrcAlpha | DstAlpha | OneMinusDstAlpha.

Inductive Equation : Type := Add | Subtract | ReverseSubtract | Min | Max.

Record BlendMode : Type := mkBlendMode {
  colorSrcFactor : Factor;
  colorDstFactor : Factor;
  colorEquation : Equation;
  alphaSrcFactor : Factor;
  alphaDstFactor : Factor;
  alphaEquation : Equation
}.








(** [struct StatesCache] (sfml.h, lines 8608-8620), without the four cached
    vertices.  It keeps a last blend mode and a last texture, and no shader. *)
Record StatesCache : Type := mkStatesCache {
  enable : bool;
  glStatesSet : bool;
  viewChanged : bool;
  lastBlendMode : BlendMode;
  lastTextureId : Z;
  texCoordsArrayEnabled : bool;
  useVertexCache : bool
}.


(** [class RenderTarget]: of its members (sfml.h, lines 8625-8628) the cache;
    the two views and the number [m_id] play no part in state diffing. *)
Record t : Type := mk { m_cache : StatesCache }.












End RenderTarget.

(** ** [main] (game.cpp) *)

Module Game.

(** [sf::Event::EventType] (sfml.h, lines 6418-6444). *)
Inductive EventType : Type :=
| Closed | Resized | LostFocus | GainedFocus | TextEntered | KeyPressed
| KeyReleased | MouseWheelScrolled | MouseButtonPressed | MouseButtonReleased
| MouseMoved | MouseEntered | MouseLeft | JoystickButtonPressed
| JoystickButtonReleased | JoystickMoved | JoystickConnected
| JoystickDisconnected | TouchBegan | TouchMoved | TouchEnded | SensorChanged.

Definition isClosed (e : EventType) : bool :=
  match e with Closed => true | _ => false end.

(** What [main] asks of the library, in the order it asks it. *)
Inductive Call : Type :=
| RenderWindow_create (width height : Z) (title : string)
| Texture_loadFromFile (filename : string) (loaded : bool)
| Window_close
| Sprite_setTexture
| Sprite_setPosition (x y : Z)
| Window_pollEvent (event : option EventType)
| Window_clear (color : Color.t)
| Window_draw
| Window_display.

(** What a run of the program meets: whether [ball.png] loads, and the
    events waiting in the queue at each turn of the render loop. *)
Record World : Type := mkWorld {
  ballLoads : bool;
  frames : list (list EventType)
}.

(** The state [main] threads: is the window open, and the calls so far. *)
Record State : Type := mkState {
  windowOpen : bool;
  calls : list Call
}.

Definition call (c : Call) (s : State) : State :=
  mkState (windowOpen s) (calls s ++ [c]).

(** Modelled from the spec: [WindowBase::close] and [WindowBase::isOpen] are
    declared in src/sfml.h (lines 3363 and 3375) and their bodies are not in
    src.  [isOpen] is "true if the window is open, false if it has been
    closed"; after [close] the other functions "will have no effect on closed
    windows", and [pollEvent] then returns no event. *)
Definition close (s : State) : State :=
  mkState false (calls s ++ [Window_close]).

Definition isOpen (s : State) : bool := windowOpen s.

(** [while (window.pollEvent(event)) if (event.type == Closed) window.close();]
    over the events waiting in the queue. *)
Fixpoint pollEvents (queue : list EventType) (s : State) : State :=
  if isOpen s then
    match queue with
    | [] => call (Window_pollEvent None) s
    | event :: rest =>
        let s := call (Window_pollEvent (Some event)) s in
        let s := if isClosed event then close s else s in
        pollEvents rest s
    end
  else call (Window_pollEvent None) s.

(** [while (window.isOpen()) { ... }]: one list of waiting events per turn;
    [None] when the lists run out while the window is still open. *)
Fixpoint renderLoop (turns : list (list EventType)) (s : State) : option State :=
  if isOpen s then
    match turns with
    | [] => None
    | queue :: rest =>
        let s := pollEvents queue s in
        let s := call (Window_clear Color.Cyan) s in
        let s := call Window_draw s in
        let s := call Window_display s in
        renderLoop rest s
    end
  else Some s.

(** [main]: its return value and the calls it made. *)
Definition main (w : World) : option (Z * list Call) :=
  let s := mkState true [RenderWindow_create 256 240 "game"] in
  let loaded := ballLoads w in
  let s := call (Texture_loadFromFile "ball.png" loaded) s in
  let s := if negb loaded then close s else s in
  let s := call Sprite_setTexture s in
  let s := call (Sprite_setPosition 0 0) s in
  match renderLoop (frames w) s with
  | Some s => Some (0, calls s)
  | None => None
  end.

(** The calls of the body of the render loop. *)
Definition isFrameCall (c : Call) : bool :=
  match c with
  | Window_clear _ | Window_draw | Window_display => true
  | _ => false
  end.

End Game.

(** ** [sf::Time] (sfml.h, lines 1203-1845) *)

Module Time.

(** [std::chrono::microseconds m_microseconds]: a count of microseconds in a
    signed 64-bit integer. *)
Record t : Type := mk { m_microseconds : Z }.

Definition wf (time : t) : Prop := in_int64 (m_microseconds time) = true.

Definition asMicroseconds (time : t) : Z := m_microseconds time.

(** [asMilliseconds]: the [duration_cast] to 32-bit milliseconds divides the
    count by 1000 in 64 bits, toward zero, and converts the quotient to
    [std::int32_t]. *)
Definition asMilliseconds (time : t) : Z :=
  to_signed 32 (Z.quot (m_microseconds time) 1000).

Definition microseconds (amount : Z) : t := mk amount.

(** [milliseconds(std::int32_t)]: [std::chrono::milliseconds(amount)]
    converted to microseconds, a multiplication by 1000 in 64 bits. *)
Definition milliseconds (amount : Z) : t := mk (amount * 1000).

(** The arithmetic operators compute on [std::int64_t]: [None] where the
    result is no [std::int64_t] or the divisor is zero, which is undefined. *)
Definition opp (right : t) : option t :=
  option_map microseconds (checked_int64 (- asMicroseconds right)).

Definition add (left right : t) : option t :=
  option_map microseconds (checked_int64 (asMicroseconds left + asMicroseconds right)).

Definition sub (left right : t) : option t :=
  option_map microseconds (checked_int64 (asMicroseconds left - asMicroseconds right)).

(** [operator*(Time, std::int64_t)]. *)
Definition mul (left : t) (right : Z) : option t :=
  option_map microseconds (checked_int64 (asMicroseconds left * right)).

(** [operator/(Time, std::int64_t)]. *)
Definition div (left : t) (right : Z) : option t :=
  if right =? 0 then None
  else option_map microseconds (checked_int64 (Z.quot (asMicroseconds left) right)).

(** [operator%(Time, Time)]: the remainder of the division above, undefined
    where that division is. *)
Definition rem (left right : t) : option t :=
  if asMicroseconds right =? 0 then None
  else
    match checked_int64 (Z.quot (asMicroseconds left) (asMicroseconds right)) with
    | Some _ => Some (microseconds (Z.rem (asMicroseconds left) (asMicroseconds right)))
    | None => None
    end.

End Time.

(** ** [sf::Utf<8>], [sf::Utf<16>], [sf::Utf<32>] (sfml.h, lines 3743-5120)

    An input range [begin, end) is the list of its elements, and a function
    that returns the advanced [begin] returns the rest of the list.  An
    output iterator is the list of the elements written through it. *)

(** The loop all the conversions from UTF-8 and UTF-16 share:
    [while (begin < end) { begin = decode(begin, end, codepoint); ... }],
    where the body writes [emit codepoint].  [decode] advances by one element
    at least, so the loop ends within as many turns as the range has
    elements, which is the [fuel] the conversions give it. *)
Fixpoint decodeLoop {A : Type} (decode : list Z -> option (Z * list Z))
    (emit : Z -> list A) (fuel : nat) (begin : list Z) : option (list A) :=
  match begin with
  | [] => Some []
  | _ :: _ =>
      match fuel with
      | O => None
      | S fuel =>
          match decode begin with
          | Some (codepoint, begin) =>
              option_map (fun output => emit codepoint ++ output)
                         (decodeLoop decode emit fuel begin)
          | None => None
          end
      end
  end.

(** [*output++ = ...] of an invalid character: nothing when the replacement
    is zero. *)
Definition replace (replacement : Z) : list Z :=
  if replacement =? 0 then [] else [replacement].

Module Utf16.

(** [decode]: the code point and the advanced [begin]; [None] on an empty
    range, where [*begin] is read past the end. *)
Definition decode (begin : list Z) (replacement : Z) : option (Z * list Z) :=
  match begin with
  | [] => None
  | first :: begin =>
      let first := to_unsigned 16 first in
      if (first >=? 0xD800) && (first <=? 0xDBFF) then
        match begin with
        | second :: begin =>
            let second := to_unsigned 32 second in
            if (second >=? 0xDC00) && (second <=? 0xDFFF) then
              Some (to_unsigned 32
                      (Z.shiftl (first - 0xD800) 10 + (second - 0xDC00) + 0x0010000),
                    begin)
            else Some (replacement, begin)
        | [] => Some (replacement, [])
        end
      else Some (first, begin)
  end.

Definition encode (input replacement : Z) : list Z :=
  if input <=? 0xFFFF then
    if (input >=? 0xD800) && (input <=? 0xDFFF) then replace replacement
    else [to_unsigned 16 input]
  else if input >? 0x0010FFFF then replace replacement
  else
    let input := to_unsigned 32 (input - 0x0010000) in
    [ to_unsigned 16 (Z.shiftr input 10 + 0xD800);
      to_unsigned 16 (Z.land input 0x3FF + 0xDC00) ].

Definition count (begin : list Z) : option Z :=
  option_map (fun output => Z.of_nat (List.length output))
             (decodeLoop (fun begin => decode begin 0) (fun _ => [tt])
                         (List.length begin) begin).

Definition toUtf32 (begin : list Z) : option (list Z) :=
  decodeLoop (fun begin => decode begin 0) (fun codepoint => [codepoint])
             (List.length begin) begin.

End Utf16.

Module Utf8.

Definition trailing : list Z :=
  [ 0; 0; 0; 0; 0; 0; 0; 0; 0; 0; 0; 0; 0; 0; 0; 0; 0; 0; 0; 0; 0; 0; 0; 0; 0; 0; 0; 0; 0; 0; 0; 0;
    0; 0; 0; 0; 0; 0; 0; 0; 0; 0; 0; 0; 0; 0; 0; 0; 0; 0; 0; 0; 0; 0; 0; 0; 0; 0; 0; 0; 0; 0; 0; 0;
    0; 0; 0; 0; 0; 0; 0; 0; 0; 0; 0; 0; 0; 0; 0; 0; 0; 0; 0; 0; 0; 0; 0; 0; 0; 0; 0; 0; 0; 0; 0; 0;
    0; 0; 0; 0; 0; 0; 0; 0; 0; 0; 0; 0; 0; 0; 0; 0; 0; 0; 0; 0; 0; 0; 0; 0; 0; 0; 0; 0; 0; 0; 0; 0;
    0; 0; 0; 0; 0; 0; 0; 0; 0; 0; 0; 0; 0; 0; 0; 0; 0; 0; 0; 0; 0; 0; 0; 0; 0; 0; 0; 0; 0; 0; 0; 0;
    0; 0; 0; 0; 0; 0; 0; 0; 0; 0; 0; 0; 0; 0; 0; 0; 0; 0; 0; 0; 0; 0; 0; 0; 0; 0; 0; 0; 0; 0; 0; 0;
    1; 1; 1; 1; 1; 1; 1; 1; 1; 1; 1; 1; 1; 1; 1; 1; 1; 1; 1; 1; 1; 1; 1; 1; 1; 1; 1; 1; 1; 1; 1; 1;
    2; 2; 2; 2; 2; 2; 2; 2; 2; 2; 2; 2; 2; 2; 2; 2; 3; 3; 3; 3; 3; 3; 3; 3; 4; 4; 4; 4; 5; 5; 5; 5 ].

Definition offsets : list Z :=
  [ 0x00000000; 0x00003080; 0x000E2080; 0x03C82080; 0xFA082080; 0x82082080 ].

Definition firstBytes : list Z := [ 0x00; 0x00; 0xC0; 0xE0; 0xF0; 0xF8; 0xFC ].

(** The [switch] of [decode], entered at [case k]: [k] times
    [output += *begin++; output <<= 6], then [case 0], [output += *begin++],
    on a [std::uint32_t]. *)
Fixpoint accumulate (k : nat) (output : Z) (begin : list Z) : option (Z * list Z) :=
  match begin with
  | [] => None
  | c :: begin =>
      let output := to_unsigned 32 (output + to_unsigned 8 c) in
      match k with
      | O => Some (output, begin)
      | S k => accumulate k (to_unsigned 32 (Z.shiftl output 6)) begin
      end
  end.

(** [decode]: the code point and the advanced [begin]; [None] on an empty
    range, where [*begin] is read past the end. *)
Definition decode (begin : list Z) (replacement : Z) : option (Z * list Z) :=
  match begin with
  | [] => None
  | first :: _ =>
      let trailingBytes := nth (Z.to_nat (to_unsigned 8 first)) trailing 0 in
      if trailingBytes <? Z.of_nat (List.length begin) then
        match accumulate (Z.to_nat trailingBytes) 0 begin with
        | Some (output, begin) =>
            Some (to_unsigned 32 (output - nth (Z.to_nat trailingBytes) offsets 0), begin)
        | None => None
        end
      else Some (replacement, [])
  end.

(** The [switch] of [encode], entered at [case k + 1]: [bytes[k]] down to
    [bytes[1]] take six bits each, [bytes[0]] the rest and the marker
    [first]; the bytes are in front of [bytes], in order. *)
Fixpoint fill (k : nat) (first input : Z) (bytes : list Z) : list Z :=
  match k with
  | O => to_unsigned 8 (Z.lor input first) :: bytes
  | S k =>
      fill k first (Z.shiftr input 6)
           (to_unsigned 8 (Z.land (Z.lor input 0x80) 0xBF) :: bytes)
  end.

Definition encode (input replacement : Z) : list Z :=
  if (input >? 0x0010FFFF) || ((input >=? 0xD800) && (input <=? 0xDBFF)) then
    replace replacement
  else
    let bytestoWrite :=
      if input <? 0x80 then 1%nat
      else if input <? 0x800 then 2%nat
      else if input <? 0x10000 then 3%nat
      else if input <=? 0x0010FFFF then 4%nat
      else 1%nat in
    fill (bytestoWrite - 1) (nth bytestoWrite firstBytes 0) input [].

Definition count (begin : list Z) : option Z :=
  option_map (fun output => Z.of_nat (List.length output))
             (decodeLoop (fun begin => decode begin 0) (fun _ => [tt])
                         (List.length begin) begin).

(** [fromLatin1] encodes each element as a code point. *)
Definition fromLatin1 (begin : list Z) : list Z :=
  flat_map (fun c => encode (to_unsigned 32 c) 0) begin.

(** [toLatin1]: the [char] written for a code point below 256 is given by its
    byte. *)
Definition toLatin1 (begin : list Z) (replacement : Z) : option (list Z) :=
  decodeLoop (fun begin => decode begin 0)
             (fun codepoint => [if codepoint <? 256 then to_unsigned 8 codepoint
                                else replacement])
             (List.length begin) begin.

Definition toUtf16 (begin : list Z) : option (list Z) :=
  decodeLoop (fun begin => decode begin 0) (fun codepoint => Utf16.encode codepoint 0)
             (List.length begin) begin.

Definition toUtf32 (begin : list Z) : option (list Z) :=
  decodeLoop (fun begin => decode begin 0) (fun codepoint => [codepoint])
             (List.length begin) begin.

End Utf8.

Module Utf32.

(** [count] returns [begin - end], converted to a [std::size_t] of
    [size_bits] bits: the range of [begin] is [end - begin] elements long. *)
Definition count (size_bits : Z) (begin : list Z) : Z :=
  to_unsigned size_bits (- Z.of_nat (List.length begin)).

(** [toUtf8] and [toUtf16] encode each element, converted to
    [std::uint32_t]. *)
Definition toUtf8 (begin : list Z) : list Z :=
  flat_map (fun c => Utf8.encode (to_unsigned 32 c) 0) begin.

Definition toUtf16 (begin : list Z) : list Z :=
  flat_map (fun c => Utf16.encode (to_unsigned 32 c) 0) begin.

End Utf32.

(** The part of [Utf<16>::toUtf8] that needs both encodings. *)
Definition Utf16_toUtf8 (begin : list Z) : option (list Z) :=
  decodeLoop (fun begin => Utf16.decode begin 0) (fun codepoint => Utf8.encode codepoint 0)
             (List.length begin) begin.

(** ** [sf::String] (sfml.h, lines 5131-5710): its factories from UTF-8 and UTF-16 *)

Module SfString.

(** [std::u32string m_string]. *)
Record t : Type := mk { m_string : list Z }.

Definition fromUtf8 (begin : list Z) : option t := option_map mk (Utf8.toUtf32 begin).

Definition fromUtf16 (begin : list Z) : option t := option_map mk (Utf16.toUtf32 begin).

End SfString.

(** * Properties *)

(** ** Transforms in exact arithmetic *)

Section ExactTransform.
Local Open Scope Qc_scope.

Lemma Qc_of_Z_0 : Qc_of_Z 0 = 0.
Proof. apply Qc_is_canon. reflexivity. Qed.

Lemma Qc_of_Z_1 : Qc_of_Z 1 = 1.
Proof. apply Qc_is_canon. reflexivity. Qed.

Lemma Qc_eq_bool_true_iff (x y : Qc) : Qc_eq_bool x y = true <-> x = y.
Proof.
  unfold Qc_eq_bool. destruct (Qc_eq_dec x y); split; congruence.
Qed.

(** The operators of [Scalar_exact] are those of the field of rationals. *)
Ltac exact_arith :=
  cbv [add sub mul div neg of_int Scalar_exact] in *;
  rewrite ?Qc_of_Z_0, ?Qc_of_Z_1 in *.

Ltac unfold_transform :=
  cbv [Transform.scale_about Transform.translate Transform.scale Transform.combine
       Transform.make Transform.transformPoint Transform.Identity Transform.determinant
       Transform.affine Vector2.opp
       Transform.m0 Transform.m1 Transform.m2 Transform.m3 Transform.m4 Transform.m5
       Transform.m6 Transform.m7 Transform.m8 Transform.m9 Transform.m10 Transform.m11
       Transform.m12 Transform.m13 Transform.m14 Transform.m15
       Vector2.x Vector2.y] in *.

Ltac name_entries a :=
  let a0 := fresh a "0" in let a1 := fresh a "1" in let a2 := fresh a "2" in
  let a3 := fresh a "3" in let a4 := fresh a "4" in let a5 := fresh a "5" in
  let a6 := fresh a "6" in let a7 := fresh a "7" in let a8 := fresh a "8" in
  let a9 := fresh a "9" in let a10 := fresh a "10" in let a11 := fresh a "11" in
  let a12 := fresh a "12" in let a13 := fresh a "13" in let a14 := fresh a "14" in
  let a15 := fresh a "15" in
  destruct a as [a0 a1 a2 a3 a4 a5 a6 a7 a8 a9 a10 a11 a12 a13 a14 a15].

(** [combine] is the product of the two 3x3 matrices, so it composes the two
    maps on every point that the last row of the right-hand matrix sends to
    weight 1: [transformPoint] never divides by that weight. *)
Lemma combine_transformPoint_weight (a b : Transform.t Qc) (p : Vector2.t Qc) :
  Transform.m3 b * Vector2.x p + Transform.m7 b * Vector2.y p + Transform.m15 b = 1 ->
  Transform.transformPoint (Transform.combine a b) p
  = Transform.transformPoint a (Transform.transformPoint b p).
Proof.
  name_entries a. name_entries b. destruct p as [x y].
  unfold_transform. exact_arith. intros E.
  assert (E' : b15 = 1 - (b3 * x + b7 * y)) by (rewrite <- E; ring).
  rewrite E'. f_equal; ring.
Qed.

(** The transforms the class builds without its nine-argument constructor
    are affine: the identity is, and [combine], [translate] and both [scale]s
    keep a transform affine. *)
Lemma Identity_affine : Transform.affine (Transform.Identity (T := Qc)).
Proof. unfold_transform. auto. Qed.

Lemma combine_affine (a b : Transform.t Qc) :
  Transform.affine a -> Transform.affine b -> Transform.affine (Transform.combine a b).
Proof.
  name_entries a. name_entries b. unfold_transform. exact_arith.
  intros (-> & -> & ->) (-> & -> & ->). repeat split; ring.
Qed.

Lemma translate_affine (m : Transform.t Qc) (offset : Vector2.t Qc) :
  Transform.affine m -> Transform.affine (Transform.translate m offset).
Proof.
  intros Hm. apply combine_affine; [exact Hm |]. unfold_transform. auto.
Qed.

Lemma scale_affine (m : Transform.t Qc) (factors : Vector2.t Qc) :
  Transform.affine m -> Transform.affine (Transform.scale m factors).
Proof.
  intros Hm. apply combine_affine; [exact Hm |]. unfold_transform. auto.
Qed.

Lemma scale_about_affine (m : Transform.t Qc) (factors center : Vector2.t Qc) :
  Transform.affine m -> Transform.affine (Transform.scale_about m factors center).
Proof.
  intros Hm. apply combine_affine; [exact Hm |]. unfold_transform. auto.
Qed.

(** X4.  The affine transforms contain [Identity] and are closed under
    [combine], [translate], [scale(factors)] and [scale(factors, center)], in
    exact arithmetic. *)
Theorem affine_closed :
  Transform.affine (Transform.Identity (T := Qc))
  /\ (forall a b : Transform.t Qc,
        Transform.affine a -> Transform.affine b ->
        Transform.affine (Transform.combine a b))
  /\ (forall (m : Transform.t Qc) (v : Vector2.t Qc),
        Transform.affine m ->
        Transform.affine (Transform.translate m v)
        /\ Transform.affine (Transform.scale m v)
        /\ forall c, Transform.affine (Transform.scale_about m v c)).
Proof.
  split; [exact Identity_affine |]. split; [exact combine_affine |].
  intros m v Hm. split; [now apply translate_affine |].
  split; [now apply scale_affine |]. intros c. now apply scale_about_affine.
Qed.

(** The two branches of [getInverse]. *)
Lemma getInverse_singular (m : Transform.t Qc) :
  Transform.determinant m = 0 -> Transform.getInverse m = Transform.Identity.
Proof.
  intros E. unfold Transform.getInverse. rewrite E.
  replace (eqb 0 (of_int 0%Z)) with true; [reflexivity |].
  symmetry. apply Qc_eq_bool_true_iff. symmetry. apply Qc_of_Z_0.
Qed.

Lemma getInverse_regular_test (m : Transform.t Qc) :
  Transform.determinant m <> 0 ->
  negb (eqb (Transform.determinant m) (of_int 0%Z)) = true.
Proof.
  intros E. apply negb_true_iff. apply not_true_is_false. intros F.
  apply E. apply Qc_eq_bool_true_iff in F. rewrite F. apply Qc_of_Z_0.
Qed.

Lemma getInverse_left (m : Transform.t Qc) :
  Transform.determinant m <> 0 ->
  Transform.combine (Transform.getInverse m) m = Transform.Identity.
Proof.
  intros Hdet. unfold Transform.getInverse.
  rewrite (getInverse_regular_test m Hdet).
  revert Hdet. name_entries m. unfold_transform. exact_arith.
  intros Hdet. f_equal; field; exact Hdet.
Qed.

Lemma getInverse_right (m : Transform.t Qc) :
  Transform.determinant m <> 0 ->
  Transform.combine m (Transform.getInverse m) = Transform.Identity.
Proof.
  intros Hdet. unfold Transform.getInverse.
  rewrite (getInverse_regular_test m Hdet).
  revert Hdet. name_entries m. unfold_transform. exact_arith.
  intros Hdet. f_equal; field; exact Hdet.
Qed.

(** C1, as amended.  For every transform [a], every affine transform [b]
    (last row 0, 0, 1) and every point [p], in exact arithmetic:
    [a.combine(b).transformPoint(p)] is [a.transformPoint(b.transformPoint(p))],
    the combined transform applies [b] first and then [a]. *)
Theorem combine_transformPoint_affine (a b : Transform.t Qc) (p : Vector2.t Qc) :
  Transform.affine b ->
  Transform.transformPoint (Transform.combine a b) p
  = Transform.transformPoint a (Transform.transformPoint b p).
Proof.
  intros (E3 & E7 & E15). apply combine_transformPoint_weight.
  rewrite E3, E7, E15. exact_arith. ring.
Qed.

(** C4, as amended.  For every transform [m], factors [f] and center [c],
    in exact arithmetic: [m.scale(f, c)], which combines one closed-form
    matrix, is the transform [m.translate(c).scale(f).translate(-c)]; all
    sixteen entries agree. *)
Theorem scale_about_is_translate_scale_translate
    (m : Transform.t Qc) (f c : Vector2.t Qc) :
  Transform.scale_about m f c
  = Transform.translate (Transform.scale (Transform.translate m c) f) (Vector2.opp c).
Proof.
  name_entries m. destruct f as [fx fy]. destruct c as [cx cy].
  unfold_transform. exact_arith. f_equal; ring.
Qed.

End ExactTransform.

Section TransformExamples.
Local Open Scope scalar_scope.

(** C1 as stated fails on a transform that is not affine.  [a] translates by
    (1, 0), the last row of [b] is (0, 0, 2), [p] is the origin: the combined
    transform sends [p] to (2, 0), [b] then [a] send it to (1, 0).  All the
    numbers are small integers, so binary32 computes them exactly and the two
    arithmetics agree. *)
Lemma combine_transformPoint_projective :
  (let a : Transform.t binary32 := Transform.make #1 #0 #1 #0 #1 #0 #0 #0 #1 in
   let b : Transform.t binary32 := Transform.make #1 #0 #0 #0 #1 #0 #0 #0 #2 in
   let p : Vector2.t binary32 := Vector2.mk #0 #0 in
   Transform.transformPoint (Transform.combine a b) p = Vector2.mk #2 #0
   /\ Transform.transformPoint a (Transform.transformPoint b p) = Vector2.mk #1 #0
   /\ ((#2 : binary32) =? #1) = false)
  /\
  (let a : Transform.t Qc := Transform.make #1 #0 #1 #0 #1 #0 #0 #0 #1 in
   let b : Transform.t Qc := Transform.make #1 #0 #0 #0 #1 #0 #0 #0 #2 in
   let p : Vector2.t Qc := Vector2.mk #0 #0 in
   Transform.transformPoint (Transform.combine a b) p = Vector2.mk #2 #0
   /\ Transform.transformPoint a (Transform.transformPoint b p) = Vector2.mk #1 #0
   /\ ((#2 : Qc) =? #1) = false).
Proof.
  split; [repeat split; vm_compute; reflexivity |].
  repeat split; try reflexivity;
    unfold Transform.transformPoint; f_equal; apply Qc_is_canon; reflexivity.
Qed.

(** C4 as stated fails in binary32 by one rounding.  Scaling the identity
    by the float nearest to 0.1 about (3, 7): the closed form has the
    translation 3 * (1 - 0.1f) and 7 * (1 - 0.1f), the three steps have
    3 - 0.1f * 3 and 7 - 0.1f * 7, which are the next floats up, and
    [operator==] tells the two transforms apart. *)
Lemma scale_about_binary32_rounding :
  let f : Vector2.t binary32 := Vector2.mk (b32 13421773 (-27)) (b32 13421773 (-27)) in
  let c : Vector2.t binary32 := Vector2.mk #3 #7 in
  let closed := Transform.scale_about Transform.Identity f c in
  let steps :=
    Transform.translate (Transform.scale (Transform.translate Transform.Identity c) f)
                        (Vector2.opp c) in
  #1 / #10 = b32 13421773 (-27)
  /\ Transform.m12 closed = b32 11324620 (-22)
  /\ Transform.m12 steps = b32 11324621 (-22)
  /\ Transform.m13 closed = b32 13212057 (-21)
  /\ Transform.m13 steps = b32 13212058 (-21)
  /\ Transform.eqb closed steps = false.
Proof. repeat split; vm_compute; reflexivity. Qed.

Lemma combine_transformPoint_affine_witness :
  let a : Transform.t Qc := Transform.make #2 #0 #1 #0 #3 #5 #0 #0 #7 in
  let b : Transform.t Qc := Transform.make #1 #4 #0 #2 #1 #6 #0 #0 #1 in
  let p : Vector2.t Qc := Vector2.mk #3 #4 in
  Transform.affine b
   /\ Transform.transformPoint (Transform.combine a b) p
      = Transform.transformPoint a (Transform.transformPoint b p).
Proof.
  intros a b p.
  assert (Hb : Transform.affine b) by (repeat split; reflexivity).
  split; [exact Hb | exact (combine_transformPoint_affine a b p Hb)].
Defined.

End TransformExamples.

(** ** The inverse of a transform *)

Section Inverse.
Local Open Scope scalar_scope.

(** In binary32 the test of [getInverse] is [det != 0.f] and nothing else:
    a determinant that compares equal to zero gives [Identity]. *)
Lemma getInverse_binary32_zero (m : Transform.t binary32) :
  (Transform.determinant m =? #0) = true ->
  Transform.getInverse m = Transform.Identity.
Proof.
  intros E. unfold Transform.getInverse. rewrite E. reflexivity.
Qed.

(** No tolerance: scaling by 2^-60 has the determinant 2^-120, which is far
    below any epsilon and is not zero; [getInverse] inverts it, to the scaling
    by 2^60 (as [operator==] sees it: some zero entries are negative zeros). *)
Example getInverse_binary32_tiny_determinant :
  let m : Transform.t binary32 :=
    Transform.make (b32 1 (-60)) #0 #0 #0 (b32 1 (-60)) #0 #0 #0 #1 in
  Transform.determinant m = b32 1 (-120)
  /\ Transform.eqb (Transform.getInverse m)
       (Transform.make (b32 1 60) #0 #0 #0 (b32 1 60) #0 #0 #0 #1) = true.
Proof. split; vm_compute; reflexivity. Qed.

(** C3 as stated fails in binary32 on its second half.  The determinant of
    the scaling by 2^100 overflows to infinity, which is not zero:
    [getInverse] divides by it and returns zeros and a NaN, where the inverse
    is the scaling by 2^-100.  The determinant of the scaling by 2^-80
    underflows to zero: [getInverse] returns [Identity], where the inverse is
    the scaling by 2^80.  For the matrix (3 1 0; 1 7 0; 0 0 1) the rounded
    inverse times the matrix is the identity up to one rounding only. *)
Lemma getInverse_binary32_overflow :
  (let m : Transform.t binary32 :=
     Transform.make (b32 1 100) #0 #0 #0 (b32 1 100) #0 #0 #0 #1 in
   Transform.determinant m = S754_infinity false
   /\ (Transform.determinant m !=? #0) = true
   /\ Transform.m0 (Transform.getInverse m) = #0
   /\ Transform.m5 (Transform.getInverse m) = #0
   /\ Transform.m15 (Transform.getInverse m) = S754_nan
   /\ Transform.eqb (Transform.combine (Transform.getInverse m) m)
        Transform.Identity = false)
  /\ (let m : Transform.t binary32 :=
        Transform.make (b32 1 (-80)) #0 #0 #0 (b32 1 (-80)) #0 #0 #0 #1 in
      Transform.determinant m = #0
      /\ Transform.getInverse m = Transform.Identity
      /\ Transform.eqb (Transform.combine (Transform.getInverse m) m)
           Transform.Identity = false)
  /\ (let m : Transform.t binary32 := Transform.make #3 #1 #0 #1 #7 #0 #0 #0 #1 in
      Transform.determinant m = #20
      /\ Transform.eqb (Transform.combine (Transform.getInverse m) m)
           Transform.Identity = false).
Proof. repeat split; vm_compute; reflexivity. Qed.

(** C3, as amended.  A transform whose determinant is exactly zero has
    [Identity] for inverse, in exact arithmetic and, whatever rounding made
    the zero, in binary32; a transform whose determinant is not zero has for
    inverse the inverse of its 3x3 matrix, on both sides, in exact
    arithmetic. *)
Theorem getInverse_spec :
  (forall m : Transform.t Qc,
      (Transform.determinant m = #0 ->
       Transform.getInverse m = Transform.Identity)
      /\ (Transform.determinant m <> #0 ->
          Transform.combine (Transform.getInverse m) m = Transform.Identity
          /\ Transform.combine m (Transform.getInverse m) = Transform.Identity))
  /\ (forall m : Transform.t binary32,
        (Transform.determinant m =? #0) = true ->
        Transform.getInverse m = Transform.Identity).
Proof.
  split; [| exact getInverse_binary32_zero].
  intros m. change (of_int 0%Z) with (Qc_of_Z 0). rewrite Qc_of_Z_0. split.
  - apply getInverse_singular.
  - intros Hdet. split; [apply getInverse_left | apply getInverse_right]; exact Hdet.
Qed.

End Inverse.

(** ** Colors *)

Section ColorArithmetic.
Local Open Scope Z_scope.

Lemma to_uint8_byte (z : Z) : Color.byte z -> Color.to_uint8 z = z.
Proof. unfold Color.byte, Color.to_uint8. intros Hz. apply Z.mod_small. lia. Qed.

(** On bytes the three lambdas neither wrap nor lose a bit in their casts. *)
Lemma clampedAdd_spec (lhs rhs : Z) :
  Color.byte lhs -> Color.byte rhs ->
  Color.clampedAdd lhs rhs = Z.min (lhs + rhs) 255.
Proof.
  unfold Color.byte, Color.clampedAdd. intros Hl Hr. cbv zeta.
  destruct (Z.ltb_spec (lhs + rhs) 255); rewrite to_uint8_byte;
    unfold Color.byte; lia.
Qed.

Lemma clampedSub_spec (lhs rhs : Z) :
  Color.byte lhs -> Color.byte rhs ->
  Color.clampedSub lhs rhs = Z.max (lhs - rhs) 0.
Proof.
  unfold Color.byte, Color.clampedSub. intros Hl Hr. cbv zeta.
  rewrite Z.gtb_ltb.
  destruct (Z.ltb_spec 0 (lhs - rhs)); rewrite to_uint8_byte;
    unfold Color.byte; lia.
Qed.

Lemma scaledMul_spec (lhs rhs : Z) :
  Color.byte lhs -> Color.byte rhs ->
  Color.scaledMul lhs rhs = lhs * rhs / 255 /\ Color.byte (lhs * rhs / 255).
Proof.
  unfold Color.byte, Color.scaledMul, Color.to_uint16. intros Hl Hr. cbv zeta.
  assert (Hp : 0 <= lhs * rhs <= 255 * 255) by nia.
  assert (Hq : 0 <= lhs * rhs / 255 <= 255).
  { split; [apply Z.div_pos; lia |].
    apply Z.div_le_upper_bound; lia. }
  rewrite (Z.mod_small lhs), (Z.mod_small rhs), (Z.mod_small (lhs * rhs)) by lia.
  rewrite to_uint8_byte by exact Hq. split; [reflexivity | exact Hq].
Qed.

(** C8.  On colors whose channels are bytes, [operator+] is the sum clamped
    at 255 in every channel, [operator-] the difference clamped at 0,
    [operator*] the product divided by 255; the results are colors again,
    and [Color(250,0,0,255) + Color(10,0,0,0)] is [Color(255,0,0,255)]. *)
Theorem color_operators_saturate (left right : Color.t) :
  Color.wf left -> Color.wf right ->
  let channels (f : Z -> Z -> Z) :=
    Color.mk (f (Color.r left) (Color.r right)) (f (Color.g left) (Color.g right))
             (f (Color.b left) (Color.b right)) (f (Color.a left) (Color.a right)) in
  Color.add left right = channels (fun l r => Z.min (l + r) 255)
  /\ Color.sub left right = channels (fun l r => Z.max (l - r) 0)
  /\ Color.mul left right = channels (fun l r => l * r / 255)
  /\ Color.wf (Color.add left right)
  /\ Color.wf (Color.sub left right)
  /\ Color.wf (Color.mul left right)
  /\ Color.add (Color.mk 250 0 0 255) (Color.mk 10 0 0 0) = Color.mk 255 0 0 255.
Proof.
  intros (Hlr & Hlg & Hlb & Hla) (Hrr & Hrg & Hrb & Hra) channels.
  assert (Hadd : Color.add left right = channels (fun l r => Z.min (l + r) 255)).
  { unfold Color.add, channels. now rewrite !clampedAdd_spec. }
  assert (Hsub : Color.sub left right = channels (fun l r => Z.max (l - r) 0)).
  { unfold Color.sub, channels. now rewrite !clampedSub_spec. }
  assert (Hmul : Color.mul left right = channels (fun l r => l * r / 255)).
  { unfold Color.mul, channels.
    now rewrite (proj1 (scaledMul_spec _ _ Hlr Hrr)), (proj1 (scaledMul_spec _ _ Hlg Hrg)),
      (proj1 (scaledMul_spec _ _ Hlb Hrb)), (proj1 (scaledMul_spec _ _ Hla Hra)). }
  rewrite Hadd, Hsub, Hmul. unfold channels, Color.wf, Color.byte in *.
  cbn [Color.r Color.g Color.b Color.a].
  pose proof (proj2 (scaledMul_spec _ _ Hlr Hrr)) as Mr.
  pose proof (proj2 (scaledMul_spec _ _ Hlg Hrg)) as Mg.
  pose proof (proj2 (scaledMul_spec _ _ Hlb Hrb)) as Mb.
  pose proof (proj2 (scaledMul_spec _ _ Hla Hra)) as Ma.
  unfold Color.byte in *.
  repeat split; try reflexivity; try lia.
Qed.

Lemma color_operators_saturate_witness :
  let left := Color.mk 200 100 0 255 in
  let right := Color.mk 100 200 255 128 in
  Color.wf left /\ Color.wf right
  /\ Color.add left right = Color.mk 255 255 255 255
  /\ Color.sub left right = Color.mk 100 0 0 127
  /\ Color.mul left right = Color.mk 78 78 0 128.
Proof.
  intros left right.
  assert (Hl : Color.wf left) by (unfold Color.wf, Color.byte; cbn; lia).
  assert (Hr : Color.wf right) by (unfold Color.wf, Color.byte; cbn; lia).
  destruct (color_operators_saturate left right Hl Hr) as (Ha & Hs & Hm & _).
  split; [exact Hl |]. split; [exact Hr |].
  rewrite Ha, Hs, Hm. repeat split.
Defined.

End ColorArithmetic.

(** ** Rectangles *)

Section OrderLawsInstances.

#[export] Instance OrderLaws_int : OrderLaws Z.
Proof.
  split; cbn.
  - intros x y Hxy. apply Z.ltb_ge. apply Z.ltb_lt in Hxy. lia.
  - intros a x b Hax Hxb. apply Z.leb_le in Hax. apply Z.ltb_lt in Hxb.
    apply Z.ltb_lt. lia.
Qed.

Lemma Qc_ltb_lt (x y : Qc) : Qc_ltb x y = true <-> (x < y)%Qc.
Proof.
  unfold Qc_ltb. rewrite Qclt_alt. destruct (x ?= y)%Qc; split; congruence.
Qed.

Lemma Qc_leb_le (x y : Qc) : Qc_leb x y = true <-> (x <= y)%Qc.
Proof.
  unfold Qc_leb. rewrite Qcle_alt. destruct (x ?= y)%Qc; split; congruence.
Qed.

#[export] Instance OrderLaws_exact : OrderLaws Qc.
Proof.
  split; cbn.
  - intros x y Hxy. apply not_true_is_false. rewrite Qc_ltb_lt.
    apply Qc_ltb_lt in Hxy. apply Qcle_not_lt, Qclt_le_weak, Hxy.
  - intros a x b Hax Hxb. apply Qc_ltb_lt. apply Qc_leb_le in Hax.
    apply Qc_ltb_lt in Hxb. eapply Qcle_lt_trans; eassumption.
Qed.

(** The comparison of binary32 numbers, case by case. *)
Ltac float_cases :=
  repeat match goal with
  | x : spec_float |- _ => destruct x as [[|]|[|]| |[|] ? ?]
  | x : binary32 |- _ => destruct x as [[|]|[|]| |[|] ? ?]
  end; cbn.

Ltac compare_cases :=
  repeat match goal with
  | |- context [Z.compare ?a ?b] => destruct (Z.compare_spec a b)
  | H : context [Z.compare ?a ?b] |- _ => destruct (Z.compare_spec a b)
  | |- context [Pos.compare_cont Eq ?a ?b] =>
      change (Pos.compare_cont Eq a b) with (Pos.compare a b);
      destruct (Pos.compare_spec a b)
  | H : context [Pos.compare_cont Eq ?a ?b] |- _ =>
      change (Pos.compare_cont Eq a b) with (Pos.compare a b) in H;
      destruct (Pos.compare_spec a b)
  end; cbn in *.

Lemma SFltb_asym (x y : binary32) : SFltb x y = true -> SFltb y x = false.
Proof.
  unfold SFltb, SFcompare. float_cases; try discriminate; try reflexivity;
    intros E; compare_cases; try discriminate; try reflexivity; subst; lia.
Qed.

Lemma SFleb_ltb_trans (a x b : binary32) :
  SFleb a x = true -> SFltb x b = true -> SFltb a b = true.
Proof.
  unfold SFltb, SFleb, SFcompare. float_cases; try discriminate; try reflexivity;
    intros E1 E2; compare_cases; try discriminate; try reflexivity; subst; lia.
Qed.

#[export] Instance OrderLaws_binary32 : OrderLaws binary32.
Proof. split; [exact SFltb_asym | exact SFleb_ltb_trans]. Qed.

End OrderLawsInstances.

Section OrderedRect.
Context {T : Type} `{OrderLaws T}.
Local Open Scope scalar_scope.

Lemma ltb_irrefl (x : T) : (x <? x) = false.
Proof.
  destruct (x <? x) eqn:E; [| reflexivity]. now rewrite (ltb_asym x x E) in E.
Qed.

(** Between the two lambdas of [contains], every order of the two ends of a
    side is covered: that is the normalization. *)
Lemma min_max_between (a b x : T) :
  (x >=? Rect.min a b) && (x <? Rect.max a b) = Rect.between a b x.
Proof.
  unfold Rect.min, Rect.max, Rect.between. destruct (a <? b) eqn:E.
  - destruct ((b <=? x) && (x <? a)) eqn:F; [| now rewrite orb_false_r].
    apply andb_true_iff in F. destruct F as [F1 F2].
    pose proof (leb_ltb_trans b x a F1 F2) as G.
    rewrite (ltb_asym a b E) in G. discriminate.
  - destruct ((a <=? x) && (x <? b)) eqn:F; [| reflexivity].
    apply andb_true_iff in F. destruct F as [F1 F2].
    pose proof (leb_ltb_trans a x b F1 F2) as G. rewrite E in G. discriminate.
Qed.

Lemma contains_between (r : Rect.t T) (p : Vector2.t T) :
  Rect.contains r p
  = Rect.between (Rect.left r) (Rect.left r + Rect.width r) (Vector2.x p)
    && Rect.between (Rect.top r) (Rect.top r + Rect.height r) (Vector2.y p).
Proof.
  unfold Rect.contains. cbv zeta. rewrite <- !min_max_between.
  now rewrite !andb_assoc.
Qed.

Lemma contains_far_sides (r : Rect.t T) (p : Vector2.t T) :
  (Vector2.x p = Rect.max (Rect.left r) (Rect.left r + Rect.width r) ->
   Rect.contains r p = false)
  /\ (Vector2.y p = Rect.max (Rect.top r) (Rect.top r + Rect.height r) ->
      Rect.contains r p = false).
Proof.
  unfold Rect.contains. cbv zeta.
  split; intros ->; rewrite ltb_irrefl; rewrite ?andb_false_r; reflexivity.
Qed.

(** [findIntersection] as the code tests it, on every number type. *)
Lemma findIntersection_overlap (r1 r2 : Rect.t T) :
  Rect.findIntersection r1 r2
  = if (Rect.interLeft r1 r2 <? Rect.interRight r1 r2)
       && (Rect.interTop r1 r2 <? Rect.interBottom r1 r2)
    then Some (Rect.overlap r1 r2) else None.
Proof. reflexivity. Qed.

(** The two lambdas return one of their arguments. *)
Lemma min_cases (a b : T) : Rect.min a b = a \/ Rect.min a b = b.
Proof. unfold Rect.min. destruct (a <? b); auto. Qed.

Lemma max_cases (a b : T) : Rect.max a b = a \/ Rect.max a b = b.
Proof. unfold Rect.max. destruct (a <? b); auto. Qed.

(** A number between the ends of two sides lies between their innermost
    ends, which are therefore in order. *)
Lemma inner_sides_in_order (lo1 hi1 lo2 hi2 x : T) :
  (lo1 <=? x) = true -> (x <? hi1) = true ->
  (lo2 <=? x) = true -> (x <? hi2) = true ->
  (Rect.max lo1 lo2 <? Rect.min hi1 hi2) = true.
Proof.
  intros L1 H1 L2 H2. apply (leb_ltb_trans _ x).
  - destruct (max_cases lo1 lo2) as [-> | ->]; assumption.
  - destruct (min_cases hi1 hi2) as [-> | ->]; assumption.
Qed.

(** Two rectangles that contain a common point intersect. *)
Lemma findIntersection_common_point (r1 r2 : Rect.t T) (p : Vector2.t T) :
  Rect.contains r1 p = true -> Rect.contains r2 p = true ->
  Rect.findIntersection r1 r2 = Some (Rect.overlap r1 r2).
Proof.
  unfold Rect.contains. cbv zeta. rewrite !andb_true_iff.
  intros (((Lx1 & Hx1) & Ly1) & Hy1) (((Lx2 & Hx2) & Ly2) & Hy2).
  rewrite findIntersection_overlap. unfold Rect.interLeft, Rect.interRight,
    Rect.interTop, Rect.interBottom.
  rewrite (inner_sides_in_order _ _ _ _ _ Lx1 Hx1 Lx2 Hx2).
  rewrite (inner_sides_in_order _ _ _ _ _ Ly1 Hy1 Ly2 Hy2). reflexivity.
Qed.

End OrderedRect.

(** *** Subtraction and order in binary32 *)

Section Binary32Order.

(** The number of binary digits of a mantissa. *)
Lemma digits2_pos_bounds (m : positive) :
  2 ^ (Zpos (digits2_pos m) - 1) <= Zpos m < 2 ^ Zpos (digits2_pos m).
Proof.
  induction m as [m IH | m IH |]; cbn [digits2_pos];
    [| | cbn; lia]; rewrite Pos2Z.inj_succ;
    set (d := Zpos (digits2_pos m)) in *;
    replace (Z.succ d - 1) with d by lia;
    rewrite Z.pow_succ_r by lia;
    replace d with (Z.succ (d - 1)) at 1 by lia;
    rewrite Z.pow_succ_r by lia; lia.
Qed.

(** [fexp] of binary32. *)
Lemma fexp32 (e : Z) : fexp prec32 emax32 e = Z.max (e - 24) (-149).
Proof. reflexivity. Qed.

(** A number of binary32: its exponent is at least -149, its mantissa has at
    most 24 digits, and exactly 24 above the least exponent. *)
Lemma bounded32 (m : positive) (e : Z) :
  bounded prec32 emax32 m e = true ->
  -149 <= e <= 104 /\ Zpos (digits2_pos m) <= 24
  /\ (-149 < e -> Zpos (digits2_pos m) = 24).
Proof.
  unfold bounded, canonical_mantissa. rewrite fexp32.
  change (emax32 - prec32) with 104.
  rewrite andb_true_iff, Z.eqb_eq, Z.leb_le. lia.
Qed.

Lemma iter_xO (m d : positive) : Zpos (Pos.iter xO m d) = Zpos m * 2 ^ Zpos d.
Proof.
  revert m. induction d as [| d IH] using Pos.peano_ind; intros m.
  - cbn. lia.
  - rewrite Pos.iter_succ, Pos2Z.inj_succ, Z.pow_succ_r by lia.
    rewrite Pos2Z.inj_xO, IH. lia.
Qed.

(** The mantissa aligned on a lower exponent. *)
Lemma shl_align_fst (m : positive) (e ez : Z) :
  ez <= e -> Zpos (fst (shl_align m e ez)) = Zpos m * 2 ^ (e - ez).
Proof.
  intros H. unfold shl_align. destruct (ez - e) as [| d | d] eqn:E; cbn [fst].
  - replace (e - ez) with 0 by lia. lia.
  - lia.
  - rewrite iter_xO. f_equal. f_equal. lia.
Qed.


(** The comparison of two numbers of binary32 is that of their mantissas once
    aligned on the lower exponent. *)
Lemma SFltb_aligned (sa sb : bool) (ma mb : positive) (ea eb : Z) :
  bounded prec32 emax32 ma ea = true -> bounded prec32 emax32 mb eb = true ->
  SFltb (S754_finite sa ma ea) (S754_finite sb mb eb)
  = (0 <? cond_Zopp sb (Zpos (fst (shl_align mb eb (Z.min eb ea))))
          - cond_Zopp sa (Zpos (fst (shl_align ma ea (Z.min eb ea))))).
Proof.
  intros Ha Hb. apply bounded32 in Ha, Hb.
  destruct Ha as (Ea & Da & Na), Hb as (Eb & Db & Nb).
  rewrite !shl_align_fst by lia.
  pose proof (digits2_pos_bounds ma) as Ba. pose proof (digits2_pos_bounds mb) as Bb.
  assert (Pa : Zpos ma < 2 ^ 24).
  { eapply Z.lt_le_trans; [apply Ba |]. apply Z.pow_le_mono_r; lia. }
  assert (Pb : Zpos mb < 2 ^ 24).
  { eapply Z.lt_le_trans; [apply Bb |]. apply Z.pow_le_mono_r; lia. }
  unfold SFltb, SFcompare.
  destruct (Z.compare_spec ea eb) as [E | L | G].
  - subst eb. rewrite Z.min_id, Z.sub_diag, !Z.mul_1_r.
    change (Pos.compare_cont Eq ma mb) with (Pos.compare ma mb).
    destruct sa, sb; cbn [cond_Zopp]; destruct (Pos.compare_spec ma mb) as [-> | Hlt | Hgt];
      cbn [CompOpp]; symmetry; try (apply Z.ltb_lt; lia); apply Z.ltb_ge; lia.
  - rewrite Z.min_r by lia. rewrite Z.sub_diag, Z.mul_1_r.
    assert (Hb24 : 2 ^ 23 <= Zpos mb).
    { rewrite Nb in Bb by lia. apply Bb. }
    assert (H2 : 2 <= 2 ^ (eb - ea)).
    { change 2 with (2 ^ 1) at 1. apply Z.pow_le_mono_r; lia. }
    assert (HB : 2 ^ 24 <= Zpos mb * 2 ^ (eb - ea)).
    { change (2 ^ 24) with (2 ^ 23 * 2). apply Z.mul_le_mono_nonneg; lia. }
    destruct sa, sb; cbn [cond_Zopp]; symmetry;
      try (apply Z.ltb_lt; lia); apply Z.ltb_ge; lia.
  - rewrite Z.min_l by lia. rewrite Z.sub_diag, Z.mul_1_r.
    assert (Ha24 : 2 ^ 23 <= Zpos ma).
    { rewrite Na in Ba by lia. apply Ba. }
    assert (H2 : 2 <= 2 ^ (ea - eb)).
    { change 2 with (2 ^ 1) at 1. apply Z.pow_le_mono_r; lia. }
    assert (HA : 2 ^ 24 <= Zpos ma * 2 ^ (ea - eb)).
    { change (2 ^ 24) with (2 ^ 23 * 2). apply Z.mul_le_mono_nonneg; lia. }
    destruct sa, sb; cbn [cond_Zopp]; symmetry;
      try (apply Z.ltb_lt; lia); apply Z.ltb_ge; lia.
Qed.

(** Shifting a mantissa to the right. *)
Lemma shr_1_m (mrs : shr_record) :
  0 <= shr_m mrs -> shr_m (shr_1 mrs) = Z.shiftr (shr_m mrs) 1.
Proof.
  destruct mrs as [m r s]. cbn [shr_m]. intros H. rewrite <- Z.div2_spec.
  destruct m as [| [p | p |] | p]; try reflexivity. lia.
Qed.

Lemma iter_shr_1_m (p : positive) (mrs : shr_record) :
  0 <= shr_m mrs -> shr_m (iter_pos shr_1 p mrs) = Z.shiftr (shr_m mrs) (Zpos p).
Proof.
  revert mrs. induction p as [p IH | p IH |]; intros mrs H; cbn [iter_pos].
  - assert (H1 : 0 <= shr_m (shr_1 mrs)) by (rewrite shr_1_m by lia; apply Z.shiftr_nonneg; lia).
    assert (H2 : 0 <= shr_m (iter_pos shr_1 p (shr_1 mrs)))
      by (rewrite IH by lia; apply Z.shiftr_nonneg; lia).
    rewrite IH, IH, shr_1_m by lia. rewrite !Z.shiftr_shiftr by lia. f_equal. lia.
  - assert (H2 : 0 <= shr_m (iter_pos shr_1 p mrs))
      by (rewrite IH by lia; apply Z.shiftr_nonneg; lia).
    rewrite IH, IH by lia. rewrite !Z.shiftr_shiftr by lia. f_equal. lia.
  - now apply shr_1_m.
Qed.

Lemma shr_record_of_loc_m (m : Z) (l : location) : shr_m (shr_record_of_loc m l) = m.
Proof. destruct l as [| []]; reflexivity. Qed.

(** Rounding to the exponent of binary32 keeps a positive mantissa positive,
    above the least exponent. *)
Lemma shr_fexp_pos (m : positive) (e : Z) (l : location) :
  -149 <= e ->
  0 < shr_m (fst (shr_fexp prec32 emax32 (Zpos m) e l))
  /\ -149 <= snd (shr_fexp prec32 emax32 (Zpos m) e l).
Proof.
  intros He. unfold shr_fexp, shr. cbn [Zdigits2]. rewrite fexp32.
  pose proof (digits2_pos_bounds m) as B.
  destruct (Z.max (Zpos (digits2_pos m) + e - 24) (-149) - e) as [| p | p] eqn:E;
    cbn [fst snd]; rewrite ?shr_record_of_loc_m; try lia.
  rewrite iter_shr_1_m by (rewrite shr_record_of_loc_m; lia).
  rewrite shr_record_of_loc_m, Z.shiftr_div_pow2 by lia.
  split; [| lia].
  apply Z.div_str_pos. split; [apply Z.pow_pos_nonneg; lia |].
  eapply Z.le_trans; [| apply B]. apply Z.pow_le_mono_r; lia.
Qed.

Lemma round_nearest_even_pos (m : Z) (l : location) :
  0 < m -> 0 < round_nearest_even m l.
Proof.
  intros H. unfold round_nearest_even. destruct l as [| []]; try lia.
  destruct (Z.even m); lia.
Qed.

(** A rounded number that is not zero keeps its sign: it is finite, or
    an infinity. *)
Lemma binary_round_aux_signed (s : bool) (m : positive) (e : Z) (l : location) :
  -149 <= e -> has_sign s (binary_round_aux prec32 emax32 s (Zpos m) e l).
Proof.
  intros He. unfold binary_round_aux.
  destruct (shr_fexp_pos m e l He) as [P1 E1].
  destruct (shr_fexp prec32 emax32 (Zpos m) e l) as [mrs' e']. cbn [fst snd] in P1, E1.
  pose proof (round_nearest_even_pos (shr_m mrs') (loc_of_shr_record mrs') P1) as P2.
  destruct (round_nearest_even (shr_m mrs') (loc_of_shr_record mrs')) as [| m2 | m2];
    try lia.
  destruct (shr_fexp_pos m2 e' loc_Exact E1) as [P3 E3].
  destruct (shr_fexp prec32 emax32 (Zpos m2) e' loc_Exact) as [mrs'' e''].
  cbn [fst snd] in P3, E3.
  destruct (shr_m mrs'') as [| m3 | m3]; try lia.
  destruct (e'' <=? emax32 - prec32); [right; eauto | left; reflexivity].
Qed.

Lemma binary_round_signed (s : bool) (m : positive) (e : Z) :
  -149 <= e -> has_sign s (binary_round prec32 emax32 s m e).
Proof.
  intros He. unfold binary_round.
  destruct (shl_align m e (fexp prec32 emax32 (Zpos (digits2_pos m) + e))) as [mz ez] eqn:E.
  apply binary_round_aux_signed.
  revert E. unfold shl_align. rewrite fexp32.
  destruct (Z.max (Zpos (digits2_pos m) + e - 24) (-149) - e); intros [= <- <-]; lia.
Qed.

Lemma SFltb_zero_signed (s : bool) (x : spec_float) :
  has_sign s x -> SFltb (S754_zero false) x = negb s.
Proof. intros [-> | (m & e & ->)]; destruct s; reflexivity. Qed.

(** In binary32 a difference is positive exactly when its terms are in
    order: the subtraction of two distinct numbers never rounds to zero. *)
Lemma SFltb_0_sub (a b : binary32) :
  valid_binary prec32 emax32 a = true -> valid_binary prec32 emax32 b = true ->
  SFltb (S754_zero false) (SFsub prec32 emax32 b a) = SFltb a b.
Proof.
  intros Va Vb.
  destruct a as [sa | sa | | sa ma ea], b as [sb | sb | | sb mb eb];
    try (destruct sa; reflexivity); try (destruct sb; reflexivity);
    try (destruct sa, sb; reflexivity); try reflexivity.
  cbn [valid_binary] in Va, Vb.
  rewrite (SFltb_aligned sa sb ma mb ea eb Va Vb).
  unfold SFsub, binary_normalize.
  assert (Hz : -149 <= Z.min eb ea).
  { apply bounded32 in Va, Vb. lia. }
  destruct (cond_Zopp sb (Zpos (fst (shl_align mb eb (Z.min eb ea))))
            - cond_Zopp sa (Zpos (fst (shl_align ma ea (Z.min eb ea))))) as [| d | d].
  - reflexivity.
  - rewrite (SFltb_zero_signed false) by (now apply binary_round_signed). reflexivity.
  - rewrite (SFltb_zero_signed true) by (now apply binary_round_signed). reflexivity.
Qed.


(** The number of digits is the [d] with [2^(d-1) <= m < 2^d], and grows
    with the mantissa. *)
Lemma digits2_pos_unique (m : positive) (d : Z) :
  2 ^ (d - 1) <= Zpos m < 2 ^ d -> Zpos (digits2_pos m) = d.
Proof.
  intros H. pose proof (digits2_pos_bounds m) as B.
  assert (0 < d).
  { destruct (Z.lt_ge_cases 0 d) as [| N]; [assumption |].
    destruct (Z.eq_dec d 0) as [-> | Hne]; [cbn in H; lia |].
    rewrite (Z.pow_neg_r 2 d) in H by lia. lia. }
  destruct (Z.lt_trichotomy (Zpos (digits2_pos m)) d) as [L | [E | G]]; [| exact E |].
  - assert (2 ^ Zpos (digits2_pos m) <= 2 ^ (d - 1)) by (apply Z.pow_le_mono_r; lia). lia.
  - assert (2 ^ d <= 2 ^ (Zpos (digits2_pos m) - 1)) by (apply Z.pow_le_mono_r; lia). lia.
Qed.

Lemma digits2_pos_le (m m' : positive) :
  Zpos m <= Zpos m' -> Zpos (digits2_pos m) <= Zpos (digits2_pos m').
Proof.
  intros H. pose proof (digits2_pos_bounds m) as B. pose proof (digits2_pos_bounds m') as B'.
  destruct (Z.le_gt_cases (Zpos (digits2_pos m)) (Zpos (digits2_pos m'))) as [| G];
    [assumption |].
  assert (2 ^ Zpos (digits2_pos m') <= 2 ^ (Zpos (digits2_pos m) - 1))
    by (apply Z.pow_le_mono_r; lia).
  lia.
Qed.

(** Rounding to the exponent of binary32 a mantissa whose exponent is not
    above it gives a mantissa of binary32. *)
Lemma shr_fexp_canonical (m : positive) (e : Z) (l : location) :
  -149 <= e -> e <= fexp prec32 emax32 (Zpos (digits2_pos m) + e) ->
  exists m' : positive,
    shr_m (fst (shr_fexp prec32 emax32 (Zpos m) e l)) = Zpos m'
    /\ fexp prec32 emax32 (Zpos (digits2_pos m') + snd (shr_fexp prec32 emax32 (Zpos m) e l))
       = snd (shr_fexp prec32 emax32 (Zpos m) e l)
    /\ -149 <= snd (shr_fexp prec32 emax32 (Zpos m) e l).
Proof.
  intros He Hf. unfold shr_fexp, shr. cbn [Zdigits2]. rewrite fexp32 in *.
  pose proof (digits2_pos_bounds m) as B.
  destruct (Z.max (Zpos (digits2_pos m) + e - 24) (-149) - e) as [| p | p] eqn:E;
    cbn [fst snd]; rewrite ?shr_record_of_loc_m.
  - exists m. rewrite fexp32. lia.
  - rewrite iter_shr_1_m by (rewrite shr_record_of_loc_m; lia).
    rewrite shr_record_of_loc_m, Z.shiftr_div_pow2 by lia.
    assert (Ep : Zpos p = Zpos (digits2_pos m) - 24) by lia.
    assert (Hp : 2 ^ Zpos (digits2_pos m) = 2 ^ 24 * 2 ^ Zpos p).
    { rewrite <- Z.pow_add_r by lia. f_equal. lia. }
    assert (Hp' : 2 ^ (Zpos (digits2_pos m) - 1) = 2 ^ 23 * 2 ^ Zpos p).
    { rewrite <- Z.pow_add_r by lia. f_equal. lia. }
    assert (P2 : 0 < 2 ^ Zpos p) by (apply Z.pow_pos_nonneg; lia).
    assert (Q : 2 ^ 23 <= Zpos m / 2 ^ Zpos p < 2 ^ 24).
    { split.
      - apply Z.div_le_lower_bound; lia.
      - apply Z.div_lt_upper_bound; lia. }
    destruct (Zpos m / 2 ^ Zpos p) as [| m' | m'] eqn:Em; try (change (2 ^ 23) with 8388608 in Q; lia).
    exists m'. split; [reflexivity |].
    rewrite (digits2_pos_unique m' 24) by exact Q. rewrite fexp32. lia.
  - lia.
Qed.

Lemma round_nearest_even_cases (m : Z) (l : location) :
  round_nearest_even m l = m \/ round_nearest_even m l = m + 1.
Proof.
  unfold round_nearest_even. destruct l as [| []]; auto. destruct (Z.even m); auto.
Qed.

Lemma fexp32_le (x y : Z) : x <= y -> fexp prec32 emax32 x <= fexp prec32 emax32 y.
Proof. rewrite !fexp32. lia. Qed.

Lemma binary_round_aux_valid (s : bool) (m : positive) (e : Z) (l : location) :
  -149 <= e -> e <= fexp prec32 emax32 (Zpos (digits2_pos m) + e) ->
  valid_binary prec32 emax32 (binary_round_aux prec32 emax32 s (Zpos m) e l) = true.
Proof.
  intros He Hf. unfold binary_round_aux.
  destruct (shr_fexp_canonical m e l He Hf) as (m1 & E1 & C1 & B1).
  destruct (shr_fexp prec32 emax32 (Zpos m) e l) as [mrs' e']. cbn [fst snd] in E1, C1, B1.
  rewrite E1.
  assert (R : exists m2 : positive,
             round_nearest_even (Zpos m1) (loc_of_shr_record mrs') = Zpos m2
             /\ Zpos m1 <= Zpos m2).
  { destruct (round_nearest_even_cases (Zpos m1) (loc_of_shr_record mrs')) as [-> | ->].
    - exists m1. split; [reflexivity | lia].
    - exists (m1 + 1)%positive. split; [reflexivity | lia]. }
  destruct R as (m2 & -> & L2).
  assert (Hf2 : e' <= fexp prec32 emax32 (Zpos (digits2_pos m2) + e')).
  { rewrite <- C1 at 1. apply fexp32_le. pose proof (digits2_pos_le m1 m2 L2). lia. }
  destruct (shr_fexp_canonical m2 e' loc_Exact B1 Hf2) as (m3 & E3 & C3 & B3).
  destruct (shr_fexp prec32 emax32 (Zpos m2) e' loc_Exact) as [mrs'' e''].
  cbn [fst snd] in E3, C3, B3. rewrite E3.
  destruct (e'' <=? emax32 - prec32) eqn:O; [| reflexivity].
  cbn [valid_binary]. unfold bounded, canonical_mantissa. rewrite C3, Z.eqb_refl, O. reflexivity.
Qed.

Lemma binary_round_valid (s : bool) (m : positive) (e : Z) :
  -149 <= e -> valid_binary prec32 emax32 (binary_round prec32 emax32 s m e) = true.
Proof.
  intros He. unfold binary_round.
  pose proof (digits2_pos_bounds m) as B.
  remember (fexp prec32 emax32 (Zpos (digits2_pos m) + e)) as f eqn:Ef.
  unfold shl_align. destruct (f - e) as [| p | p] eqn:F; cbv iota beta.
  - apply binary_round_aux_valid; [lia | rewrite <- Ef; lia].
  - apply binary_round_aux_valid; [lia | rewrite <- Ef; lia].
  - assert (D : Zpos (digits2_pos (Pos.iter xO m p)) = Zpos (digits2_pos m) + Zpos p).
    { apply digits2_pos_unique. rewrite iter_xO.
      replace (Zpos (digits2_pos m) + Zpos p - 1)
        with ((Zpos (digits2_pos m) - 1) + Zpos p) by lia.
      rewrite !Z.pow_add_r by lia.
      assert (0 < 2 ^ Zpos p) by (apply Z.pow_pos_nonneg; lia). nia. }
    assert (Hf : -149 <= f) by (rewrite Ef, fexp32; lia).
    apply binary_round_aux_valid; [exact Hf |].
    rewrite D. replace (Zpos (digits2_pos m) + Zpos p + f) with (Zpos (digits2_pos m) + e) by lia.
    rewrite <- Ef. lia.
Qed.

(** The sum of two numbers of binary32 is a number of binary32. *)
Lemma SFadd_valid (a b : binary32) :
  valid_binary prec32 emax32 a = true -> valid_binary prec32 emax32 b = true ->
  valid_binary prec32 emax32 (SFadd prec32 emax32 a b) = true.
Proof.
  intros Va Vb.
  destruct a as [sa | sa | | sa ma ea], b as [sb | sb | | sb mb eb];
    try (destruct sa, sb; reflexivity); try reflexivity; try assumption.
  cbn [valid_binary] in Va, Vb. unfold SFadd, binary_normalize.
  assert (Hz : -149 <= Z.min ea eb).
  { apply bounded32 in Va, Vb. lia. }
  destruct (cond_Zopp sa (Zpos (fst (shl_align ma ea (Z.min ea eb))))
            + cond_Zopp sb (Zpos (fst (shl_align mb eb (Z.min ea eb))))) as [| d | d].
  - reflexivity.
  - now apply binary_round_valid.
  - now apply binary_round_valid.
Qed.

End Binary32Order.

Section FloatRectangles.
Import FloatRect.

(** The sides [findIntersection] computes are values of binary32. *)
Lemma min_is_float (a b : binary32) :
  is_float a = true -> is_float b = true -> is_float (Rect.min a b) = true.
Proof. intros Ha Hb. destruct (min_cases a b) as [-> | ->]; assumption. Qed.

Lemma max_is_float (a b : binary32) :
  is_float a = true -> is_float b = true -> is_float (Rect.max a b) = true.
Proof. intros Ha Hb. destruct (max_cases a b) as [-> | ->]; assumption. Qed.

Lemma inner_sides_are_floats (r1 r2 : Rect.t binary32) :
  valid r1 = true -> valid r2 = true ->
  is_float (Rect.interLeft r1 r2) = true /\ is_float (Rect.interRight r1 r2) = true
  /\ is_float (Rect.interTop r1 r2) = true /\ is_float (Rect.interBottom r1 r2) = true.
Proof.
  unfold valid. rewrite !andb_true_iff.
  intros (((L1 & T1) & W1) & H1) (((L2 & T2) & W2) & H2).
  unfold Rect.interLeft, Rect.interRight, Rect.interTop, Rect.interBottom.
  repeat split; repeat first [apply min_is_float | apply max_is_float | assumption];
    apply SFadd_valid; assumption.
Qed.

(** On [FloatRect]s a rectangle is returned exactly when the overlap of the
    rounded sides has a positive width and a positive height. *)
Lemma findIntersection_binary32 (r1 r2 : Rect.t binary32) :
  valid r1 = true -> valid r2 = true ->
  Rect.findIntersection r1 r2
  = if ltb (of_int 0) (Rect.width (Rect.overlap r1 r2))
       && ltb (of_int 0) (Rect.height (Rect.overlap r1 r2))
    then Some (Rect.overlap r1 r2) else None.
Proof.
  intros V1 V2. destruct (inner_sides_are_floats r1 r2 V1 V2) as (Nl & Nr & Nt & Nb).
  rewrite findIntersection_overlap.
  assert (Ew : ltb (of_int 0) (Rect.width (Rect.overlap r1 r2))
               = ltb (Rect.interLeft r1 r2) (Rect.interRight r1 r2))
    by exact (SFltb_0_sub _ _ Nl Nr).
  assert (Eh : ltb (of_int 0) (Rect.height (Rect.overlap r1 r2))
               = ltb (Rect.interTop r1 r2) (Rect.interBottom r1 r2))
    by exact (SFltb_0_sub _ _ Nt Nb).
  rewrite Ew, Eh. reflexivity.
Qed.

End FloatRectangles.

Section IntRectangles.
Import IntRect.
Local Open Scope Z_scope.

(** At [int] the two lambdas are the minimum and the maximum. *)
Lemma Rect_min_int (a b : Z) : Rect.min a b = Z.min a b.
Proof. unfold Rect.min. cbn. destruct (Z.ltb_spec a b); lia. Qed.

Lemma Rect_max_int (a b : Z) : Rect.max a b = Z.max a b.
Proof. unfold Rect.max. cbn. destruct (Z.ltb_spec a b); lia. Qed.

(** The hypotheses on overflow, as inequalities. *)
Lemma in_int_bounds (z : Z) : in_int z = true <-> -2147483648 <= z <= 2147483647.
Proof.
  unfold in_int, INT_MIN, INT_MAX. rewrite andb_true_iff, !Z.leb_le.
  change (- 2 ^ 31) with (-2147483648). change (2 ^ 31 - 1) with 2147483647. tauto.
Qed.

Lemma in_range_bounds (r : Rect.t Z) :
  in_range r = true
  <-> (-2147483648 <= Rect.left r <= 2147483647)
      /\ (-2147483648 <= Rect.top r <= 2147483647)
      /\ (-2147483648 <= Rect.width r <= 2147483647)
      /\ (-2147483648 <= Rect.height r <= 2147483647)
      /\ (-2147483648 <= Rect.left r + Rect.width r <= 2147483647)
      /\ (-2147483648 <= Rect.top r + Rect.height r <= 2147483647).
Proof. unfold in_range. rewrite !andb_true_iff, !in_int_bounds. tauto. Qed.

Lemma no_overflow_bounds (r1 r2 : Rect.t Z) :
  no_overflow r1 r2 = true
  <-> in_range r1 = true /\ in_range r2 = true
      /\ (0 < Rect.width (overlap r1 r2) -> 0 < Rect.height (overlap r1 r2) ->
          Rect.width (overlap r1 r2) <= 2147483647
          /\ Rect.height (overlap r1 r2) <= 2147483647).
Proof.
  unfold no_overflow, overlap. cbn [Rect.width Rect.height].
  rewrite !andb_true_iff.
  destruct (Z.ltb_spec (interLeft r1 r2) (interRight r1 r2)),
    (Z.ltb_spec (interTop r1 r2) (interBottom r1 r2)); cbn [andb];
    rewrite ?andb_true_iff, ?in_int_bounds; intuition lia.
Qed.

(** The overlap [findIntersection] returns is an [IntRect] again. *)
Lemma overlap_in_range (r1 r2 : Rect.t Z) :
  no_overflow r1 r2 = true ->
  0 < Rect.width (overlap r1 r2) -> 0 < Rect.height (overlap r1 r2) ->
  in_range (overlap r1 r2) = true.
Proof.
  intros H Hw Hh. apply no_overflow_bounds in H. destruct H as (H1 & H2 & H).
  specialize (H Hw Hh). apply in_range_bounds in H1, H2. apply in_range_bounds.
  revert Hw Hh H. unfold overlap, interLeft, interTop, interRight, interBottom,
    minX, maxX, minY, maxY.
  cbn [Rect.left Rect.top Rect.width Rect.height]. lia.
Qed.

(** The two differences overflow only when both rectangles have the width,
    or the height, [INT_MIN]. *)
Lemma no_overflow_intro (r1 r2 : Rect.t Z) :
  in_range r1 = true -> in_range r2 = true ->
  INT_MIN < Rect.width r1 \/ INT_MIN < Rect.width r2 ->
  INT_MIN < Rect.height r1 \/ INT_MIN < Rect.height r2 ->
  no_overflow r1 r2 = true.
Proof.
  intros H1 H2 Hw Hh. apply no_overflow_bounds. split; [exact H1 |]. split; [exact H2 |].
  apply in_range_bounds in H1, H2. unfold INT_MIN in *.
  change (- 2 ^ 31) with (-2147483648) in *.
  unfold overlap, interLeft, interTop, interRight, interBottom, minX, maxX, minY, maxY.
  cbn [Rect.left Rect.top Rect.width Rect.height]. lia.
Qed.

Lemma contains_int_iff (r : Rect.t Z) (p : Vector2.t Z) :
  Rect.contains r p = true
  <-> minX r <= Vector2.x p < maxX r /\ minY r <= Vector2.y p < maxY r.
Proof.
  unfold Rect.contains, minX, maxX, minY, maxY. cbv zeta.
  rewrite !Rect_min_int, !Rect_max_int. cbn [add leb ltb Scalar_int].
  rewrite !andb_true_iff, !Z.leb_le, !Z.ltb_lt. tauto.
Qed.

Lemma contains_int_far_sides (r : Rect.t Z) (p : Vector2.t Z) :
  (Vector2.x p = maxX r -> Rect.contains r p = false)
  /\ (Vector2.y p = maxY r -> Rect.contains r p = false).
Proof.
  split; intros E; apply not_true_is_false; rewrite contains_int_iff; lia.
Qed.

(** C10.  For every [IntRect] (negative sizes included) whose far sides
    [left + width] and [top + height] do not overflow, and every point,
    [contains] holds exactly when the point lies in the half-open intervals
    between the normalized sides, and a point on the normalized right side or
    on the normalized bottom side is not contained.  For every [FloatRect]
    and every point, in binary32, [contains] is the same test on each axis,
    between [left] and the rounded [left + width] (between [top] and the
    rounded [top + height]) in either order, the larger end excluded. *)
Theorem contains_half_open :
  (forall (r : Rect.t Z) (p : Vector2.t Z),
      in_range r = true ->
      (Rect.contains r p = true
       <-> minX r <= Vector2.x p < maxX r /\ minY r <= Vector2.y p < maxY r)
      /\ (Vector2.x p = maxX r -> Rect.contains r p = false)
      /\ (Vector2.y p = maxY r -> Rect.contains r p = false))
  /\ (forall (r : Rect.t binary32) (p : Vector2.t binary32),
        Rect.contains r p
        = Rect.between (Rect.left r) (add (Rect.left r) (Rect.width r)) (Vector2.x p)
          && Rect.between (Rect.top r) (add (Rect.top r) (Rect.height r)) (Vector2.y p)
        /\ (Vector2.x p = Rect.max (Rect.left r) (add (Rect.left r) (Rect.width r)) ->
            Rect.contains r p = false)
        /\ (Vector2.y p = Rect.max (Rect.top r) (add (Rect.top r) (Rect.height r)) ->
            Rect.contains r p = false)).
Proof.
  split; intros r p.
  - intros _. split; [apply contains_int_iff | apply contains_int_far_sides].
  - split; [apply contains_between | apply contains_far_sides].
Qed.

(** A flipped [IntRect], from 5 to 10: its left end 5 is contained, its right
    end 10 is not.  (The far side of [IntRect({INT_MAX, 0}, {1, 1})]
    overflows: the hypothesis leaves that rectangle out.) *)
Lemma contains_half_open_witness :
  in_range (Rect.mk 10 10 (-5) 3) = true
  /\ Rect.contains (Rect.mk 10 10 (-5) 3) (Vector2.mk 5 10) = true
  /\ Rect.contains (Rect.mk 10 10 (-5) 3) (Vector2.mk 10 10) = false
  /\ in_range (Rect.mk INT_MAX 0 1 1) = false.
Proof.
  split; [reflexivity |].
  destruct (proj1 contains_half_open (Rect.mk 10 10 (-5) 3) (Vector2.mk 5 10) eq_refl)
    as (Hin & _).
  destruct (proj1 contains_half_open (Rect.mk 10 10 (-5) 3) (Vector2.mk 10 10) eq_refl)
    as (_ & Hfar & _).
  split; [apply Hin; cbn; lia |]. split; [apply Hfar; reflexivity | reflexivity].
Defined.

Lemma Z_lt_0_sub_ltb (a b : Z) : (0 <? b - a) = (a <? b).
Proof. destruct (Z.ltb_spec a b), (Z.ltb_spec 0 (b - a)); lia || reflexivity. Qed.

Lemma findIntersection_int (r1 r2 : Rect.t Z) :
  Rect.findIntersection r1 r2
  = if (0 <? Rect.width (overlap r1 r2)) && (0 <? Rect.height (overlap r1 r2))
    then Some (overlap r1 r2) else None.
Proof.
  unfold Rect.findIntersection, overlap, interLeft, interTop, interRight, interBottom,
    minX, maxX, minY, maxY, Rect.make. cbv zeta.
  rewrite !Rect_min_int, !Rect_max_int.
  cbn [add sub ltb Scalar_int Rect.width Rect.height Vector2.x Vector2.y].
  rewrite !Z_lt_0_sub_ltb. reflexivity.
Qed.

(** [findIntersection] on two [IntRect]s, short of overflow. *)
Lemma findIntersection_int_spec (r1 r2 : Rect.t Z) :
  no_overflow r1 r2 = true ->
  let w := Rect.width (overlap r1 r2) in
  let h := Rect.height (overlap r1 r2) in
  (0 < w /\ 0 < h -> Rect.findIntersection r1 r2 = Some (overlap r1 r2))
  /\ (~ (0 < w /\ 0 < h) -> Rect.findIntersection r1 r2 = None)
  /\ (w * h <= 0 -> Rect.findIntersection r1 r2 = None)
  /\ (forall r, Rect.findIntersection r1 r2 = Some r ->
                r = overlap r1 r2 /\ 0 < Rect.width r /\ 0 < Rect.height r
                /\ in_range r = true).
Proof.
  intros Hd w h.
  assert (E : Rect.findIntersection r1 r2
              = if (0 <? w) && (0 <? h) then Some (overlap r1 r2) else None)
    by apply findIntersection_int.
  split; [| split; [| split]].
  - intros (Hw & Hh). rewrite E.
    apply Z.ltb_lt in Hw, Hh. now rewrite Hw, Hh.
  - intros Hn. rewrite E.
    destruct (Z.ltb_spec 0 w), (Z.ltb_spec 0 h); cbn [andb]; tauto.
  - intros Ha. rewrite E.
    destruct (Z.ltb_spec 0 w), (Z.ltb_spec 0 h); cbn [andb]; try reflexivity. nia.
  - intros r. rewrite E.
    destruct (Z.ltb_spec 0 w) as [Hw |], (Z.ltb_spec 0 h) as [Hh |]; cbn [andb];
      try discriminate.
    intros [= <-]. fold w h. repeat split; auto.
    now apply overlap_in_range.
Qed.

(** In exact arithmetic a difference is positive exactly when its terms are
    in order, and a product of positive numbers is positive. *)
Lemma Qc_ltb_0_sub (a b : Qc) : Qc_ltb 0 (b - a) = Qc_ltb a b.
Proof.
  apply eq_true_iff_eq. rewrite !Qc_ltb_lt.
  unfold Qclt, Qcminus, Qcplus, Qcopp, Q2Qc. cbn [this].
  repeat setoid_rewrite Qred_correct. split; intros; lra.
Qed.

Lemma Qc_mult_pos (w h : Qc) : (0 < w -> 0 < h -> ~ w * h <= 0)%Qc.
Proof.
  unfold Qclt, Qcle, Qcmult, Q2Qc. cbn [this].
  repeat setoid_rewrite Qred_correct. intros Hw Hh. nra.
Qed.

Lemma findIntersection_exact (r1 r2 : Rect.t Qc) :
  Rect.findIntersection r1 r2
  = if Qc_ltb 0 (Rect.width (Rect.overlap r1 r2))
       && Qc_ltb 0 (Rect.height (Rect.overlap r1 r2))
    then Some (Rect.overlap r1 r2) else None.
Proof.
  rewrite findIntersection_overlap.
  assert (Ew : Qc_ltb 0 (Rect.width (Rect.overlap r1 r2))
               = Qc_ltb (Rect.interLeft r1 r2) (Rect.interRight r1 r2))
    by exact (Qc_ltb_0_sub _ _).
  assert (Eh : Qc_ltb 0 (Rect.height (Rect.overlap r1 r2))
               = Qc_ltb (Rect.interTop r1 r2) (Rect.interBottom r1 r2))
    by exact (Qc_ltb_0_sub _ _).
  rewrite Ew, Eh. reflexivity.
Qed.

Lemma findIntersection_exact_spec (r1 r2 : Rect.t Qc) :
  let w := Rect.width (Rect.overlap r1 r2) in
  let h := Rect.height (Rect.overlap r1 r2) in
  ((0 < w /\ 0 < h)%Qc -> Rect.findIntersection r1 r2 = Some (Rect.overlap r1 r2))
  /\ (~ (0 < w /\ 0 < h)%Qc -> Rect.findIntersection r1 r2 = None)
  /\ ((w * h <= 0)%Qc -> Rect.findIntersection r1 r2 = None).
Proof.
  intros w h. rewrite findIntersection_exact. fold w h.
  destruct (Qc_ltb 0 w) eqn:Ew; destruct (Qc_ltb 0 h) eqn:Eh; cbn [andb];
    try (apply Qc_ltb_lt in Ew); try (apply Qc_ltb_lt in Eh).
  - repeat split; auto; intros N; [tauto | now apply Qc_mult_pos in N].
  - assert (~ (0 < h)%Qc) by (rewrite <- Qc_ltb_lt; congruence).
    repeat split; auto. tauto.
  - assert (~ (0 < w)%Qc) by (rewrite <- Qc_ltb_lt; congruence).
    repeat split; auto. tauto.
  - assert (~ (0 < w)%Qc) by (rewrite <- Qc_ltb_lt; congruence).
    repeat split; auto. tauto.
Qed.

(** C7.  [findIntersection] normalizes the sides of each rectangle and
    returns the normalized overlap exactly when its width and its height are
    strictly positive, and no value otherwise: for every two [IntRect]s
    (negative sizes included) on which it does not overflow, where the result
    is an [IntRect] again and where no overflow occurs unless a far side
    overflows or both widths, or both heights, are [INT_MIN]; for every two
    [FloatRect]s, bit for bit in binary32, the far sides [left + width] and
    [top + height] and the sizes of the overlap being rounded, so that two
    rectangles that contain a common point always intersect; and for every
    two rectangles in exact arithmetic.  On [int] and in exact arithmetic
    there is no value whenever the area of the overlap is zero or negative.
    [Rect((0,0),(10,10)).findIntersection(Rect((5,5),(10,10)))] is
    [Rect((5,5),(5,5))], on [int] and in binary32. *)
Theorem findIntersection_spec :
  (forall r1 r2 : Rect.t Z,
      no_overflow r1 r2 = true ->
      let w := Rect.width (overlap r1 r2) in
      let h := Rect.height (overlap r1 r2) in
      (0 < w /\ 0 < h -> Rect.findIntersection r1 r2 = Some (overlap r1 r2))
      /\ (~ (0 < w /\ 0 < h) -> Rect.findIntersection r1 r2 = None)
      /\ (w * h <= 0 -> Rect.findIntersection r1 r2 = None)
      /\ (forall r, Rect.findIntersection r1 r2 = Some r ->
                    r = overlap r1 r2 /\ 0 < Rect.width r /\ 0 < Rect.height r
                    /\ in_range r = true))
  /\ (forall r1 r2 : Rect.t Z,
        in_range r1 = true -> in_range r2 = true ->
        INT_MIN < Rect.width r1 \/ INT_MIN < Rect.width r2 ->
        INT_MIN < Rect.height r1 \/ INT_MIN < Rect.height r2 ->
        no_overflow r1 r2 = true)
  /\ (forall r1 r2 : Rect.t binary32,
        FloatRect.valid r1 = true -> FloatRect.valid r2 = true ->
        Rect.findIntersection r1 r2
        = if ltb (of_int 0) (Rect.width (Rect.overlap r1 r2))
             && ltb (of_int 0) (Rect.height (Rect.overlap r1 r2))
          then Some (Rect.overlap r1 r2) else None)
  /\ (forall (r1 r2 : Rect.t binary32) (p : Vector2.t binary32),
        Rect.contains r1 p = true -> Rect.contains r2 p = true ->
        Rect.findIntersection r1 r2 = Some (Rect.overlap r1 r2))
  /\ (forall r1 r2 : Rect.t Qc,
        let w := Rect.width (Rect.overlap r1 r2) in
        let h := Rect.height (Rect.overlap r1 r2) in
        ((0 < w /\ 0 < h)%Qc -> Rect.findIntersection r1 r2 = Some (Rect.overlap r1 r2))
        /\ (~ (0 < w /\ 0 < h)%Qc -> Rect.findIntersection r1 r2 = None)
        /\ ((w * h <= 0)%Qc -> Rect.findIntersection r1 r2 = None))
  /\ Rect.findIntersection (Rect.mk 0 0 10 10) (Rect.mk 5 5 10 10) = Some (Rect.mk 5 5 5 5)
  /\ Rect.findIntersection
       (Rect.mk (of_int 0) (of_int 0) (of_int 10) (of_int 10) : Rect.t binary32)
       (Rect.mk (of_int 5) (of_int 5) (of_int 10) (of_int 10))
     = Some (Rect.mk (of_int 5) (of_int 5) (of_int 5) (of_int 5)).
Proof.
  split; [exact findIntersection_int_spec |].
  split; [exact no_overflow_intro |].
  split; [exact findIntersection_binary32 |].
  split; [intros r1 r2 p; apply findIntersection_common_point |].
  split; [exact findIntersection_exact_spec |].
  split; [reflexivity | vm_compute; reflexivity].
Qed.

(** Two overlapping [IntRect]s, one of them flipped, and two that only
    touch. *)
Lemma findIntersection_spec_witness :
  no_overflow (Rect.mk 10 0 (-10) 10) (Rect.mk 5 5 10 10) = true
  /\ Rect.findIntersection (Rect.mk 10 0 (-10) 10) (Rect.mk 5 5 10 10)
     = Some (Rect.mk 5 5 5 5)
  /\ Rect.findIntersection (Rect.mk 0 0 5 5) (Rect.mk 5 0 5 5) = None
  /\ FloatRect.valid (Rect.mk (b32 1 (-1)) (of_int 0) (of_int 2) (of_int 2)) = true
  /\ Rect.findIntersection
       (Rect.mk (b32 1 (-1)) (of_int 0) (of_int 2) (of_int 2) : Rect.t binary32)
       (Rect.mk (of_int 1) (of_int 1) (of_int (-3)) (of_int 3))
     = Some (Rect.mk (b32 1 (-1)) (of_int 1) (b32 1 (-1)) (of_int 1)).
Proof.
  assert (V1 : FloatRect.valid (Rect.mk (b32 1 (-1)) (of_int 0) (of_int 2) (of_int 2)) = true)
    by (vm_compute; reflexivity).
  assert (V2 : FloatRect.valid (Rect.mk (of_int 1) (of_int 1) (of_int (-3)) (of_int 3)) = true)
    by (vm_compute; reflexivity).
  split; [reflexivity |]. split; [| split; [| split; [exact V1 |]]].
  - apply (proj1 (proj1 findIntersection_spec
                    (Rect.mk 10 0 (-10) 10) (Rect.mk 5 5 10 10) eq_refl)).
    cbn. lia.
  - apply (proj1 (proj2 (proj2 (proj1 findIntersection_spec
                                  (Rect.mk 0 0 5 5) (Rect.mk 5 0 5 5) eq_refl)))).
    cbn. lia.
  - rewrite (proj1 (proj2 (proj2 findIntersection_spec)) _ _ V1 V2).
    vm_compute. reflexivity.
Defined.

(** What the rounding of the sides does.  In binary32 2^24 + 1 rounds to
    2^24: the [FloatRect] at (2^24, 0) of width 1 and height 1 has its two
    vertical sides on the same number, the overlap with itself has the width
    0, and [findIntersection] returns no value; in exact arithmetic the
    rectangle is its own intersection. *)
Example findIntersection_binary32_rounded_sides :
  let r : Rect.t binary32 := Rect.mk (b32 1 24) (of_int 0) (of_int 1) (of_int 1) in
  let q : Rect.t Qc := Rect.mk (Qc_of_Z 16777216) (Qc_of_Z 0) (Qc_of_Z 1) (Qc_of_Z 1) in
  FloatRect.valid r = true
  /\ add (Rect.left r) (Rect.width r) = Rect.left r
  /\ Rect.width (Rect.overlap r r) = of_int 0
  /\ Rect.findIntersection r r = None
  /\ Rect.findIntersection q q = Some q.
Proof.
  cbv zeta. split; [vm_compute; reflexivity |].
  split; [vm_compute; reflexivity |].
  split; [vm_compute; reflexivity |].
  split; [vm_compute; reflexivity |].
  rewrite findIntersection_exact.
  assert (E : Rect.overlap (Rect.mk (Qc_of_Z 16777216) (Qc_of_Z 0) (Qc_of_Z 1) (Qc_of_Z 1))
                (Rect.mk (Qc_of_Z 16777216) (Qc_of_Z 0) (Qc_of_Z 1) (Qc_of_Z 1))
              = Rect.mk (Qc_of_Z 16777216) (Qc_of_Z 0) (Qc_of_Z 1) (Qc_of_Z 1)).
  { unfold Rect.overlap. f_equal; apply Qc_is_canon; reflexivity. }
  rewrite E. reflexivity.
Qed.

(** The rectangle [findIntersection] returns holds the points of both. *)
Lemma findIntersection_int_contains (r1 r2 : Rect.t Z) (p : Vector2.t Z) :
  Rect.contains r1 p && Rect.contains r2 p
  = match Rect.findIntersection r1 r2 with
    | Some r => Rect.contains r p
    | None => false
    end.
Proof.
  rewrite findIntersection_int. apply eq_true_iff_eq.
  destruct (Z.ltb_spec 0 (Rect.width (overlap r1 r2))),
    (Z.ltb_spec 0 (Rect.height (overlap r1 r2))); cbn [andb];
    rewrite andb_true_iff, !contains_int_iff;
    unfold overlap, interLeft, interTop, interRight, interBottom, minX, maxX, minY, maxY in *;
    cbn [Rect.left Rect.top Rect.width Rect.height] in *; split; intros; try lia; try discriminate.
Qed.

Lemma findIntersection_in_range (r1 r2 : Rect.t Z) :
  no_overflow r1 r2 = true ->
  match Rect.findIntersection r1 r2 with
  | Some r => in_range r = true
  | None => True
  end.
Proof.
  intros Hd. rewrite findIntersection_int.
  destruct (Z.ltb_spec 0 (Rect.width (overlap r1 r2))) as [Hw |],
    (Z.ltb_spec 0 (Rect.height (overlap r1 r2))) as [Hh |]; cbn [andb]; auto.
  now apply overlap_in_range.
Qed.

(** X3.  The rectangle [findIntersection] returns is the intersection: on
    two [IntRect]s on which it does not overflow, it contains the points
    both rectangles contain, and there is no such point when it returns no
    value; [contains] on the result does not overflow either. *)
Theorem findIntersection_contains (r1 r2 : Rect.t Z) (p : Vector2.t Z) :
  no_overflow r1 r2 = true ->
  Rect.contains r1 p && Rect.contains r2 p
  = match Rect.findIntersection r1 r2 with
    | Some r => Rect.contains r p
    | None => false
    end
  /\ match Rect.findIntersection r1 r2 with
     | Some r => in_range r = true
     | None => True
     end.
Proof.
  intros Hd. split; [apply findIntersection_int_contains | now apply findIntersection_in_range].
Qed.

Lemma findIntersection_contains_witness :
  no_overflow (Rect.mk 10 0 (-10) 10) (Rect.mk 5 5 10 10) = true
  /\ Rect.contains (Rect.mk 10 0 (-10) 10) (Vector2.mk 7 7)
     && Rect.contains (Rect.mk 5 5 10 10) (Vector2.mk 7 7)
     = match Rect.findIntersection (Rect.mk 10 0 (-10) 10) (Rect.mk 5 5 10 10) with
       | Some r => Rect.contains r (Vector2.mk 7 7)
       | None => false
       end.
Proof.
  split; [reflexivity |].
  exact (proj1 (findIntersection_contains (Rect.mk 10 0 (-10) 10) (Rect.mk 5 5 10 10)
                  (Vector2.mk 7 7) eq_refl)).
Defined.

End IntRectangles.

(** ** The program *)

Section Program.
Local Open Scope Z_scope.
Local Open Scope string_scope.

(** The render loop does nothing on a closed window, whatever events wait. *)
Lemma renderLoop_closed (turns : list (list Game.EventType)) (s : Game.State) :
  Game.isOpen s = false -> Game.renderLoop turns s = Some s.
Proof.
  intros E. destruct turns; cbn [Game.renderLoop]; now rewrite E.
Qed.

(** C9.  When [ball.png] does not load, [main] closes the window before the
    render loop; whatever events would have come, it returns 0 after five
    calls, none of which is [clear], [draw] or [display], and none of which
    reports the failure. *)
Theorem main_texture_load_fails (w : Game.World) :
  Game.ballLoads w = false ->
  Game.main w
  = Some (0, [Game.RenderWindow_create 256 240 "game";
              Game.Texture_loadFromFile "ball.png" false;
              Game.Window_close;
              Game.Sprite_setTexture;
              Game.Sprite_setPosition 0 0])
  /\ (forall code calls, Game.main w = Some (code, calls) ->
        code = 0 /\ filter Game.isFrameCall calls = []).
Proof.
  intros E. unfold Game.main. rewrite E. cbn [negb].
  rewrite renderLoop_closed by reflexivity.
  split; [reflexivity |].
  intros code calls [= <- <-]. split; reflexivity.
Qed.

Lemma main_texture_load_fails_witness :
  let w := Game.mkWorld false [[Game.KeyPressed]; [Game.Closed]] in
  Game.ballLoads w = false
  /\ Game.main w
     = Some (0, [Game.RenderWindow_create 256 240 "game";
                 Game.Texture_loadFromFile "ball.png" false;
                 Game.Window_close;
                 Game.Sprite_setTexture;
                 Game.Sprite_setPosition 0 0]).
Proof.
  intros w. split; [reflexivity |].
  exact (proj1 (main_texture_load_fails w eq_refl)).
Defined.

(** When the texture loads, the same events give two turns of the loop: the
    body runs, and the window closes on the [Closed] event of the second. *)
Example main_texture_loads :
  Game.main (Game.mkWorld true [[Game.KeyPressed]; [Game.Closed]])
  = Some (0, [Game.RenderWindow_create 256 240 "game";
              Game.Texture_loadFromFile "ball.png" true;
              Game.Sprite_setTexture;
              Game.Sprite_setPosition 0 0;
              Game.Window_pollEvent (Some Game.KeyPressed);
              Game.Window_pollEvent None;
              Game.Window_clear Color.Cyan; Game.Window_draw; Game.Window_display;
              Game.Window_pollEvent (Some Game.Closed);
              Game.Window_close;
              Game.Window_pollEvent None;
              Game.Window_clear Color.Cyan; Game.Window_draw; Game.Window_display]).
Proof. reflexivity. Qed.

End Program.

(** ** Angles in binary32 *)

Section AngleBinary32.
Local Open Scope scalar_scope.

(** The example of the header holds in binary32: 270 degrees wraps to
    -90. *)
Example wrapSigned_270 :
  Angle.wrapSigned (Angle.degrees (#270 : binary32)) = Some (Angle.degrees #(-90)).
Proof. vm_compute. reflexivity. Qed.

(** On the operands of the header's examples of [operator%],
    [positiveRemainder] returns, in binary32, the remainders the header
    gives: 30 for -90 and 40, 10 for 90 and 40. *)
Example positiveRemainder_examples :
  Angle.positiveRemainder (#(-90) : binary32) #40 = Some #30
  /\ Angle.positiveRemainder (#90 : binary32) #40 = Some #10.
Proof. split; vm_compute; reflexivity. Qed.

(** A right operand that is not greater than zero fails the assertion of
    [positiveRemainder], whatever the left operand. *)
Lemma positiveRemainder_precondition {T : Type} `{Scalar T} (a b : T) :
  (b >? #0) = false -> Angle.positiveRemainder a b = None.
Proof. intros E. unfold Angle.positiveRemainder. now rewrite E. Qed.

(** [positiveRemainder] step by step on the binary32 number just below
    -180 plus 180, which is -2^-16, and 360: the quotient truncates to 0,
    [val] is -2^-16, and [val + b] is 360 - 2^-16, halfway between the
    neighbours 360 - 2^-15 and 360 in binary32; it rounds to 360. *)
Example positiveRemainder_rounds_up_to_divisor :
  let a : binary32 := b32 (-11796481) (-16) + #180 in
  let b : binary32 := #360 in
  a = b32 (-1) (-16)
  /\ to_int (a / b) = Some 0%Z
  /\ a - of_int 0%Z * b = b32 (-1) (-16)
  /\ (a - of_int 0%Z * b >=? #0) = false
  /\ a - of_int 0%Z * b + b = #360
  /\ Angle.positiveRemainder a b = Some b.
Proof. repeat split; vm_compute; reflexivity. Qed.

(** C5 on the code.  [wrapSigned] of the binary32 angle just below -180
    degrees (-180.0000152587890625) is 180 degrees, which is not below 180;
    of 7972635136 degrees it is 332 degrees.  (The example of the claim,
    270 degrees to -90, holds: [wrapSigned_270].) *)
Theorem wrapSigned_binary32_leaves_range :
  Angle.wrapSigned (Angle.degrees (b32 (-11796481) (-16)))
  = Some (Angle.degrees (#180 : binary32))
  /\ ((#180 : binary32) <? #180) = false
  /\ Angle.wrapSigned (Angle.degrees (#7972635136 : binary32))
     = Some (Angle.degrees #332)
  /\ ((#332 : binary32) <? #180) = false.
Proof. repeat split; vm_compute; reflexivity. Qed.

(** [wrapUnsigned], as modelled, has the same defect: a tiny negative angle,
    -2^-40 degrees, wraps to 360 degrees. *)
Example wrapUnsigned_binary32_leaves_range :
  Angle.wrapUnsigned (Angle.degrees (b32 (-1) (-40)))
  = Some (Angle.degrees (#360 : binary32)).
Proof. vm_compute. reflexivity. Qed.

(** [positiveRemainder] step by step on -289.203125 and
    22.246395111083984375 (5831759 * 2^-18): the quotient, -12.9999995,
    truncates to -12; -12 * b, -266.95674133, rounds to -266.95672607;
    [val] is -22.24639893, below -b; [val + b] is -2^-18. *)
Example positiveRemainder_negative_steps :
  let a : binary32 := b32 (-18509) (-6) in
  let b : binary32 := b32 5831759 (-18) in
  (b >? #0) = true
  /\ a / b = b32 (-13631487) (-20)
  /\ to_int (a / b) = Some (-12)%Z
  /\ of_int (-12)%Z * b = b32 (-4373819) (-14)
  /\ a - of_int (-12)%Z * b = b32 (-364485) (-14)
  /\ (a - of_int (-12)%Z * b >=? #0) = false
  /\ a - of_int (-12)%Z * b + b = b32 (-1) (-18).
Proof. repeat split; vm_compute; reflexivity. Qed.

(** On these two numbers [positiveRemainder] returns -2^-18, a negative
    number, for a strictly positive divisor. *)
Example positiveRemainder_binary32_negative :
  let a : binary32 := b32 (-18509) (-6) in
  let b : binary32 := b32 5831759 (-18) in
  (b >? #0) = true
  /\ Angle.positiveRemainder a b = Some (b32 (-1) (-18))
  /\ (b32 (-1) (-18) <? #0) = true.
Proof. repeat split; vm_compute; reflexivity. Qed.

(** Past the range of [int] the cast of the quotient is undefined: 2^32
    degrees modulo 1 degree, and [wrapSigned] of 2^40 degrees, have no
    defined result. *)
Example positiveRemainder_binary32_cast_undefined :
  Angle.positiveRemainder (b32 1 32) (#1 : binary32) = None
  /\ Angle.wrapSigned (Angle.degrees (b32 1 40)) = None.
Proof. split; vm_compute; reflexivity. Qed.

End AngleBinary32.

(** ** The render-state cache *)

Section StateCache.
Import RenderTarget.









End StateCache.

(** ** Angles in exact arithmetic *)

Section AngleExact.
Local Open Scope Qc_scope.

Lemma Qc_of_Z_pred (k : Z) : Qc_of_Z (k - 1) = Qc_of_Z k - 1.
Proof.
  apply Qc_is_canon. unfold Qc_of_Z, Qcminus, Qcplus, Qcopp, Q2Qc. cbn [this].
  repeat setoid_rewrite Qred_correct.
  unfold Qeq, Qplus, Qopp, inject_Z. cbn. lia.
Qed.

(** The cast to [int] moves a rational by less than one. *)
Lemma Qc_trunc_near (q : Qc) :
  Qc_of_Z (Qc_trunc q) - 1 < q /\ q < Qc_of_Z (Qc_trunc q) + 1.
Proof.
  unfold Qc_trunc. destruct q as [[n d] Hc]. cbn [this Qnum Qden].
  unfold Qclt, Qc_of_Z, Qcplus, Qcminus, Qcopp, Q2Qc. cbn [this]. clear Hc.
  repeat setoid_rewrite Qred_correct.
  pose proof (Z.quot_rem' n (Zpos d)) as E.
  assert (Hr : (- Zpos d < Z.rem n (Zpos d) < Zpos d)%Z).
  { destruct (Z.le_gt_cases 0 n).
    - pose proof (Z.rem_bound_pos n (Zpos d)). lia.
    - pose proof (Z.rem_bound_pos_neg n (Zpos d)). lia. }
  unfold Qlt, Qplus, Qopp, Qminus, inject_Z. cbn.
  set (k := (n ÷ Z.pos d)%Z) in *. lia.
Qed.

(** The two results of [positiveRemainder] lie in [0, b). *)
Lemma remainder_bounds (a b : Qc) (k : Z) :
  0 < b -> Qc_of_Z k - 1 < a / b -> a / b < Qc_of_Z k + 1 ->
  let val := a - Qc_of_Z k * b in
  (0 <= val -> val < b) /\ (~ 0 <= val -> 0 <= val + b /\ val + b < b).
Proof.
  intros Hb Hlo Hhi val.
  assert (Hbne : b <> 0) by (intros E; symmetry in E; revert E; apply Qclt_not_eq; exact Hb).
  assert (Ea : a = (a / b) * b) by (field; exact Hbne).
  set (q := a / b) in *. clearbody q. subst a.
  assert (Ev : val = (q - Qc_of_Z k) * b) by (unfold val; ring).
  rewrite Ev. clear Ev val Hbne.
  set (kk := Qc_of_Z k) in *. clearbody kk.
  unfold Qclt, Qcle, Qcplus, Qcminus, Qcmult, Qcopp, Q2Qc in *. cbn [this] in *.
  repeat setoid_rewrite Qred_correct.
  repeat setoid_rewrite Qred_correct in Hlo.
  repeat setoid_rewrite Qred_correct in Hhi.
  repeat setoid_rewrite Qred_correct in Hb.
  split; [intros H0 | intros H0; split]; nra.
Qed.

(** The remainder in exact arithmetic, with the multiple taken off. *)
Lemma positiveRemainder_exact_cases (a b : Qc) :
  0 < b -> in_int (Qc_trunc (a / b)) = true ->
  exists (r : Qc) (k : Z),
    Angle.positiveRemainder a b = Some r /\ 0 <= r /\ r < b /\ r = a - Qc_of_Z k * b.
Proof.
  intros Hb Hk. unfold Angle.positiveRemainder.
  cbv [add sub mul div ltb leb of_int to_int Scalar_exact]. rewrite Qc_of_Z_0.
  rewrite (proj2 (Qc_ltb_lt 0 b) Hb). unfold checked_int. rewrite Hk.
  set (k := Qc_trunc (a / b)).
  destruct (Qc_trunc_near (a / b)) as [Hlo Hhi]. fold k in Hlo, Hhi.
  destruct (remainder_bounds a b k Hb Hlo Hhi) as [Hpos Hneg].
  destruct (Qc_leb 0 (a - Qc_of_Z k * b)) eqn:E.
  - apply Qc_leb_le in E. exists (a - Qc_of_Z k * b), k. auto.
  - assert (N : ~ 0 <= a - Qc_of_Z k * b)
      by (rewrite <- Qc_leb_le; congruence).
    destruct (Hneg N) as [H0 H1].
    exists (a - Qc_of_Z k * b + b), (k - 1)%Z.
    repeat split; auto. rewrite Qc_of_Z_pred. ring.
Qed.

(** X1.  In exact arithmetic [positiveRemainder] is the Euclidean remainder:
    for a divisor [b > 0] and a quotient whose integer part is an [int], it
    returns the [r] in [0, b) that differs from [a] by a multiple of [b]. *)
Theorem positiveRemainder_exact (a b : Qc) :
  0 < b -> in_int (Qc_trunc (a / b)) = true ->
  exists (r : Qc) (k : Z),
    Angle.positiveRemainder a b = Some r /\ 0 <= r /\ r < b /\ r = a - Qc_of_Z k * b.
Proof. exact (positiveRemainder_exact_cases a b). Qed.

(** X2.  In exact arithmetic [wrapSigned] keeps its promise: for an angle
    whose quotient by 360 has an [int] for integer part, the result lies in
    [-180, 180) and differs from the angle by a multiple of 360 degrees. *)
Theorem wrapSigned_exact_range (a : Qc) :
  in_int (Qc_trunc ((a + Qc_of_Z 180) / Qc_of_Z 360)) = true ->
  exists (w : Qc) (k : Z),
    Angle.wrapSigned (Angle.degrees a) = Some (Angle.degrees w)
    /\ Qc_of_Z (-180) <= w /\ w < Qc_of_Z 180 /\ w = a - Qc_of_Z k * Qc_of_Z 360.
Proof.
  intros Hk.
  assert (H360 : 0 < Qc_of_Z 360) by reflexivity.
  destruct (positiveRemainder_exact_cases (a + Qc_of_Z 180) (Qc_of_Z 360) H360 Hk)
    as (r & k & E & H0 & H1 & Er).
  unfold Angle.wrapSigned, Angle.degrees. cbn [Angle.m_degrees].
  change (add a (of_int 180%Z)) with (a + Qc_of_Z 180).
  change (of_int 360%Z) with (Qc_of_Z 360).
  rewrite E. cbn [option_map]. change (sub r (of_int 180%Z)) with (r - Qc_of_Z 180).
  exists (r - Qc_of_Z 180), k. split; [reflexivity |].
  assert (Ew : r - Qc_of_Z 180 = a - Qc_of_Z k * Qc_of_Z 360) by (rewrite Er; ring).
  split; [| split; [| exact Ew]].
  - clear - H0. unfold Qcle, Qcminus, Qcplus, Qcopp, Qc_of_Z, Q2Qc in *. cbn [this] in *.
    repeat setoid_rewrite Qred_correct. repeat setoid_rewrite Qred_correct in H0.
    unfold inject_Z. lra.
  - clear - H1. unfold Qclt, Qcminus, Qcplus, Qcopp, Qc_of_Z, Q2Qc in *. cbn [this] in *.
    repeat setoid_rewrite Qred_correct. repeat setoid_rewrite Qred_correct in H1.
    unfold inject_Z in *. lra.
Qed.

Lemma positiveRemainder_exact_witness :
  0 < Qc_of_Z 40
  /\ in_int (Qc_trunc (Qc_of_Z (-90) / Qc_of_Z 40)) = true
  /\ exists (r : Qc) (k : Z),
       Angle.positiveRemainder (Qc_of_Z (-90)) (Qc_of_Z 40) = Some r
       /\ 0 <= r /\ r < Qc_of_Z 40 /\ r = Qc_of_Z (-90) - Qc_of_Z k * Qc_of_Z 40.
Proof.
  assert (Hb : 0 < Qc_of_Z 40) by reflexivity.
  assert (Hk : in_int (Qc_trunc (Qc_of_Z (-90) / Qc_of_Z 40)) = true) by reflexivity.
  split; [exact Hb |]. split; [exact Hk |].
  exact (positiveRemainder_exact (Qc_of_Z (-90)) (Qc_of_Z 40) Hb Hk).
Defined.

Lemma wrapSigned_exact_range_witness :
  in_int (Qc_trunc ((Qc_of_Z 270 + Qc_of_Z 180) / Qc_of_Z 360)) = true
  /\ exists (w : Qc) (k : Z),
       Angle.wrapSigned (Angle.degrees (Qc_of_Z 270)) = Some (Angle.degrees w)
       /\ Qc_of_Z (-180) <= w /\ w < Qc_of_Z 180
       /\ w = Qc_of_Z 270 - Qc_of_Z k * Qc_of_Z 360.
Proof.
  assert (Hk : in_int (Qc_trunc ((Qc_of_Z 270 + Qc_of_Z 180) / Qc_of_Z 360)) = true)
    by reflexivity.
  split; [exact Hk |]. exact (wrapSigned_exact_range (Qc_of_Z 270) Hk).
Defined.

End AngleExact.

(** ** The modulo of angles, as the spec defines it *)

Section AngleModulo.
Local Open Scope Qc_scope.









End AngleModulo.

(** ** The binary32 constants

    Every constant written with [b32] in the examples above is a number of
    binary32 (24 bits of mantissa, exponent in range). *)

Example binary32_constants_valid :
  forallb (valid_binary prec32 emax32)
    [b32 (-11796481) (-16); b32_of_Z 7972635136; b32 (-1) (-40); b32 (-1) (-16);
     b32 (-18509) (-6); b32 5831759 (-18); b32 (-1) (-18); b32 (-13631487) (-20);
     b32 (-4373819) (-14); b32 (-364485) (-14); b32 1 32; b32 1 40;
     b32 13421773 (-27); b32 11324620 (-22); b32 11324621 (-22);
     b32 13212057 (-21); b32 13212058 (-21);
     b32 1 100; b32 1 (-80); b32 1 (-60); b32 1 60; b32 1 (-120); b32 1 24; b32 1 (-1)] = true.
Proof. vm_compute. reflexivity. Qed.

(** ** Vectors on the integers and in exact arithmetic *)

Section Vectors.

(** The operators of [Scalar_int] and [Scalar_exact], unfolded to those of
    [Z] and [Qc]. *)
Ltac vector_arith :=
  cbv [Vector2.dot Vector2.lengthSq Vector2.perpendicular Vector2.cross Vector2.opp
       Vector2.x Vector2.y
       Vector3.dot Vector3.lengthSq Vector3.cross Vector3.opp
       Vector3.x Vector3.y Vector3.z
       add sub mul neg of_int Scalar_int Scalar_exact] in *;
  rewrite ?Qc_of_Z_0, ?Qc_of_Z_1 in *.

(** X5.  [Vector2]: [perpendicular] gives a vector of the same squared
    length at a right angle, [cross] is the dot product with the
    perpendicular and changes sign when its operands are swapped, and the
    squares of [dot] and [cross] add up to the product of the squared lengths;
    on [int] (short of overflow) and in exact arithmetic.  On every number
    type, binary32 included, [perpendicular] applied twice is unary minus and
    [operator!=] is the negation of [operator==]. *)
Theorem Vector2_perpendicular_dot_cross :
  (forall v w : Vector2.t Z,
      Vector2.dot (Vector2.perpendicular v) v = 0
      /\ Vector2.lengthSq (Vector2.perpendicular v) = Vector2.lengthSq v
      /\ Vector2.cross v w = Vector2.dot (Vector2.perpendicular v) w
      /\ Vector2.cross v w = - Vector2.cross w v
      /\ Vector2.dot v w * Vector2.dot v w + Vector2.cross v w * Vector2.cross v w
         = Vector2.lengthSq v * Vector2.lengthSq w)
  /\ (forall v w : Vector2.t Qc,
      Vector2.dot (Vector2.perpendicular v) v = 0%Qc
      /\ Vector2.lengthSq (Vector2.perpendicular v) = Vector2.lengthSq v
      /\ Vector2.cross v w = Vector2.dot (Vector2.perpendicular v) w
      /\ Vector2.cross v w = (- Vector2.cross w v)%Qc
      /\ (Vector2.dot v w * Vector2.dot v w + Vector2.cross v w * Vector2.cross v w
          = Vector2.lengthSq v * Vector2.lengthSq w)%Qc)
  /\ (forall (T : Type) (S : Scalar T) (v w : Vector2.t T),
      Vector2.perpendicular (Vector2.perpendicular v) = Vector2.opp v
      /\ Vector2.neqb v w = negb (Vector2.eqb v w)).
Proof.
  split; [| split].
  - intros [vx vy] [wx wy]. vector_arith. repeat split; ring.
  - intros [vx vy] [wx wy]. vector_arith. repeat split; ring.
  - intros T S [vx vy] [wx wy]. split; [reflexivity |].
    unfold Vector2.neqb, Vector2.eqb. cbn [Vector2.x Vector2.y].
    now rewrite negb_andb.
Qed.

(** X6.  [Vector3]: the cross product is at a right angle to both operands,
    changes sign when they are swapped, and its squared length is the product
    of the squared lengths less the square of the dot product; on [int]
    (short of overflow) and in exact arithmetic.  On every number type,
    binary32 included, [operator!=] is the negation of [operator==]. *)
Theorem Vector3_cross_orthogonal :
  (forall v w : Vector3.t Z,
      Vector3.dot (Vector3.cross v w) v = 0
      /\ Vector3.dot (Vector3.cross v w) w = 0
      /\ Vector3.cross v w = Vector3.opp (Vector3.cross w v)
      /\ Vector3.lengthSq (Vector3.cross v w)
         = Vector3.lengthSq v * Vector3.lengthSq w - Vector3.dot v w * Vector3.dot v w)
  /\ (forall v w : Vector3.t Qc,
      Vector3.dot (Vector3.cross v w) v = 0%Qc
      /\ Vector3.dot (Vector3.cross v w) w = 0%Qc
      /\ Vector3.cross v w = Vector3.opp (Vector3.cross w v)
      /\ Vector3.lengthSq (Vector3.cross v w)
         = (Vector3.lengthSq v * Vector3.lengthSq w - Vector3.dot v w * Vector3.dot v w)%Qc)
  /\ (forall (T : Type) (S : Scalar T) (v w : Vector3.t T),
      Vector3.neqb v w = negb (Vector3.eqb v w)).
Proof.
  split; [| split].
  - intros [vx vy vz] [wx wy wz]. vector_arith. repeat split; try ring; f_equal; ring.
  - intros [vx vy vz] [wx wy wz]. vector_arith. repeat split; try ring; f_equal; ring.
  - intros T S [vx vy vz] [wx wy wz]. unfold Vector3.neqb, Vector3.eqb.
    cbn [Vector3.x Vector3.y Vector3.z]. now rewrite !negb_andb.
Qed.

End Vectors.

Section VectorDivision.

Lemma Qc_neqb_0 (x : Qc) : negb (eqb x (of_int 0)) = true <-> x <> 0%Qc.
Proof.
  cbv [eqb of_int Scalar_exact]. rewrite Qc_of_Z_0, negb_true_iff.
  split.
  - intros E F. apply Qc_eq_bool_true_iff in F. congruence.
  - intros E. apply not_true_is_false. intros F. apply E.
    now apply Qc_eq_bool_true_iff.
Qed.

(** X7.  [cwiseDiv] asserts that both components of the divisor are
    non-zero; when they are, it undoes [cwiseMul] by the same vector, and
    [operator/] undoes [operator*] by a non-zero number: in exact arithmetic,
    and on [int] too (short of overflow), where the products divide without
    remainder. *)
Theorem Vector2_division :
  (forall (v w : Vector2.t Z) (k : Z),
      (Vector2.cwiseDiv v w = None <-> Vector2.x w = 0 \/ Vector2.y w = 0)
      /\ (Vector2.x w <> 0 -> Vector2.y w <> 0 ->
          Vector2.cwiseDiv (Vector2.cwiseMul v w) w = Some v)
      /\ (k <> 0 -> Vector2.div (Vector2.mul v k) k = v
                    /\ Vector2.div (Vector2.mul_left k v) k = v))
  /\ (forall (v w : Vector2.t Qc) (k : Qc),
      (Vector2.cwiseDiv v w = None <-> Vector2.x w = 0%Qc \/ Vector2.y w = 0%Qc)
      /\ (Vector2.x w <> 0%Qc -> Vector2.y w <> 0%Qc ->
          Vector2.cwiseDiv (Vector2.cwiseMul v w) w = Some v)
      /\ (k <> 0%Qc -> Vector2.div (Vector2.mul v k) k = v
                       /\ Vector2.div (Vector2.mul_left k v) k = v)).
Proof.
  split.
  - intros [vx vy] [wx wy] k. unfold Vector2.cwiseDiv, Vector2.cwiseMul, Vector2.div,
      Vector2.mul, Vector2.mul_left.
    cbn [Vector2.x Vector2.y]. cbv [mul div eqb of_int Scalar_int]. repeat split.
    + destruct (Z.eqb_spec wx 0); destruct (Z.eqb_spec wy 0); cbn; intros E;
        try discriminate E; lia.
    + intros [-> | ->]; [reflexivity |]. now rewrite andb_false_r.
    + intros Hx Hy.
      destruct (Z.eqb_spec wx 0); destruct (Z.eqb_spec wy 0); try lia. cbn.
      now rewrite !Z.quot_mul.
    + now rewrite !Z.quot_mul.
    + now rewrite !Z.quot_mul.
  - intros [vx vy] [wx wy] k. unfold Vector2.cwiseDiv, Vector2.cwiseMul, Vector2.div,
      Vector2.mul, Vector2.mul_left.
    cbn [Vector2.x Vector2.y]. repeat split.
    + destruct (negb (eqb wx (of_int 0))) eqn:Ex; destruct (negb (eqb wy (of_int 0))) eqn:Ey;
        cbn; try discriminate; intros _.
      * right. destruct (Qc_eq_dec wy 0) as [E | E]; [exact E |].
        apply Qc_neqb_0 in E. congruence.
      * left. destruct (Qc_eq_dec wx 0) as [E | E]; [exact E |].
        apply Qc_neqb_0 in E. congruence.
      * left. destruct (Qc_eq_dec wx 0) as [E | E]; [exact E |].
        apply Qc_neqb_0 in E. congruence.
    + intros [E | E].
      * destruct (negb (eqb wx (of_int 0))) eqn:Ex; [| reflexivity].
        apply Qc_neqb_0 in Ex. contradiction.
      * destruct (negb (eqb wy (of_int 0))) eqn:Ey; [| now rewrite andb_false_r].
        apply Qc_neqb_0 in Ey. contradiction.
    + intros Hx Hy.
      rewrite (proj2 (Qc_neqb_0 wx) Hx), (proj2 (Qc_neqb_0 wy) Hy). cbn [andb].
      cbv [mul div Scalar_exact]. f_equal. f_equal; field; assumption.
    + cbv [mul div Scalar_exact]. f_equal; field; assumption.
    + cbv [mul div Scalar_exact]. f_equal; field; assumption.
Qed.

Lemma Vector2_division_witness :
  Vector2.cwiseDiv (Vector2.cwiseMul (Vector2.mk 6 (-7)) (Vector2.mk 3 (-2)))
                   (Vector2.mk 3 (-2))
  = Some (Vector2.mk 6 (-7)).
Proof.
  apply (proj1 (proj2 (proj1 Vector2_division (Vector2.mk 6 (-7)) (Vector2.mk 3 (-2)) 1)));
    cbn; lia.
Defined.

End VectorDivision.

(** ** Colors as integers, and the algebra of the color operators *)

Section ColorIntegers.
Local Open Scope Z_scope.

(** A bit field laid over lower bits with [|] is added to them. *)
Lemma lor_shiftl_add (hi lo k : Z) :
  0 <= k -> 0 <= lo < 2 ^ k -> Z.lor (Z.shiftl hi k) lo = hi * 2 ^ k + lo.
Proof.
  intros Hk Hlo.
  assert (E : Z.land (Z.shiftl hi k) lo = 0).
  { apply Z.bits_inj'. intros i Hi. rewrite Z.land_spec, Z.bits_0.
    destruct (Z.ltb_spec i k).
    - rewrite Z.shiftl_spec_low by lia. reflexivity.
    - rewrite <- (Z.mod_small lo (2 ^ k)) by lia.
      rewrite Z.mod_pow2_bits_high by lia. apply andb_false_r. }
  pose proof (Z.add_lor_land (Z.shiftl hi k) lo) as A.
  rewrite E in A. rewrite Z.shiftl_mul_pow2 in * by lia. lia.
Qed.

(** [(x & (0xff << k)) >> k], cast to a byte: the byte of [x] at bit [k]. *)
Lemma byte_at (x mask k : Z) :
  0 <= k -> Z.shiftr mask k = 255 ->
  Color.to_uint8 (Z.shiftr (Z.land x mask) k) = (x / 2 ^ k) mod 2 ^ 8.
Proof.
  intros Hk Hm. unfold Color.to_uint8.
  rewrite Z.shiftr_land, Hm. change 255 with (Z.ones 8).
  rewrite Z.land_ones, Z.shiftr_div_pow2 by lia.
  apply Z.mod_mod. lia.
Qed.

Lemma ofInteger_channels (color : Z) :
  Color.ofInteger color
  = Color.mk ((color / 2 ^ 24) mod 2 ^ 8) ((color / 2 ^ 16) mod 2 ^ 8)
             ((color / 2 ^ 8) mod 2 ^ 8) (color mod 2 ^ 8).
Proof.
  unfold Color.ofInteger.
  rewrite !byte_at by (reflexivity || lia).
  f_equal. unfold Color.to_uint8. change 255 with (Z.ones 8).
  rewrite Z.land_ones by lia. apply Z.mod_mod. lia.
Qed.

Lemma toInteger_sum (c : Color.t) :
  Color.wf c ->
  Color.toInteger c
  = Color.r c * 2 ^ 24 + Color.g c * 2 ^ 16 + Color.b c * 2 ^ 8 + Color.a c.
Proof.
  destruct c as [r g b a]. unfold Color.wf, Color.byte, Color.toInteger.
  cbn [Color.r Color.g Color.b Color.a]. intros (Hr & Hg & Hb & Ha).
  set (s := to_signed 32 (Z.shiftl r 24)).
  assert (Es : exists s', s = Z.shiftl s' 24 /\ (s' = r \/ s' = r - 256)).
  { unfold s, to_signed. rewrite Z.shiftl_mul_pow2 by lia.
    destruct (Z.ltb_spec r 128).
    - exists r. split; [| now left]. rewrite Z.shiftl_mul_pow2 by lia.
      rewrite Z.mod_small by lia. lia.
    - exists (r - 256). split; [| now right]. rewrite Z.shiftl_mul_pow2 by lia.
      replace (r * 2 ^ 24 + 2 ^ (32 - 1)) with (r * 2 ^ 24 - 2 ^ 31 + 1 * 2 ^ 32) by lia.
      rewrite Z.mod_add by lia. rewrite Z.mod_small by lia. lia. }
  destruct Es as (s' & -> & Hs').
  rewrite <- !Z.lor_assoc.
  rewrite (lor_shiftl_add b a 8) by lia.
  rewrite (lor_shiftl_add g (b * 2 ^ 8 + a) 16) by lia.
  rewrite (lor_shiftl_add s' (g * 2 ^ 16 + (b * 2 ^ 8 + a)) 24) by lia.
  unfold to_unsigned. destruct Hs' as [-> | ->].
  - rewrite Z.mod_small by lia. lia.
  - replace ((r - 256) * 2 ^ 24 + (g * 2 ^ 16 + (b * 2 ^ 8 + a)))
      with (r * 2 ^ 24 + g * 2 ^ 16 + b * 2 ^ 8 + a + (-1) * 2 ^ 32) by lia.
    rewrite Z.mod_add by lia. rewrite Z.mod_small by lia. lia.
Qed.

(** X8.  [Color(std::uint32_t)] and [toInteger] are inverse to each other:
    a color whose channels are bytes is read back from its integer, which is
    [r * 2^24 + g * 2^16 + b * 2^8 + a], and every 32-bit integer is read back
    from its color. *)
Theorem Color_integer_round_trip :
  (forall c : Color.t,
      Color.wf c ->
      Color.toInteger c
      = Color.r c * 2 ^ 24 + Color.g c * 2 ^ 16 + Color.b c * 2 ^ 8 + Color.a c
      /\ Color.ofInteger (Color.toInteger c) = c)
  /\ (forall color : Z,
      0 <= color < 2 ^ 32 ->
      Color.wf (Color.ofInteger color)
      /\ Color.toInteger (Color.ofInteger color) = color).
Proof.
  split.
  - intros c Hc. split; [now apply toInteger_sum |].
    rewrite ofInteger_channels, (toInteger_sum c Hc).
    destruct c as [r g b a]. unfold Color.wf, Color.byte in Hc.
    cbn [Color.r Color.g Color.b Color.a] in *. f_equal.
    all: change (2 ^ 24) with 16777216; change (2 ^ 16) with 65536;
      change (2 ^ 8) with 256; Z.div_mod_to_equations; lia.
  - intros color Hcolor.
    assert (W : Color.wf (Color.ofInteger color)).
    { rewrite ofInteger_channels. unfold Color.wf, Color.byte.
      cbn [Color.r Color.g Color.b Color.a].
      change (2 ^ 8) with 256. repeat split; Z.div_mod_to_equations; lia. }
    split; [exact W |]. rewrite (toInteger_sum _ W), ofInteger_channels.
    cbn [Color.r Color.g Color.b Color.a].
    change (2 ^ 32) with 4294967296 in Hcolor.
    change (2 ^ 24) with 16777216; change (2 ^ 16) with 65536;
      change (2 ^ 8) with 256. Z.div_mod_to_equations. lia.
Qed.

Lemma Color_integer_round_trip_witness :
  Color.toInteger Color.Cyan = 0x00ffffff
  /\ Color.ofInteger (Color.toInteger Color.Cyan) = Color.Cyan
  /\ Color.toInteger (Color.ofInteger 0xff8000c0) = 0xff8000c0.
Proof.
  assert (W : Color.wf Color.Cyan) by (unfold Color.wf, Color.byte; cbn; lia).
  destruct (proj1 Color_integer_round_trip Color.Cyan W) as (E1 & E2).
  split; [exact E1 |]. split; [exact E2 |].
  apply (proj2 Color_integer_round_trip 0xff8000c0). lia.
Defined.

End ColorIntegers.

Section ColorAlgebra.
Local Open Scope Z_scope.

Lemma clampedAdd_byte (x y : Z) :
  Color.byte x -> Color.byte y -> Color.byte (Color.clampedAdd x y).
Proof. intros Hx Hy. rewrite clampedAdd_spec by assumption. unfold Color.byte in *. lia. Qed.

Lemma clampedSub_byte (x y : Z) :
  Color.byte x -> Color.byte y -> Color.byte (Color.clampedSub x y).
Proof. intros Hx Hy. rewrite clampedSub_spec by assumption. unfold Color.byte in *. lia. Qed.

(** The laws of one channel. *)
Lemma channel_laws (x y z : Z) :
  Color.byte x -> Color.byte y -> Color.byte z ->
  Color.clampedAdd x y = Color.clampedAdd y x
  /\ Color.clampedAdd (Color.clampedAdd x y) z = Color.clampedAdd x (Color.clampedAdd y z)
  /\ Color.clampedAdd x 0 = x
  /\ Color.scaledMul x y = Color.scaledMul y x
  /\ Color.scaledMul x 255 = x
  /\ Color.scaledMul x 0 = 0
  /\ Color.clampedSub x x = 0
  /\ Color.clampedSub x 0 = x
  /\ Color.clampedAdd (Color.clampedSub x y) y = Z.max x y
  /\ Color.clampedSub (Color.clampedAdd x y) y = Z.min x (255 - y).
Proof.
  intros Hx Hy Hz.
  assert (H0 : Color.byte 0) by (unfold Color.byte; lia).
  assert (H255 : Color.byte 255) by (unfold Color.byte; lia).
  pose proof (clampedAdd_byte x y Hx Hy) as Hxy.
  pose proof (clampedAdd_byte y z Hy Hz) as Hyz.
  pose proof (clampedSub_byte x y Hx Hy) as Sxy.
  rewrite (clampedAdd_spec (Color.clampedAdd x y) z), (clampedAdd_spec x (Color.clampedAdd y z)),
    (clampedAdd_spec (Color.clampedSub x y) y), (clampedSub_spec (Color.clampedAdd x y) y)
    by assumption.
  rewrite !clampedAdd_spec, !clampedSub_spec by assumption.
  rewrite (proj1 (scaledMul_spec x y Hx Hy)), (proj1 (scaledMul_spec y x Hy Hx)),
    (proj1 (scaledMul_spec x 255 Hx H255)), (proj1 (scaledMul_spec x 0 Hx H0)).
  unfold Color.byte in *.
  repeat split; try lia.
  - f_equal. lia.
  - apply Z.div_mul. lia.
  - rewrite Z.mul_0_r. reflexivity.
Qed.

(** X9.  On colors whose channels are bytes: [operator+] is commutative and
    associative with [Transparent] as its neutral element; [operator*] is
    commutative, [White] is its neutral element and [Transparent] absorbs;
    [operator-] of a color from itself is [Transparent].  Subtraction does not
    undo addition: [(x - y) + y] is the larger of the two channels, and
    [(x + y) - y] the smaller of [x] and [255 - y]. *)
Theorem Color_algebra (x y z : Color.t) :
  Color.wf x -> Color.wf y -> Color.wf z ->
  let channels (f : Z -> Z -> Z) :=
    Color.mk (f (Color.r x) (Color.r y)) (f (Color.g x) (Color.g y))
             (f (Color.b x) (Color.b y)) (f (Color.a x) (Color.a y)) in
  Color.add x y = Color.add y x
  /\ Color.add (Color.add x y) z = Color.add x (Color.add y z)
  /\ Color.add x Color.Transparent = x
  /\ Color.mul x y = Color.mul y x
  /\ Color.mul x Color.White = x
  /\ Color.mul x Color.Transparent = Color.Transparent
  /\ Color.sub x x = Color.Transparent
  /\ Color.sub x Color.Transparent = x
  /\ Color.add (Color.sub x y) y = channels Z.max
  /\ Color.sub (Color.add x y) y = channels (fun l r => Z.min l (255 - r)).
Proof.
  destruct x as [xr xg xb xa], y as [yr yg yb ya], z as [zr zg zb za].
  unfold Color.wf. cbn [Color.r Color.g Color.b Color.a].
  intros (Hxr & Hxg & Hxb & Hxa) (Hyr & Hyg & Hyb & Hya) (Hzr & Hzg & Hzb & Hza).
  destruct (channel_laws xr yr zr Hxr Hyr Hzr)
    as (R1 & R2 & R3 & R4 & R5 & R6 & R7 & R8 & R9 & R10).
  destruct (channel_laws xg yg zg Hxg Hyg Hzg)
    as (G1 & G2 & G3 & G4 & G5 & G6 & G7 & G8 & G9 & G10).
  destruct (channel_laws xb yb zb Hxb Hyb Hzb)
    as (B1 & B2 & B3 & B4 & B5 & B6 & B7 & B8 & B9 & B10).
  destruct (channel_laws xa ya za Hxa Hya Hza)
    as (A1 & A2 & A3 & A4 & A5 & A6 & A7 & A8 & A9 & A10).
  unfold Color.add, Color.sub, Color.mul, Color.Transparent, Color.White.
  cbn [Color.r Color.g Color.b Color.a].
  repeat split; congruence.
Qed.

Lemma Color_algebra_witness :
  let x := Color.mk 200 100 0 255 in
  let y := Color.mk 100 200 255 128 in
  Color.add (Color.sub x y) y = Color.mk 200 200 255 255
  /\ Color.sub (Color.add x y) y = Color.mk 155 55 0 127.
Proof.
  intros x y.
  assert (Hx : Color.wf x) by (unfold Color.wf, Color.byte; cbn; lia).
  assert (Hy : Color.wf y) by (unfold Color.wf, Color.byte; cbn; lia).
  destruct (Color_algebra x y y Hx Hy Hy) as (_ & _ & _ & _ & _ & _ & _ & _ & E1 & E2).
  rewrite E1, E2. split; reflexivity.
Defined.

End ColorAlgebra.

(** ** Rectangles: intersection as an operation, and empty rectangles *)

Section IntRectangleAlgebra.
Import IntRect.
Local Open Scope Z_scope.

Lemma overlap_comm (r1 r2 : Rect.t Z) : overlap r1 r2 = overlap r2 r1.
Proof.
  unfold overlap, interLeft, interTop, interRight, interBottom.
  now rewrite (Z.max_comm (minX r1)), (Z.max_comm (minY r1)),
    (Z.min_comm (maxX r1)), (Z.min_comm (maxY r1)).
Qed.

Lemma findIntersection_int_comm (r1 r2 : Rect.t Z) :
  Rect.findIntersection r1 r2 = Rect.findIntersection r2 r1.
Proof. rewrite !findIntersection_int. now rewrite (overlap_comm r1 r2). Qed.

(** An overlap of positive size is normalized. *)
Lemma overlap_normalized (r1 r2 : Rect.t Z) :
  0 < Rect.width (overlap r1 r2) -> 0 < Rect.height (overlap r1 r2) ->
  minX (overlap r1 r2) = interLeft r1 r2 /\ maxX (overlap r1 r2) = interRight r1 r2
  /\ minY (overlap r1 r2) = interTop r1 r2 /\ maxY (overlap r1 r2) = interBottom r1 r2.
Proof.
  unfold overlap. cbn [Rect.width Rect.height].
  unfold minX, maxX, minY, maxY. cbn [Rect.left Rect.top Rect.width Rect.height].
  lia.
Qed.

(** The test and the rectangle of an intersection with a third rectangle. *)
Lemma findIntersection_int_then (r1 r2 r3 : Rect.t Z) :
  match Rect.findIntersection r1 r2 with
  | Some r => Rect.findIntersection r r3
  | None => None
  end
  = let l := Z.max (Z.max (minX r1) (minX r2)) (minX r3) in
    let t := Z.max (Z.max (minY r1) (minY r2)) (minY r3) in
    let r := Z.min (Z.min (maxX r1) (maxX r2)) (maxX r3) in
    let b := Z.min (Z.min (maxY r1) (maxY r2)) (maxY r3) in
    if (l <? r) && (t <? b) then Some (Rect.mk l t (r - l) (b - t)) else None.
Proof.
  cbv zeta. rewrite findIntersection_int.
  destruct (Z.ltb_spec 0 (Rect.width (overlap r1 r2))) as [Hw | Hw];
    [destruct (Z.ltb_spec 0 (Rect.height (overlap r1 r2))) as [Hh | Hh] |]; cbn [andb].
  - rewrite findIntersection_int.
    destruct (overlap_normalized r1 r2 Hw Hh) as (El & Er & Et & Eb).
    set (o := overlap r1 r2) in *.
    unfold overlap, interLeft, interRight, interTop, interBottom.
    cbn [Rect.width Rect.height]. rewrite El, Er, Et, Eb, !Z_lt_0_sub_ltb.
    reflexivity.
  - symmetry.
    match goal with |- (if ?c then _ else _) = None => destruct c eqn:F end;
      [exfalso | reflexivity].
    apply andb_true_iff in F. rewrite !Z.ltb_lt in F.
    revert Hh. unfold overlap. cbn [Rect.height]. unfold interTop, interBottom. lia.
  - symmetry.
    match goal with |- (if ?c then _ else _) = None => destruct c eqn:F end;
      [exfalso | reflexivity].
    apply andb_true_iff in F. rewrite !Z.ltb_lt in F.
    revert Hw. unfold overlap. cbn [Rect.width]. unfold interLeft, interRight. lia.
Qed.

Lemma max3_rotate (a b c : Z) : Z.max (Z.max b c) a = Z.max (Z.max a b) c.
Proof. lia. Qed.

Lemma min3_rotate (a b c : Z) : Z.min (Z.min b c) a = Z.min (Z.min a b) c.
Proof. lia. Qed.

Lemma findIntersection_int_assoc (r1 r2 r3 : Rect.t Z) :
  match Rect.findIntersection r1 r2 with
  | Some r => Rect.findIntersection r r3
  | None => None
  end
  = match Rect.findIntersection r2 r3 with
    | Some r => Rect.findIntersection r1 r
    | None => None
    end.
Proof.
  rewrite findIntersection_int_then.
  assert (E : match Rect.findIntersection r2 r3 with
              | Some r => Rect.findIntersection r1 r
              | None => None
              end
              = match Rect.findIntersection r2 r3 with
                | Some r => Rect.findIntersection r r1
                | None => None
                end).
  { destruct (Rect.findIntersection r2 r3); [apply findIntersection_int_comm | reflexivity]. }
  rewrite E, findIntersection_int_then. cbv zeta.
  now rewrite !(max3_rotate (minX r1)), !(max3_rotate (minY r1)),
    !(min3_rotate (maxX r1)), !(min3_rotate (maxY r1)).
Qed.

Lemma no_overflow_comm (r1 r2 : Rect.t Z) : no_overflow r1 r2 = no_overflow r2 r1.
Proof.
  apply eq_true_iff_eq. rewrite !no_overflow_bounds, (overlap_comm r2 r1). tauto.
Qed.

(** Intersecting the result with a third [IntRect] does not overflow. *)
Lemma no_overflow_then (r1 r2 r3 : Rect.t Z) :
  no_overflow r1 r2 = true -> in_range r3 = true ->
  match Rect.findIntersection r1 r2 with
  | Some r => no_overflow r r3 = true
  | None => True
  end.
Proof.
  intros H12 H3. rewrite findIntersection_int.
  destruct (Z.ltb_spec 0 (Rect.width (overlap r1 r2))) as [Hw |],
    (Z.ltb_spec 0 (Rect.height (overlap r1 r2))) as [Hh |]; cbn [andb]; auto.
  pose proof (overlap_in_range r1 r2 H12 Hw Hh) as Ho.
  apply no_overflow_bounds. split; [exact Ho |]. split; [exact H3 |].
  destruct (overlap_normalized r1 r2 Hw Hh) as (El & Er & Et & Eb).
  apply in_range_bounds in Ho.
  set (o := overlap r1 r2) in *.
  unfold overlap at 1 2 3 4. cbn [Rect.width Rect.height].
  unfold interLeft, interRight, interTop, interBottom.
  assert (Ew : maxX o - minX o = Rect.width o).
  { rewrite El, Er. reflexivity. }
  assert (Eh : maxY o - minY o = Rect.height o).
  { rewrite Et, Eb. reflexivity. }
  lia.
Qed.

(** X10.  On [IntRect]s, short of overflow, [findIntersection] is
    commutative and associative, a result with no value standing for the
    empty intersection; when the intersections of [r1] with [r2] and of [r2]
    with [r3] do not overflow, neither do the two that follow them. *)
Theorem findIntersection_comm_assoc (r1 r2 r3 : Rect.t Z) :
  no_overflow r1 r2 = true -> no_overflow r2 r3 = true ->
  Rect.findIntersection r1 r2 = Rect.findIntersection r2 r1
  /\ match Rect.findIntersection r1 r2 with
     | Some r => Rect.findIntersection r r3
     | None => None
     end
     = match Rect.findIntersection r2 r3 with
       | Some r => Rect.findIntersection r1 r
       | None => None
       end
  /\ match Rect.findIntersection r1 r2 with
     | Some r => no_overflow r r3 = true
     | None => True
     end
  /\ match Rect.findIntersection r2 r3 with
     | Some r => no_overflow r1 r = true
     | None => True
     end.
Proof.
  intros H12 H23.
  assert (H1 : in_range r1 = true) by (apply no_overflow_bounds in H12; tauto).
  assert (H3 : in_range r3 = true) by (apply no_overflow_bounds in H23; tauto).
  split; [apply findIntersection_int_comm |].
  split; [apply findIntersection_int_assoc |]. split.
  - now apply no_overflow_then.
  - pose proof (no_overflow_then r2 r3 r1 H23 H1) as H.
    destruct (Rect.findIntersection r2 r3); [| exact I].
    now rewrite no_overflow_comm.
Qed.

Lemma findIntersection_comm_assoc_witness :
  no_overflow (Rect.mk 0 0 10 10) (Rect.mk 15 15 (-10) (-10)) = true
  /\ no_overflow (Rect.mk 15 15 (-10) (-10)) (Rect.mk 8 2 4 6) = true
  /\ match Rect.findIntersection (Rect.mk 0 0 10 10) (Rect.mk 15 15 (-10) (-10)) with
     | Some r => Rect.findIntersection r (Rect.mk 8 2 4 6)
     | None => None
     end
     = match Rect.findIntersection (Rect.mk 15 15 (-10) (-10)) (Rect.mk 8 2 4 6) with
       | Some r => Rect.findIntersection (Rect.mk 0 0 10 10) r
       | None => None
       end.
Proof.
  split; [reflexivity |]. split; [reflexivity |].
  exact (proj1 (proj2 (findIntersection_comm_assoc
                         (Rect.mk 0 0 10 10) (Rect.mk 15 15 (-10) (-10)) (Rect.mk 8 2 4 6)
                         eq_refl eq_refl))).
Defined.

(** X11.  Among the [IntRect]s whose far sides do not overflow, one of
    width or height zero is empty: it contains no point and intersects no
    rectangle, itself included, without overflow.  Every other one, its width
    and height above [INT_MIN], intersects itself without overflow, in its
    normalized form: the sides in increasing order, the sizes positive. *)
Theorem IntRect_empty_or_self (r : Rect.t Z) :
  in_range r = true ->
  (Rect.width r = 0 \/ Rect.height r = 0 ->
   (forall p, Rect.contains r p = false)
   /\ (forall r', in_range r' = true ->
                  no_overflow r r' = true
                  /\ Rect.findIntersection r r' = None
                  /\ Rect.findIntersection r' r = None))
  /\ (Rect.width r <> 0 -> Rect.height r <> 0 ->
      INT_MIN < Rect.width r -> INT_MIN < Rect.height r ->
      no_overflow r r = true
      /\ Rect.findIntersection r r
         = Some (Rect.mk (minX r) (minY r) (Z.abs (Rect.width r)) (Z.abs (Rect.height r)))
      /\ Rect.contains r (Vector2.mk (minX r) (minY r)) = true).
Proof.
  intros Hr. split.
  - intros H0. split.
    + intros p. apply not_true_is_false. rewrite contains_int_iff.
      unfold minX, maxX, minY, maxY. lia.
    + intros r' Hr'.
      assert (E : (0 <? Rect.width (overlap r r')) && (0 <? Rect.height (overlap r r')) = false).
      { apply andb_false_iff. rewrite !Z.ltb_ge.
        unfold overlap, interLeft, interRight, interTop, interBottom.
        cbn [Rect.width Rect.height].
        assert (minX r = maxX r \/ minY r = maxY r) by (unfold minX, maxX, minY, maxY; lia).
        lia. }
      split.
      * apply no_overflow_bounds. split; [exact Hr |]. split; [exact Hr' |].
        apply andb_false_iff in E. rewrite !Z.ltb_ge in E. lia.
      * rewrite (findIntersection_int_comm r' r), findIntersection_int. rewrite E. auto.
  - intros Hw Hh Mw Mh.
    split; [apply no_overflow_intro; auto |]. split.
    + rewrite findIntersection_int.
      assert (E : (0 <? Rect.width (overlap r r)) && (0 <? Rect.height (overlap r r)) = true).
      { apply andb_true_iff. rewrite !Z.ltb_lt.
        unfold overlap, interLeft, interRight, interTop, interBottom.
        cbn [Rect.width Rect.height]. rewrite !Z.max_id, !Z.min_id.
        unfold minX, maxX, minY, maxY. lia. }
      rewrite E. unfold overlap, interLeft, interRight, interTop, interBottom.
      rewrite !Z.max_id, !Z.min_id. f_equal.
      f_equal; unfold minX, maxX, minY, maxY; lia.
    + apply contains_int_iff. unfold minX, maxX, minY, maxY. cbn [Vector2.x Vector2.y]. lia.
Qed.

Lemma IntRect_empty_or_self_witness :
  in_range (Rect.mk 10 10 (-5) 3) = true
  /\ in_range (Rect.mk 10 10 0 3) = true
  /\ Rect.findIntersection (Rect.mk 10 10 (-5) 3) (Rect.mk 10 10 (-5) 3)
     = Some (Rect.mk 5 10 5 3)
  /\ Rect.findIntersection (Rect.mk 10 10 0 3) (Rect.mk 10 10 0 3) = None.
Proof.
  split; [reflexivity |]. split; [reflexivity |]. split.
  - apply (proj2 (IntRect_empty_or_self (Rect.mk 10 10 (-5) 3) eq_refl));
      unfold INT_MIN; cbn; lia.
  - apply (proj2 (proj1 (IntRect_empty_or_self (Rect.mk 10 10 0 3) eq_refl)
                    (or_introl eq_refl)) (Rect.mk 10 10 0 3) eq_refl).
Defined.

End IntRectangleAlgebra.

(** ** The algebra of transforms in exact arithmetic *)

Section ExactTransformAlgebra.
Local Open Scope Qc_scope.

Ltac exact_ops :=
  cbv [add sub mul div neg of_int Scalar_exact] in *;
  rewrite ?Qc_of_Z_0, ?Qc_of_Z_1 in *.

Ltac unfold_transforms :=
  cbv [Transform.scale_about Transform.translate Transform.scale Transform.combine
       Transform.mul
       Transform.make Transform.transformPoint Transform.Identity Transform.determinant
       Transform.affine Vector2.opp Vector2.add Vector2.cwiseMul
       Transform.m0 Transform.m1 Transform.m2 Transform.m3 Transform.m4 Transform.m5
       Transform.m6 Transform.m7 Transform.m8 Transform.m9 Transform.m10 Transform.m11
       Transform.m12 Transform.m13 Transform.m14 Transform.m15
       Vector2.x Vector2.y] in *.

Ltac entries a :=
  let a0 := fresh a "0" in let a1 := fresh a "1" in let a2 := fresh a "2" in
  let a3 := fresh a "3" in let a4 := fresh a "4" in let a5 := fresh a "5" in
  let a6 := fresh a "6" in let a7 := fresh a "7" in let a8 := fresh a "8" in
  let a9 := fresh a "9" in let a10 := fresh a "10" in let a11 := fresh a "11" in
  let a12 := fresh a "12" in let a13 := fresh a "13" in let a14 := fresh a "14" in
  let a15 := fresh a "15" in
  destruct a as [a0 a1 a2 a3 a4 a5 a6 a7 a8 a9 a10 a11 a12 a13 a14 a15].

(** [operator==] holds of two transforms whose 3x3 matrices are equal. *)
Lemma Transform_eqb_intro (a b : Transform.t Qc) :
  Transform.m0 a = Transform.m0 b -> Transform.m1 a = Transform.m1 b ->
  Transform.m3 a = Transform.m3 b -> Transform.m4 a = Transform.m4 b ->
  Transform.m5 a = Transform.m5 b -> Transform.m7 a = Transform.m7 b ->
  Transform.m12 a = Transform.m12 b -> Transform.m13 a = Transform.m13 b ->
  Transform.m15 a = Transform.m15 b ->
  Transform.eqb a b = true.
Proof.
  intros E0 E1 E3 E4 E5 E7 E12 E13 E15. unfold Transform.eqb.
  rewrite E0, E1, E3, E4, E5, E7, E12, E13, E15. cbv [eqb Scalar_exact].
  rewrite !(proj2 (Qc_eq_bool_true_iff _ _) eq_refl). reflexivity.
Qed.

(** The nine entries of a product with [Identity]. *)
Lemma combine_Identity_entries (a : Transform.t Qc) (entry : Transform.t Qc -> Qc) :
  In entry [Transform.m0; Transform.m1; Transform.m3; Transform.m4; Transform.m5;
            Transform.m7; Transform.m12; Transform.m13; Transform.m15] ->
  entry (Transform.combine a Transform.Identity) = entry a
  /\ entry (Transform.combine Transform.Identity a) = entry a.
Proof.
  intros Hin. entries a. cbn [In] in Hin.
  repeat (destruct Hin as [<- | Hin]; [unfold_transforms; exact_ops; split; ring |]).
  contradiction.
Qed.

(** X12.  In exact arithmetic [combine] (and so [operator*] and
    [operator*=]) is associative, and [Identity] is neutral on both sides:
    the product with it compares equal to the transform under [operator==],
    and is the transform itself when that was built by the constructor. *)
Theorem combine_monoid (a b c : Transform.t Qc) :
  Transform.combine (Transform.combine a b) c = Transform.combine a (Transform.combine b c)
  /\ Transform.mul (Transform.mul a b) c = Transform.mul a (Transform.mul b c)
  /\ Transform.eqb (Transform.combine Transform.Identity a) a = true
  /\ Transform.eqb (Transform.combine a Transform.Identity) a = true
  /\ (forall a00 a01 a02 a10 a11 a12 a20 a21 a22 : Qc,
        let m := Transform.make a00 a01 a02 a10 a11 a12 a20 a21 a22 in
        Transform.combine Transform.Identity m = m
        /\ Transform.combine m Transform.Identity = m).
Proof.
  assert (A : Transform.combine (Transform.combine a b) c
              = Transform.combine a (Transform.combine b c)).
  { entries a. entries b. entries c. unfold_transforms. exact_ops. f_equal; ring. }
  split; [exact A |]. split; [exact A |].
  split; [| split].
  - apply Transform_eqb_intro;
      match goal with
      | |- ?entry _ = _ => apply (proj2 (combine_Identity_entries a entry ltac:(cbn; tauto)))
      end.
  - apply Transform_eqb_intro;
      match goal with
      | |- ?entry _ = _ => apply (proj1 (combine_Identity_entries a entry ltac:(cbn; tauto)))
      end.
  - intros. subst m. unfold_transforms. exact_ops. split; f_equal; ring.
Qed.

Lemma determinant_combine (a b : Transform.t Qc) :
  Transform.determinant (Transform.combine a b)
  = Transform.determinant a * Transform.determinant b.
Proof. entries a. entries b. unfold_transforms. exact_ops. ring. Qed.

Lemma getInverse_regular (m : Transform.t Qc) :
  Transform.determinant m <> 0 ->
  Transform.getInverse m
  = let det := Transform.determinant m in
    Transform.make
      ((Transform.m15 m * Transform.m5 m - Transform.m7 m * Transform.m13 m) / det)
      ((- (Transform.m15 m * Transform.m4 m - Transform.m7 m * Transform.m12 m)) / det)
      ((Transform.m13 m * Transform.m4 m - Transform.m5 m * Transform.m12 m) / det)
      ((- (Transform.m15 m * Transform.m1 m - Transform.m3 m * Transform.m13 m)) / det)
      ((Transform.m15 m * Transform.m0 m - Transform.m3 m * Transform.m12 m) / det)
      ((- (Transform.m13 m * Transform.m0 m - Transform.m1 m * Transform.m12 m)) / det)
      ((Transform.m7 m * Transform.m1 m - Transform.m3 m * Transform.m5 m) / det)
      ((- (Transform.m7 m * Transform.m0 m - Transform.m3 m * Transform.m4 m)) / det)
      ((Transform.m5 m * Transform.m0 m - Transform.m1 m * Transform.m4 m) / det).
Proof.
  intros Hdet. unfold Transform.getInverse.
  rewrite (getInverse_regular_test m Hdet). reflexivity.
Qed.

Lemma determinant_getInverse (m : Transform.t Qc) :
  Transform.determinant m <> 0 ->
  Transform.determinant (Transform.getInverse m) * Transform.determinant m = 1.
Proof.
  intros Hdet. rewrite <- determinant_combine, (getInverse_left m Hdet).
  unfold_transforms. exact_ops. ring.
Qed.

Lemma determinant_getInverse_nonzero (m : Transform.t Qc) :
  Transform.determinant m <> 0 -> Transform.determinant (Transform.getInverse m) <> 0.
Proof.
  intros Hdet E. pose proof (determinant_getInverse m Hdet) as D.
  rewrite E in D. revert D. rewrite Qcmult_0_l. discriminate.
Qed.

(** X13.  In exact arithmetic the determinant [getInverse] tests is
    multiplicative, so a product of invertible transforms is invertible; for
    a transform of non-zero determinant, the inverse has the inverse
    determinant, the inverse of the inverse compares equal to the transform,
    and the inverse of a product is the product of the inverses in the
    opposite order. *)
Theorem getInverse_laws (a b : Transform.t Qc) :
  Transform.determinant (Transform.combine a b)
  = Transform.determinant a * Transform.determinant b
  /\ (Transform.determinant a <> 0 ->
      Transform.determinant (Transform.getInverse a) * Transform.determinant a = 1
      /\ Transform.eqb (Transform.getInverse (Transform.getInverse a)) a = true
      /\ (Transform.determinant b <> 0 ->
          Transform.getInverse (Transform.combine a b)
          = Transform.combine (Transform.getInverse b) (Transform.getInverse a))).
Proof.
  split; [apply determinant_combine |]. intros Ha.
  split; [now apply determinant_getInverse |]. split.
  - pose proof (determinant_getInverse_nonzero a Ha) as Hi.
    pose proof (getInverse_left (Transform.getInverse a) Hi) as L.
    pose proof (getInverse_right a Ha) as R.
    assert (E : Transform.combine (Transform.getInverse (Transform.getInverse a))
                                  (Transform.combine (Transform.getInverse a) a)
                = Transform.combine
                    (Transform.combine (Transform.getInverse (Transform.getInverse a))
                                       (Transform.getInverse a)) a).
    { set (i := Transform.getInverse a). set (ii := Transform.getInverse i).
      clearbody i ii. clear. entries a. entries i. entries ii.
      unfold_transforms. exact_ops. f_equal; ring. }
    rewrite L, (getInverse_left a Ha) in E.
    set (ii := Transform.getInverse (Transform.getInverse a)) in *. clearbody ii.
    apply Transform_eqb_intro;
      match goal with
      | |- ?entry ii = ?entry a =>
          rewrite <- (proj1 (combine_Identity_entries ii entry ltac:(cbn; tauto))), E;
          apply (proj2 (combine_Identity_entries a entry ltac:(cbn; tauto)))
      end.
  - intros Hb.
    assert (Hab : Transform.determinant (Transform.combine a b) <> 0).
    { rewrite determinant_combine. intros E. apply Qcmult_integral in E. tauto. }
    rewrite (getInverse_regular _ Hab), (getInverse_regular a Ha), (getInverse_regular b Hb).
    cbv zeta. rewrite determinant_combine.
    revert Ha Hb. clear Hab. entries a. entries b. unfold_transforms. exact_ops.
    intros Ha Hb. f_equal; field; auto.
Qed.


Lemma getInverse_laws_witness :
  let a : Transform.t Qc :=
    Transform.make (Qc_of_Z 2) (Qc_of_Z 1) (Qc_of_Z 5) (Qc_of_Z 0) (Qc_of_Z 3) (Qc_of_Z 7)
                   (Qc_of_Z 0) (Qc_of_Z 0) (Qc_of_Z 1) in
  let b : Transform.t Qc :=
    Transform.make (Qc_of_Z 1) (Qc_of_Z 4) (Qc_of_Z 0) (Qc_of_Z 2) (Qc_of_Z 1) (Qc_of_Z 6)
                   (Qc_of_Z 0) (Qc_of_Z 0) (Qc_of_Z 1) in
  Transform.eqb (Transform.getInverse (Transform.getInverse a)) a = true
  /\ Transform.getInverse (Transform.combine a b)
     = Transform.combine (Transform.getInverse b) (Transform.getInverse a).
Proof.
  intros a b. destruct (getInverse_laws a b) as (_ & H).
  assert (Ha : Transform.determinant a <> 0) by (vm_compute; discriminate).
  assert (Hb : Transform.determinant b <> 0) by (vm_compute; discriminate).
  destruct (H Ha) as (_ & E & K). split; [exact E | exact (K Hb)].
Defined.

Lemma getInverse_affine (m : Transform.t Qc) :
  Transform.affine m -> Transform.affine (Transform.getInverse m).
Proof.
  intros Hm. unfold Transform.getInverse.
  destruct (negb (eqb (Transform.determinant m) (of_int 0%Z))) eqn:E;
    [| apply Identity_affine].
  assert (Hdet : Transform.determinant m <> 0).
  { intros F. rewrite F in E. cbv [eqb of_int Scalar_exact] in E.
    rewrite Qc_of_Z_0, (proj2 (Qc_eq_bool_true_iff 0 0) eq_refl) in E. discriminate. }
  revert Hdet Hm. entries m. unfold_transforms. exact_ops.
  intros Hdet (-> & -> & ->).
  repeat split; field; intros F; apply Hdet; (etransitivity; [| exact F]); ring.
Qed.

(** X14.  In exact arithmetic the inverse of an affine transform of non-zero
    determinant is affine and undoes the transform on every point, from either
    side. *)
Theorem getInverse_transformPoint (m : Transform.t Qc) (p : Vector2.t Qc) :
  Transform.affine m -> Transform.determinant m <> 0 ->
  Transform.affine (Transform.getInverse m)
  /\ Transform.transformPoint (Transform.getInverse m) (Transform.transformPoint m p) = p
  /\ Transform.transformPoint m (Transform.transformPoint (Transform.getInverse m) p) = p.
Proof.
  intros Hm Hdet. pose proof (getInverse_affine m Hm) as Hi.
  split; [exact Hi |].
  assert (W : forall a : Transform.t Qc,
             Transform.m3 a * Vector2.x p + Transform.m7 a * Vector2.y p + Transform.m15 a = 1
             <-> Transform.m3 a * Vector2.x p + Transform.m7 a * Vector2.y p
                 + Transform.m15 a = 1) by tauto.
  assert (Wm : Transform.m3 m * Vector2.x p + Transform.m7 m * Vector2.y p
               + Transform.m15 m = 1).
  { destruct Hm as (-> & -> & ->). exact_ops. ring. }
  assert (Wi : Transform.m3 (Transform.getInverse m) * Vector2.x p
               + Transform.m7 (Transform.getInverse m) * Vector2.y p
               + Transform.m15 (Transform.getInverse m) = 1).
  { destruct Hi as (-> & -> & ->). exact_ops. ring. }
  rewrite <- (combine_transformPoint_weight (Transform.getInverse m) m p Wm).
  rewrite <- (combine_transformPoint_weight m (Transform.getInverse m) p Wi).
  rewrite (getInverse_left m Hdet), (getInverse_right m Hdet).
  destruct p as [x y]. unfold_transforms. exact_ops. split; f_equal; ring.
Qed.

Lemma getInverse_transformPoint_witness :
  let m : Transform.t Qc :=
    Transform.make (Qc_of_Z 2) (Qc_of_Z 1) (Qc_of_Z 5) (Qc_of_Z 0) (Qc_of_Z 3) (Qc_of_Z 7)
                   (Qc_of_Z 0) (Qc_of_Z 0) (Qc_of_Z 1) in
  let p : Vector2.t Qc := Vector2.mk (Qc_of_Z 4) (Qc_of_Z 9) in
  Transform.transformPoint (Transform.getInverse m) (Transform.transformPoint m p) = p.
Proof.
  intros m p.
  assert (Hm : Transform.affine m) by (repeat split; reflexivity).
  assert (Hdet : Transform.determinant m <> 0) by (vm_compute; discriminate).
  exact (proj1 (proj2 (getInverse_transformPoint m p Hm Hdet))).
Defined.

(** X15.  In exact arithmetic: a translation moves every point by its
    offset and a scaling multiplies its coordinates by the factors; a scaling
    about a center leaves the center where it is; two translations in a row
    are the translation by the sum of the offsets, two scalings the scaling
    by the product of the factors; and the inverse of a translation is the
    translation by the opposite offset. *)
Theorem translate_scale_laws (m : Transform.t Qc) (u v p : Vector2.t Qc) :
  Transform.transformPoint (Transform.translate Transform.Identity v) p = Vector2.add p v
  /\ Transform.transformPoint (Transform.scale Transform.Identity v) p = Vector2.cwiseMul p v
  /\ Transform.transformPoint (Transform.scale_about m v p) p = Transform.transformPoint m p
  /\ Transform.translate (Transform.translate m u) v = Transform.translate m (Vector2.add u v)
  /\ Transform.scale (Transform.scale m u) v = Transform.scale m (Vector2.cwiseMul u v)
  /\ Transform.getInverse (Transform.translate Transform.Identity v)
     = Transform.translate Transform.Identity (Vector2.opp v).
Proof.
  split; [| split; [| split; [| split; [| split]]]].
  - destruct v as [vx vy], p as [px py]. unfold_transforms. exact_ops. f_equal; ring.
  - destruct v as [vx vy], p as [px py]. unfold_transforms. exact_ops. f_equal; ring.
  - entries m. destruct v as [vx vy], p as [px py]. unfold_transforms. exact_ops.
    f_equal; ring.
  - entries m. destruct u as [ux uy], v as [vx vy]. unfold_transforms. exact_ops.
    f_equal; ring.
  - entries m. destruct u as [ux uy], v as [vx vy]. unfold_transforms. exact_ops.
    f_equal; ring.
  - assert (Hdet : Transform.determinant (Transform.translate Transform.Identity v) = 1).
    { destruct v as [vx vy]. unfold_transforms. exact_ops. ring. }
    rewrite getInverse_regular by (rewrite Hdet; discriminate).
    cbv zeta. rewrite Hdet. clear Hdet. destruct v as [vx vy].
    unfold_transforms. exact_ops. f_equal; field; discriminate.
Qed.

End ExactTransformAlgebra.

(** ** [transformRect] in exact arithmetic *)

Section TransformRect.
Local Open Scope Qc_scope.

(** Linear arithmetic on [Qc], through [Q]. *)
Ltac qc_linear :=
  repeat match goal with
  | H : @eq Qc ?x ?y |- _ =>
      let E := fresh "E" in
      assert (E : (x == y)%Q) by (rewrite H; reflexivity); clear H
  | H : ~ @eq Qc ?x ?y |- _ =>
      let E := fresh "E" in
      assert (E : ~ (x == y)%Q) by (intros E; apply H; apply Qc_is_canon; exact E); clear H
  end;
  try apply Qc_is_canon;
  unfold Qclt, Qcle, Qcplus, Qcminus, Qcopp, Q2Qc in *; cbn [this] in *;
  repeat setoid_rewrite Qred_correct;
  repeat match goal with
  | H : context [Qred _] |- _ => setoid_rewrite Qred_correct in H
  end;
  lra.

Lemma Qc_ltb_false (x y : Qc) : Qc_ltb x y = false -> y <= x.
Proof.
  intros E. apply Qcnot_lt_le. rewrite <- Qc_ltb_lt. congruence.
Qed.

(** What the loop of [transformRect] keeps: the bounds hold the points seen
    so far, and each bound is attained by one of them. *)
Let Inv (seen : list (Vector2.t Qc)) (bounds : Qc * Qc * Qc * Qc) : Prop :=
  let '(l, t, r, b) := bounds in
  (forall p, In p seen ->
             l <= Vector2.x p /\ Vector2.x p <= r /\ t <= Vector2.y p /\ Vector2.y p <= b)
  /\ (exists p, In p seen /\ Vector2.x p = l)
  /\ (exists p, In p seen /\ Vector2.x p = r)
  /\ (exists p, In p seen /\ Vector2.y p = t)
  /\ (exists p, In p seen /\ Vector2.y p = b).

Lemma extend_Inv (seen : list (Vector2.t Qc)) (bounds : Qc * Qc * Qc * Qc)
    (point : Vector2.t Qc) :
  Inv seen bounds -> Inv (point :: seen) (Transform.extend bounds point).
Proof.
  destruct bounds as [[[l t] r] b]. unfold Inv, Transform.extend.
  intros (Hall & (pl & Hpl & El) & (pr & Hpr & Er) & (pt & Hpt & Et) & (pb & Hpb & Eb)).
  assert (Hlr : l <= r) by (rewrite <- El; apply (Hall pl Hpl)).
  assert (Htb : t <= b) by (rewrite <- Et; apply (Hall pt Hpt)).
  cbv [ltb Scalar_exact].
  assert (X : forall lo hi v (old : Vector2.t Qc -> Qc),
             lo <= hi ->
             (forall p, In p seen -> lo <= old p /\ old p <= hi) ->
             (exists p, In p seen /\ old p = lo) -> (exists p, In p seen /\ old p = hi) ->
             old point = v ->
             let '(lo', hi') :=
               if Qc_ltb v lo then (v, hi) else if Qc_ltb hi v then (lo, v) else (lo, hi) in
             (forall p, In p (point :: seen) -> lo' <= old p /\ old p <= hi')
             /\ (exists p, In p (point :: seen) /\ old p = lo')
             /\ (exists p, In p (point :: seen) /\ old p = hi')).
  { clear. intros lo hi v old Hle Hall (plo & Hplo & Elo) (phi & Hphi & Ehi) Ev.
    destruct (Qc_ltb v lo) eqn:E1; [| destruct (Qc_ltb hi v) eqn:E2].
    - apply Qc_ltb_lt in E1. split; [| split].
      + intros p [<- | Hp].
        * rewrite Ev. split; [apply Qcle_refl | qc_linear].
        * destruct (Hall p Hp). split; [qc_linear | assumption].
      + exists point. split; [now left | exact Ev].
      + exists phi. split; [now right | exact Ehi].
    - apply Qc_ltb_false in E1. apply Qc_ltb_lt in E2. split; [| split].
      + intros p [<- | Hp].
        * rewrite Ev. split; [assumption | apply Qcle_refl].
        * destruct (Hall p Hp). split; [assumption | qc_linear].
      + exists plo. split; [now right | exact Elo].
      + exists point. split; [now left | exact Ev].
    - apply Qc_ltb_false in E1, E2. split; [| split].
      + intros p [<- | Hp]; [rewrite Ev; split; assumption | apply (Hall p Hp)].
      + exists plo. split; [now right | exact Elo].
      + exists phi. split; [now right | exact Ehi]. }
  pose proof (X l r (Vector2.x point) Vector2.x Hlr
                (fun p Hp => conj (proj1 (Hall p Hp)) (proj1 (proj2 (Hall p Hp))))
                (ex_intro _ pl (conj Hpl El)) (ex_intro _ pr (conj Hpr Er)) eq_refl) as Hx.
  pose proof (X t b (Vector2.y point) Vector2.y Htb
                (fun p Hp => conj (proj1 (proj2 (proj2 (Hall p Hp))))
                                  (proj2 (proj2 (proj2 (Hall p Hp)))))
                (ex_intro _ pt (conj Hpt Et)) (ex_intro _ pb (conj Hpb Eb)) eq_refl) as Hy.
  destruct (if Qc_ltb (Vector2.x point) l then _ else _) as [l' r'].
  destruct (if Qc_ltb (Vector2.y point) t then _ else _) as [t' b'].
  destruct Hx as (Hx & Hxl & Hxr). destruct Hy as (Hy & Hyt & Hyb).
  repeat split; try assumption; try apply (Hx p H); try apply (Hy p H).
Qed.

Lemma fold_extend_Inv (points seen : list (Vector2.t Qc)) (bounds : Qc * Qc * Qc * Qc) :
  Inv seen bounds -> Inv (rev points ++ seen) (fold_left Transform.extend points bounds).
Proof.
  revert seen bounds. induction points as [| point points IH]; intros seen bounds H.
  - exact H.
  - cbn [fold_left rev]. rewrite <- app_assoc. cbn [app].
    apply IH. apply extend_Inv. exact H.
Qed.


(** The bounds [transformRect] ends its loop with. *)
Lemma transformRect_bounds (m : Transform.t Qc) (rectangle : Rect.t Qc) :
  exists l t r b : Qc,
    Transform.transformRect m rectangle = Rect.mk l t (r - l) (b - t)
    /\ Inv (map (Transform.transformPoint m) (Rect.corners rectangle)) (l, t, r, b).
Proof.
  unfold Transform.transformRect. cbv zeta.
  set (p0 := Transform.transformPoint m (Vector2.mk (Rect.left rectangle) (Rect.top rectangle))).
  set (p1 := Transform.transformPoint m _). set (p2 := Transform.transformPoint m _).
  set (p3 := Transform.transformPoint m _).
  assert (H0 : Inv [p0] (Vector2.x p0, Vector2.y p0, Vector2.x p0, Vector2.y p0)).
  { unfold Inv. split.
    - intros p [<- | []]. repeat split; apply Qcle_refl.
    - repeat split; exists p0; (split; [now left | reflexivity]). }
  pose proof (fold_extend_Inv [p1; p2; p3] [p0] _ H0) as H.
  destruct (fold_left Transform.extend [p1; p2; p3] _) as [[[l t] r] b].
  exists l, t, r, b. split; [reflexivity |].
  unfold Inv in *. cbn [rev app] in H.
  destruct H as (Hall & (pl & Hpl & El) & (pr & Hpr & Er) & (pt & Hpt & Et) & (pb & Hpb & Eb)).
  assert (S : forall p, In p [p3; p2; p1; p0]
                        -> In p (map (Transform.transformPoint m) (Rect.corners rectangle))).
  { unfold Rect.corners. cbn [map In]. fold p0 p1 p2 p3. tauto. }
  assert (S' : forall p, In p (map (Transform.transformPoint m) (Rect.corners rectangle))
                         -> In p [p3; p2; p1; p0]).
  { unfold Rect.corners. cbn [map In]. fold p0 p1 p2 p3. tauto. }
  split; [intros p Hp; apply Hall, S', Hp |].
  repeat split; [exists pl | exists pr | exists pt | exists pb]; auto.
Qed.

(** X16.  In exact arithmetic [transformRect] returns the bounding box of
    the four transformed corners of the rectangle: its width and height are
    not negative, each transformed corner lies between its sides (the far
    sides included), and each of its four sides passes through a transformed
    corner. *)
Theorem transformRect_bounding_box (m : Transform.t Qc) (rectangle : Rect.t Qc) :
  let box := Transform.transformRect m rectangle in
  let points := map (Transform.transformPoint m) (Rect.corners rectangle) in
  0 <= Rect.width box /\ 0 <= Rect.height box
  /\ (forall p, In p points ->
        Rect.left box <= Vector2.x p /\ Vector2.x p <= Rect.left box + Rect.width box
        /\ Rect.top box <= Vector2.y p /\ Vector2.y p <= Rect.top box + Rect.height box)
  /\ (exists p, In p points /\ Vector2.x p = Rect.left box)
  /\ (exists p, In p points /\ Vector2.x p = Rect.left box + Rect.width box)
  /\ (exists p, In p points /\ Vector2.y p = Rect.top box)
  /\ (exists p, In p points /\ Vector2.y p = Rect.top box + Rect.height box).
Proof.
  intros box points.
  destruct (transformRect_bounds m rectangle) as (l & t & r & b & E & H).
  fold box in E. fold points in H. rewrite E. cbn [Rect.left Rect.top Rect.width Rect.height].
  unfold Inv in H.
  destruct H as (Hall & (pl & Hpl & El) & (pr & Hpr & Er) & (pt & Hpt & Et) & (pb & Hpb & Eb)).
  assert (Hlr : l <= r) by (rewrite <- El; apply (Hall pl Hpl)).
  assert (Htb : t <= b) by (rewrite <- Et; apply (Hall pt Hpt)).
  replace (l + (r - l)) with r by ring. replace (t + (b - t)) with b by ring.
  split; [clear - Hlr; qc_linear |]. split; [clear - Htb; qc_linear |].
  split; [exact Hall |].
  repeat split; [exists pl | exists pr | exists pt | exists pb]; auto.
Qed.

(** The smaller and the larger end of a side moved by an offset. *)
Lemma moved_side (a w o lo hi : Qc) :
  lo <= a + o -> lo <= a + w + o -> a + o <= hi -> a + w + o <= hi ->
  lo = a + o \/ lo = a + w + o -> hi = a + o \/ hi = a + w + o ->
  lo = Rect.min a (a + w) + o /\ hi - lo = Rect.max a (a + w) - Rect.min a (a + w).
Proof.
  intros L1 L2 H1 H2 Elo Ehi. unfold Rect.min, Rect.max. cbv [ltb Scalar_exact].
  destruct (Qc_ltb a (a + w)) eqn:C;
    [apply Qc_ltb_lt in C | apply Qc_ltb_false in C];
    destruct Elo as [-> | ->]; destruct Ehi as [-> | ->];
    split; qc_linear.
Qed.

(** X17.  In exact arithmetic a translation (the identity included, as the
    translation by zero) moves a rectangle by its offset and normalizes it:
    the result has the smaller ends of the sides for [left] and [top], moved
    by the offset, and the distances between the ends, which are not
    negative, for sizes. *)
Theorem transformRect_translation (offset : Vector2.t Qc) (rectangle : Rect.t Qc) :
  let left := Rect.left rectangle in
  let top := Rect.top rectangle in
  let right := left + Rect.width rectangle in
  let bottom := top + Rect.height rectangle in
  Transform.transformRect (Transform.translate Transform.Identity offset) rectangle
  = Rect.mk (Rect.min left right + Vector2.x offset)
            (Rect.min top bottom + Vector2.y offset)
            (Rect.max left right - Rect.min left right)
            (Rect.max top bottom - Rect.min top bottom).
Proof.
  intros left top right bottom.
  destruct (transformRect_bounds (Transform.translate Transform.Identity offset) rectangle)
    as (l & t & r & b & E & H).
  rewrite E. clear E. unfold Inv in H.
  assert (P : forall x y : Qc,
             Transform.transformPoint (Transform.translate Transform.Identity offset)
                                      (Vector2.mk x y)
             = Vector2.mk (x + Vector2.x offset) (y + Vector2.y offset)).
  { intros x y. destruct offset as [ox oy].
    cbv [Transform.translate Transform.combine Transform.make Transform.transformPoint
         Transform.Identity Vector2.x Vector2.y
         Transform.m0 Transform.m1 Transform.m3 Transform.m4 Transform.m5 Transform.m7
         Transform.m12 Transform.m13 Transform.m15 add mul of_int Scalar_exact].
    rewrite Qc_of_Z_0, Qc_of_Z_1. f_equal; ring. }
  unfold Rect.corners in H. cbn [map] in H. rewrite !P in H. cbv [add Scalar_exact] in H.
  fold left top in H.
  destruct H as (Hall & (pl & Hpl & El) & (pr & Hpr & Er) & (pt & Hpt & Et) & (pb & Hpb & Eb)).
  set (w := Rect.width rectangle) in *. set (h := Rect.height rectangle) in *.
  set (ox := Vector2.x offset) in *. set (oy := Vector2.y offset) in *.
  pose proof (Hall _ (or_introl eq_refl)) as (A1 & A2 & A3 & A4).
  pose proof (Hall _ (or_intror (or_intror (or_intror (or_introl eq_refl)))))
    as (B1 & B2 & B3 & B4).
  cbn [Vector2.x Vector2.y] in A1, A2, A3, A4, B1, B2, B3, B4.
  assert (Xl : l = left + ox \/ l = left + w + ox).
  { rewrite <- El. clear - Hpl. cbn [In] in Hpl.
    destruct Hpl as [<- | [<- | [<- | [<- | []]]]]; cbn [Vector2.x]; auto. }
  assert (Xr : r = left + ox \/ r = left + w + ox).
  { rewrite <- Er. clear - Hpr. cbn [In] in Hpr.
    destruct Hpr as [<- | [<- | [<- | [<- | []]]]]; cbn [Vector2.x]; auto. }
  assert (Xt : t = top + oy \/ t = top + h + oy).
  { rewrite <- Et. clear - Hpt. cbn [In] in Hpt.
    destruct Hpt as [<- | [<- | [<- | [<- | []]]]]; cbn [Vector2.y]; auto. }
  assert (Xb : b = top + oy \/ b = top + h + oy).
  { rewrite <- Eb. clear - Hpb. cbn [In] in Hpb.
    destruct Hpb as [<- | [<- | [<- | [<- | []]]]]; cbn [Vector2.y]; auto. }
  destruct (moved_side left w ox l r A1 B1 A2 B2 Xl Xr) as (Hl & Hw).
  destruct (moved_side top h oy t b A3 B3 A4 B4 Xt Xb) as (Ht & Hh).
  unfold right, bottom. fold w h. rewrite <- Hl, <- Ht, <- Hw, <- Hh. reflexivity.
Qed.

End TransformRect.

(** ** [wrapSigned] as a choice of representatives, in exact arithmetic *)

Section AngleRepresentatives.
Local Open Scope Qc_scope.

Ltac qc_linear :=
  repeat match goal with
  | H : @eq Qc ?x ?y |- _ =>
      let E := fresh "E" in
      assert (E : (x == y)%Q) by (rewrite H; reflexivity); clear H
  end;
  try apply Qc_is_canon;
  unfold Qclt, Qcle, Qcplus, Qcminus, Qcmult, Qcopp, Qc_of_Z, Q2Qc in *; cbn [this] in *;
  repeat setoid_rewrite Qred_correct;
  repeat match goal with
  | H : context [Qred _] |- _ => setoid_rewrite Qred_correct in H
  end;
  lra.

(** [wrapSigned] on an angle whose quotient by 360 fits an [int]. *)
Lemma wrapSigned_exact_cases (a : Qc) :
  in_int (Qc_trunc ((a + Qc_of_Z 180) / Qc_of_Z 360)) = true ->
  exists (w : Qc) (k : Z),
    Angle.wrapSigned (Angle.degrees a) = Some (Angle.degrees w)
    /\ Qc_of_Z (-180) <= w /\ w < Qc_of_Z 180 /\ w = a - Qc_of_Z k * Qc_of_Z 360.
Proof.
  intros Hk.
  assert (H360 : 0 < Qc_of_Z 360) by reflexivity.
  destruct (positiveRemainder_exact_cases (a + Qc_of_Z 180) (Qc_of_Z 360) H360 Hk)
    as (r & k & E & H0 & H1 & Er).
  unfold Angle.wrapSigned, Angle.degrees. cbn [Angle.m_degrees].
  change (add a (of_int 180%Z)) with (a + Qc_of_Z 180).
  change (of_int 360%Z) with (Qc_of_Z 360).
  rewrite E. cbn [option_map]. change (sub r (of_int 180%Z)) with (r - Qc_of_Z 180).
  exists (r - Qc_of_Z 180), k. split; [reflexivity |].
  split; [| split; [| rewrite Er; ring]].
  - clear - H0. unfold Qcle, Qcminus, Qcplus, Qcopp, Qc_of_Z, Q2Qc in *. cbn [this] in *.
    repeat setoid_rewrite Qred_correct. repeat setoid_rewrite Qred_correct in H0.
    unfold inject_Z. lra.
  - clear - H1. unfold Qclt, Qcminus, Qcplus, Qcopp, Qc_of_Z, Q2Qc in *. cbn [this] in *.
    repeat setoid_rewrite Qred_correct. repeat setoid_rewrite Qred_correct in H1.
    unfold inject_Z in *. lra.
Qed.

(** A rational in [0, 1) has the integer part 0. *)
Lemma Qc_trunc_small (q : Qc) : 0 <= q -> q < 1 -> Qc_trunc q = 0%Z.
Proof.
  unfold Qc_trunc, Qcle, Qclt. destruct q as [[n d] Hc]. cbn [this Qnum Qden].
  unfold Qle, Qlt. cbn. intros H0 H1. apply Z.quot_small. lia.
Qed.

(** Two numbers of [-180, 180) that differ by a multiple of 360 are equal. *)
Lemma representative_unique (w w' : Qc) (j : Z) :
  Qc_of_Z (-180) <= w -> w < Qc_of_Z 180 ->
  Qc_of_Z (-180) <= w' -> w' < Qc_of_Z 180 ->
  w' = w + Qc_of_Z j * Qc_of_Z 360 -> w' = w.
Proof.
  intros L H L' H' E.
  assert (J : (-1 < j < 1)%Z).
  { assert (B : (- (1) < inject_Z j)%Q /\ (inject_Z j < 1)%Q).
    { clear - L H L' H' E.
      assert (E' : (w' == w + inject_Z j * inject_Z 360)%Q).
      { rewrite E. unfold Qcplus, Qcmult, Qc_of_Z, Q2Qc. cbn [this].
        repeat setoid_rewrite Qred_correct. reflexivity. }
      clear E. unfold Qcle, Qclt, Qc_of_Z, Q2Qc in *. cbn [this] in *.
      repeat setoid_rewrite Qred_correct in L. repeat setoid_rewrite Qred_correct in H.
      repeat setoid_rewrite Qred_correct in L'. repeat setoid_rewrite Qred_correct in H'.
      change (inject_Z 360) with (Qmake 360 1) in E'.
      change (inject_Z (-180)) with (Qmake (-180) 1) in *.
      change (inject_Z 180) with (Qmake 180 1) in *.
      split; lra. }
    destruct B as [B1 B2]. change (- (1))%Q with (inject_Z (-1)) in B1.
    change 1%Q with (inject_Z 1) in B2.
    rewrite <- Zlt_Qlt in B1, B2. lia. }
  assert (j = 0%Z) by lia. subst j. rewrite E, Qc_of_Z_0. ring.
Qed.

Lemma Qc_of_Z_sub_add (n k k' : Z) :
  Qc_of_Z (n - k' + k) = Qc_of_Z n - Qc_of_Z k' + Qc_of_Z k.
Proof.
  apply Qc_is_canon. unfold Qc_of_Z, Qcminus, Qcplus, Qcopp, Q2Qc. cbn [this].
  repeat setoid_rewrite Qred_correct.
  unfold Qeq, Qplus, Qopp, inject_Z. cbn. lia.
Qed.

(** X18.  In exact arithmetic [wrapSigned] chooses one representative of
    each angle modulo 360 degrees: wrapping its result again changes nothing,
    and an angle moved by a whole number of turns wraps to the same result
    (the quotients by 360 fitting an [int]). *)
Theorem wrapSigned_idempotent_periodic (a : Qc) (n : Z) :
  in_int (Qc_trunc ((a + Qc_of_Z 180) / Qc_of_Z 360)) = true ->
  exists w : Qc,
    Angle.wrapSigned (Angle.degrees a) = Some (Angle.degrees w)
    /\ Angle.wrapSigned (Angle.degrees w) = Some (Angle.degrees w)
    /\ (in_int (Qc_trunc ((a + Qc_of_Z n * Qc_of_Z 360 + Qc_of_Z 180) / Qc_of_Z 360)) = true ->
        Angle.wrapSigned (Angle.degrees (a + Qc_of_Z n * Qc_of_Z 360))
        = Some (Angle.degrees w)).
Proof.
  intros Hk. destruct (wrapSigned_exact_cases a Hk) as (w & k & E & L & H & Ew).
  exists w. split; [exact E |]. split.
  - assert (Q0 : 0 <= (w + Qc_of_Z 180) / Qc_of_Z 360 /\ (w + Qc_of_Z 180) / Qc_of_Z 360 < 1).
    { clear - L H. unfold Qcdiv, Qcinv, Qcle, Qclt, Qcplus, Qcmult, Qc_of_Z, Q2Qc in *.
      cbn [this] in *. repeat setoid_rewrite Qred_correct.
      repeat setoid_rewrite Qred_correct in L. repeat setoid_rewrite Qred_correct in H.
      unfold inject_Z in *. change (Qinv (Qmake 360 1)) with (Qmake 1 360).
      split; lra. }
    assert (T : Qc_trunc ((w + Qc_of_Z 180) / Qc_of_Z 360) = 0%Z)
      by (apply Qc_trunc_small; tauto).
    assert (Hw : in_int (Qc_trunc ((w + Qc_of_Z 180) / Qc_of_Z 360)) = true)
      by (rewrite T; reflexivity).
    destruct (wrapSigned_exact_cases w Hw) as (w' & k' & E' & L' & H' & Ew').
    rewrite E'. do 2 f_equal.
    apply (representative_unique w w' (- k') L H L' H').
    rewrite Ew'. apply Qc_is_canon. unfold Qc_of_Z, Qcminus, Qcplus, Qcmult, Qcopp, Q2Qc.
    cbn [this]. repeat setoid_rewrite Qred_correct. rewrite inject_Z_opp. ring.
  - intros Hn.
    destruct (wrapSigned_exact_cases (a + Qc_of_Z n * Qc_of_Z 360) Hn)
      as (w' & k' & E' & L' & H' & Ew').
    rewrite E'. do 2 f_equal.
    apply (representative_unique w w' (n - k' + k) L H L' H').
    rewrite Ew', Ew, Qc_of_Z_sub_add. ring.
Qed.

Lemma wrapSigned_idempotent_periodic_witness :
  exists w : Qc,
    Angle.wrapSigned (Angle.degrees (Qc_of_Z 270)) = Some (Angle.degrees w)
    /\ Angle.wrapSigned (Angle.degrees w) = Some (Angle.degrees w)
    /\ (in_int (Qc_trunc ((Qc_of_Z 270 + Qc_of_Z (-3) * Qc_of_Z 360 + Qc_of_Z 180)
                          / Qc_of_Z 360)) = true ->
        Angle.wrapSigned (Angle.degrees (Qc_of_Z 270 + Qc_of_Z (-3) * Qc_of_Z 360))
        = Some (Angle.degrees w)).
Proof.
  apply (wrapSigned_idempotent_periodic (Qc_of_Z 270) (-3)). reflexivity.
Defined.

End AngleRepresentatives.

(** ** [sf::Time]: milliseconds, and the integer operators *)

Section TimeArithmetic.
Local Open Scope Z_scope.

Lemma checked_int64_Some (z : Z) :
  INT64_MIN <= z <= INT64_MAX -> checked_int64 z = Some z.
Proof.
  intros Hz. unfold checked_int64, in_int64.
  destruct (Z.leb_spec INT64_MIN z), (Z.leb_spec z INT64_MAX); try lia. reflexivity.
Qed.

Lemma checked_int64_inv (z r : Z) :
  checked_int64 z = Some r -> r = z /\ INT64_MIN <= z <= INT64_MAX.
Proof.
  unfold checked_int64, in_int64.
  destruct (Z.leb_spec INT64_MIN z), (Z.leb_spec z INT64_MAX); cbn [andb]; try discriminate.
  intros [= <-]. lia.
Qed.

Lemma in_int64_iff (z : Z) : in_int64 z = true <-> INT64_MIN <= z <= INT64_MAX.
Proof. unfold in_int64. rewrite andb_true_iff, !Z.leb_le. tauto. Qed.

Lemma in_int_iff (z : Z) : in_int z = true <-> INT_MIN <= z <= INT_MAX.
Proof. unfold in_int. rewrite andb_true_iff, !Z.leb_le. tauto. Qed.

Lemma to_signed_32_int (z : Z) : INT_MIN <= z <= INT_MAX -> to_signed 32 z = z.
Proof.
  unfold INT_MIN, INT_MAX, to_signed. intros Hz.
  change (2 ^ (32 - 1)) with 2147483648 in *. change (2 ^ 31) with 2147483648 in *.
  change (2 ^ 32) with 4294967296. rewrite Z.mod_small by lia. lia.
Qed.

(** X19.  [milliseconds] and [asMilliseconds]: every [std::int32_t] number
    of milliseconds is read back from the time it makes; and, the number of
    whole milliseconds fitting an [std::int32_t], [asMilliseconds] rounds
    toward zero: the time it stands for is less than a millisecond from the
    original, and not further from zero. *)
Theorem Time_milliseconds_round_trip :
  (forall amount : Z,
      in_int amount = true ->
      Time.wf (Time.milliseconds amount)
      /\ Time.asMilliseconds (Time.milliseconds amount) = amount)
  /\ (forall time : Time.t,
      in_int (Z.quot (Time.asMicroseconds time) 1000) = true ->
      let back := Time.asMicroseconds (Time.milliseconds (Time.asMilliseconds time)) in
      Z.abs back <= Z.abs (Time.asMicroseconds time) < Z.abs back + 1000
      /\ 0 <= back * Time.asMicroseconds time).
Proof.
  split.
  - intros amount Ha. apply in_int_iff in Ha. split.
    + unfold Time.wf, Time.milliseconds. cbn [Time.m_microseconds].
      apply in_int64_iff. unfold INT_MIN, INT_MAX, INT64_MIN, INT64_MAX in *. lia.
    + unfold Time.asMilliseconds, Time.milliseconds. cbn [Time.m_microseconds].
      rewrite Z.quot_mul by lia. now apply to_signed_32_int.
  - intros [us] Hq. apply in_int_iff in Hq.
    unfold Time.asMilliseconds, Time.milliseconds, Time.asMicroseconds in *.
    cbn [Time.m_microseconds] in *. rewrite (to_signed_32_int _ Hq).
    clear Hq. Z.quot_rem_to_equations. nia.
Qed.

Lemma Time_milliseconds_round_trip_witness :
  Time.asMilliseconds (Time.milliseconds (-2147483648)) = -2147483648
  /\ (let back :=
        Time.asMicroseconds (Time.milliseconds (Time.asMilliseconds (Time.microseconds (-1500)))) in
      Z.abs back <= Z.abs (-1500) < Z.abs back + 1000 /\ 0 <= back * (-1500)).
Proof.
  split.
  - apply (proj1 Time_milliseconds_round_trip (-2147483648)). reflexivity.
  - apply (proj2 Time_milliseconds_round_trip (Time.microseconds (-1500))). reflexivity.
Defined.

(** X20.  The integer operators of [Time], on times in the range of
    [std::int64_t]: subtraction undoes an addition that does not overflow;
    unary minus is undefined for the least time only; dividing by zero is
    undefined for [/] and [%] alike; and for a divisor [k] other than zero
    (and other than -1 for the least time) the quotient and the remainder are
    defined, make up the time again, [(t / k) * k + t % k == t], and the
    remainder is smaller than [k] in absolute value with the sign of [t]:
    unlike the remainder of angles, it can be negative. *)
Theorem Time_integer_operators (left right : Time.t) (k : Z) :
  Time.wf left -> Time.wf right -> in_int64 k = true ->
  (forall sum, Time.add left right = Some sum -> Time.sub sum right = Some left)
  /\ (Time.opp left = None <-> Time.asMicroseconds left = INT64_MIN)
  /\ Time.div left 0 = None
  /\ Time.rem left (Time.microseconds 0) = None
  /\ (k <> 0 -> ~ (Time.asMicroseconds left = INT64_MIN /\ k = -1) ->
      exists q m p : Time.t,
        Time.div left k = Some q
        /\ Time.rem left (Time.microseconds k) = Some m
        /\ Time.mul q k = Some p
        /\ Time.add p m = Some left
        /\ Z.abs (Time.asMicroseconds m) < Z.abs k
        /\ 0 <= Time.asMicroseconds m * Time.asMicroseconds left).
Proof.
  destruct left as [l], right as [r]. unfold Time.wf. cbn [Time.m_microseconds].
  rewrite !in_int64_iff. intros Hl Hr Hk.
  unfold Time.add, Time.sub, Time.opp, Time.div, Time.rem, Time.mul, Time.asMicroseconds,
    Time.microseconds. cbn [Time.m_microseconds].
  split; [| split; [| split; [| split]]].
  - intros sum. destruct (checked_int64 (l + r)) as [s |] eqn:E; [| discriminate].
    apply checked_int64_inv in E. destruct E as [-> E]. cbn [option_map].
    intros [= <-]. cbn [Time.m_microseconds].
    rewrite checked_int64_Some by lia. cbn [option_map]. do 2 f_equal. lia.
  - split.
    + destruct (checked_int64 (- l)) eqn:E; [discriminate |]. intros _.
      unfold checked_int64, in_int64 in E.
      destruct (Z.leb_spec INT64_MIN (- l)), (Z.leb_spec (- l) INT64_MAX);
        try discriminate; unfold INT64_MIN, INT64_MAX in *; lia.
    + intros ->. reflexivity.
  - reflexivity.
  - reflexivity.
  - intros Hk0 Hmin.
    assert (Hq : INT64_MIN <= Z.quot l k <= INT64_MAX).
    { unfold INT64_MIN, INT64_MAX in *.
      destruct (Z.eq_dec k (-1)) as [-> | Hk1].
      - change (-1) with (Z.opp 1). rewrite Z.quot_opp_r, Z.quot_1_r by lia. lia.
      - clear Hmin. Z.quot_rem_to_equations. nia. }
    destruct (Z.eqb_spec k 0) as [E | _]; [contradiction |].
    rewrite (checked_int64_Some _ Hq). cbn [option_map].
    exists (Time.mk (Z.quot l k)), (Time.mk (Z.rem l k)), (Time.mk (Z.quot l k * k)).
    cbn [Time.m_microseconds].
    assert (Hp : INT64_MIN <= Z.quot l k * k <= INT64_MAX).
    { unfold INT64_MIN, INT64_MAX in *. clear Hq Hmin. Z.quot_rem_to_equations. nia. }
    rewrite (checked_int64_Some _ Hp). cbn [option_map].
    assert (El : Z.quot l k * k + Z.rem l k = l).
    { pose proof (Z.quot_rem' l k). lia. }
    rewrite El, (checked_int64_Some _ Hl). cbn [option_map].
    repeat split.
    + pose proof (Z.rem_bound_abs l k Hk0). lia.
    + pose proof (Z.rem_sign_mul l k Hk0). lia.
Qed.

Lemma Time_integer_operators_witness :
  exists q m p : Time.t,
    Time.div (Time.microseconds (-7)) 3 = Some q
    /\ Time.rem (Time.microseconds (-7)) (Time.microseconds 3) = Some m
    /\ Time.mul q 3 = Some p
    /\ Time.add p m = Some (Time.microseconds (-7))
    /\ Z.abs (Time.asMicroseconds m) < Z.abs 3
    /\ 0 <= Time.asMicroseconds m * Time.asMicroseconds (Time.microseconds (-7)).
Proof.
  apply (proj2 (proj2 (proj2 (proj2
           (Time_integer_operators (Time.microseconds (-7)) (Time.microseconds 3) 3
              eq_refl eq_refl eq_refl)))));
    cbn; lia.
Defined.

End TimeArithmetic.

(** ** UTF-8, UTF-16 and UTF-32 *)

Section UtfConversions.
Local Open Scope Z_scope.

(** A property checked on the 256 bytes holds of every byte. *)
Lemma all_bytes (P : Z -> bool) :
  forallb P (map Z.of_nat (seq 0 256)) = true ->
  forall b, 0 <= b < 256 -> P b = true.
Proof.
  intros H b Hb. rewrite forallb_forall in H. apply H.
  apply in_map_iff. exists (Z.to_nat b). split; [lia |].
  apply in_seq. lia.
Qed.

(** The table [trailing], read as the ranges of the first byte. *)
Lemma trailing_ranges (b : Z) :
  0 <= b < 256 ->
  nth (Z.to_nat b) Utf8.trailing 0
  = if b <? 0xC0 then 0 else if b <? 0xE0 then 1 else if b <? 0xF0 then 2
    else if b <? 0xF8 then 3 else if b <? 0xFC then 4 else 5.
Proof.
  intros Hb. apply Z.eqb_eq. revert b Hb.
  apply (all_bytes (fun b =>
    nth (Z.to_nat b) Utf8.trailing 0
    =? (if b <? 0xC0 then 0 else if b <? 0xE0 then 1 else if b <? 0xF0 then 2
        else if b <? 0xF8 then 3 else if b <? 0xFC then 4 else 5))).
  vm_compute. reflexivity.
Qed.

(** [(input | 0x80) & 0xBF] as a byte: the marker 10 and the six low bits. *)
Lemma continuation_byte (input : Z) :
  to_unsigned 8 (Z.land (Z.lor input 0x80) 0xBF) = 0x80 + input mod 64.
Proof.
  unfold to_unsigned.
  assert (E : Z.land (Z.lor input 0x80) 0xBF
              = Z.land (Z.lor (input mod 2 ^ 8) 0x80) 0xBF).
  { rewrite <- (Z.land_ones input 8) by lia.
    change 0xBF with (Z.land (Z.ones 8) 0xBF) at 1.
    rewrite Z.land_assoc, Z.land_lor_distr_l. reflexivity. }
  rewrite E.
  assert (Hb : 0 <= input mod 2 ^ 8 < 256) by (apply Z.mod_pos_bound; lia).
  assert (M : input mod 64 = (input mod 2 ^ 8) mod 64).
  { change (2 ^ 8) with 256. Z.div_mod_to_equations. lia. }
  rewrite M. apply Z.eqb_eq. revert Hb. generalize (input mod 2 ^ 8).
  apply (all_bytes (fun b => Z.land (Z.lor b 0x80) 0xBF mod 2 ^ 8 =? 0x80 + b mod 64)).
  vm_compute. reflexivity.
Qed.

(** [input | firstBytes[n]] as a byte, for an [input] that leaves the bits of
    the marker free. *)
Lemma lead_byte (input : Z) :
  0 <= input < 256 ->
  (input < 0x80 -> to_unsigned 8 (Z.lor input 0x00) = input)
  /\ (input < 0x20 -> to_unsigned 8 (Z.lor input 0xC0) = 0xC0 + input)
  /\ (input < 0x10 -> to_unsigned 8 (Z.lor input 0xE0) = 0xE0 + input)
  /\ (input < 0x08 -> to_unsigned 8 (Z.lor input 0xF0) = 0xF0 + input).
Proof.
  intros Hb.
  assert (H : ((if input <? 0x80 then to_unsigned 8 (Z.lor input 0x00) =? input else true)
               && (if input <? 0x20 then to_unsigned 8 (Z.lor input 0xC0) =? 0xC0 + input
                   else true)
               && (if input <? 0x10 then to_unsigned 8 (Z.lor input 0xE0) =? 0xE0 + input
                   else true)
               && (if input <? 0x08 then to_unsigned 8 (Z.lor input 0xF0) =? 0xF0 + input
                   else true))%bool = true).
  { revert input Hb. apply all_bytes. vm_compute. reflexivity. }
  rewrite !andb_true_iff in H. destruct H as (((H1 & H2) & H3) & H4).
  repeat split; intros Hi.
  - destruct (Z.ltb_spec input 0x80); [now apply Z.eqb_eq | lia].
  - destruct (Z.ltb_spec input 0x20); [now apply Z.eqb_eq | lia].
  - destruct (Z.ltb_spec input 0x10); [now apply Z.eqb_eq | lia].
  - destruct (Z.ltb_spec input 0x08); [now apply Z.eqb_eq | lia].
Qed.

(** Deciding the tests of the code from the bounds at hand. *)
Ltac tests :=
  repeat match goal with
  | |- context [Z.gtb ?a ?b] => rewrite (Z.gtb_ltb a b)
  | |- context [Z.geb ?a ?b] => rewrite (Z.geb_leb a b)
  | |- context [Z.ltb ?a ?b] =>
      first [rewrite (proj2 (Z.ltb_lt a b)) by lia | rewrite (proj2 (Z.ltb_ge a b)) by lia]
  | |- context [Z.leb ?a ?b] =>
      first [rewrite (proj2 (Z.leb_le a b)) by lia | rewrite (proj2 (Z.leb_gt a b)) by lia]
  | |- context [Z.eqb ?a ?b] =>
      first [rewrite (proj2 (Z.eqb_eq a b)) by lia | rewrite (proj2 (Z.eqb_neq a b)) by lia]
  end; cbn [andb orb negb].

(** The bytes [encode] writes, by the range of the code point. *)
Lemma Utf8_encode_bytes (input replacement : Z) :
  (0 <= input < 0x80 -> Utf8.encode input replacement = [input])
  /\ (0x80 <= input < 0x800 ->
      Utf8.encode input replacement = [0xC0 + input / 64; 0x80 + input mod 64])
  /\ (0x800 <= input < 0x10000 -> ~ 0xD800 <= input <= 0xDBFF ->
      Utf8.encode input replacement
      = [0xE0 + input / 4096; 0x80 + (input / 64) mod 64; 0x80 + input mod 64])
  /\ (0x10000 <= input <= 0x10FFFF ->
      Utf8.encode input replacement
      = [0xF0 + input / 262144; 0x80 + (input / 4096) mod 64;
         0x80 + (input / 64) mod 64; 0x80 + input mod 64])
  /\ (0x10FFFF < input \/ 0xD800 <= input <= 0xDBFF ->
      Utf8.encode input replacement = replace replacement).
Proof.
  assert (S1 : Z.shiftr input 6 = input / 64) by (now rewrite Z.shiftr_div_pow2 by lia).
  assert (S2 : Z.shiftr (Z.shiftr input 6) 6 = input / 4096).
  { rewrite !Z.shiftr_div_pow2 by lia. rewrite Z.div_div by lia. reflexivity. }
  assert (S3 : Z.shiftr (Z.shiftr (Z.shiftr input 6) 6) 6 = input / 262144).
  { rewrite !Z.shiftr_div_pow2 by lia. rewrite !Z.div_div by lia. reflexivity. }
  unfold Utf8.encode. repeat split.
  - intros H. tests. cbn [Nat.sub nth Utf8.firstBytes Utf8.fill].
    rewrite (proj1 (lead_byte input ltac:(lia))) by lia. reflexivity.
  - intros H. tests. cbn [Nat.sub nth Utf8.firstBytes Utf8.fill].
    rewrite continuation_byte, S1.
    assert (B : 0 <= input / 64 < 0x20) by (Z.div_mod_to_equations; lia).
    rewrite (proj1 (proj2 (lead_byte (input / 64) ltac:(lia)))) by lia. reflexivity.
  - intros H N.
    assert (C : input < 0xD800 \/ 0xDBFF < input) by lia.
    destruct C; tests; cbn [Nat.sub nth Utf8.firstBytes Utf8.fill];
      rewrite !continuation_byte, S2, S1;
      assert (B : 0 <= input / 4096 < 0x10) by (Z.div_mod_to_equations; lia);
      rewrite (proj1 (proj2 (proj2 (lead_byte (input / 4096) ltac:(lia))))) by lia;
      reflexivity.
  - intros H. tests. cbn [Nat.sub nth Utf8.firstBytes Utf8.fill].
    rewrite !continuation_byte, S3, S2, S1.
    assert (B : 0 <= input / 262144 < 0x08) by (Z.div_mod_to_equations; lia).
    rewrite (proj2 (proj2 (proj2 (lead_byte (input / 262144) ltac:(lia))))) by lia.
    reflexivity.
  - intros [H | H]; tests; reflexivity.
Qed.

Lemma to_unsigned_small (bits z : Z) : 0 <= z < 2 ^ bits -> to_unsigned bits z = z.
Proof. intros Hz. unfold to_unsigned. now apply Z.mod_small. Qed.

(** What [decode] reads, by the range of the first byte: the bytes are
    added up six bits apart and the markers are taken off in one
    subtraction, modulo 2^32. *)
Lemma Utf8_decode_bytes (b0 b1 b2 b3 : Z) (rest : list Z) (replacement : Z) :
  0 <= b0 < 256 -> 0 <= b1 < 256 -> 0 <= b2 < 256 -> 0 <= b3 < 256 ->
  (b0 < 0xC0 -> Utf8.decode (b0 :: rest) replacement = Some (b0, rest))
  /\ (0xC0 <= b0 < 0xE0 ->
      Utf8.decode (b0 :: b1 :: rest) replacement
      = Some (to_unsigned 32 (b0 * 64 + b1 - 0x3080), rest))
  /\ (0xE0 <= b0 < 0xF0 ->
      Utf8.decode (b0 :: b1 :: b2 :: rest) replacement
      = Some (to_unsigned 32 ((b0 * 64 + b1) * 64 + b2 - 0xE2080), rest))
  /\ (0xF0 <= b0 < 0xF8 ->
      Utf8.decode (b0 :: b1 :: b2 :: b3 :: rest) replacement
      = Some (to_unsigned 32 (((b0 * 64 + b1) * 64 + b2) * 64 + b3 - 0x3C82080), rest)).
Proof.
  intros H0 H1 H2 H3. unfold Utf8.decode.
  rewrite (to_unsigned_small 8 b0) by (change (2 ^ 8) with 256; lia).
  rewrite trailing_ranges by lia. cbn [List.length]. rewrite !Nat2Z.inj_succ.
  pose proof (Nat2Z.is_nonneg (List.length rest)) as Hn.
  repeat split; intros H; tests;
    change (Z.to_nat 0) with 0%nat; change (Z.to_nat 1) with 1%nat;
    change (Z.to_nat 2) with 2%nat; change (Z.to_nat 3) with 3%nat;
    cbn [Utf8.accumulate nth Utf8.offsets];
    rewrite ?Z.shiftl_mul_pow2 by lia; change (2 ^ 6) with 64;
    rewrite ?(to_unsigned_small 8) by (change (2 ^ 8) with 256; lia);
    rewrite ?Z.add_0_l, ?Z.sub_0_r;
    repeat match goal with
    | |- context [to_unsigned 32 ?z] =>
        rewrite (to_unsigned_small 32 z) by (change (2 ^ 32) with 4294967296; lia)
    end;
    reflexivity.
Qed.


(** *** The loop of the conversions *)

(** A decoder that reads every non-empty range, advances in it and gives a
    32-bit code point. *)
Let advances (decode : list Z -> option (Z * list Z)) : Prop :=
  forall begin, begin <> [] ->
    exists codepoint rest,
      decode begin = Some (codepoint, rest)
      /\ (List.length rest < List.length begin)%nat
      /\ 0 <= codepoint < 2 ^ 32.

Lemma decodeLoop_fuel {A : Type} (decode : list Z -> option (Z * list Z))
    (emit : Z -> list A) :
  advances decode ->
  forall fuel fuel' begin,
    (List.length begin <= fuel)%nat -> (List.length begin <= fuel')%nat ->
    decodeLoop decode emit fuel begin = decodeLoop decode emit fuel' begin.
Proof.
  intros Hd. induction fuel as [| fuel IH]; intros fuel' begin H H'.
  - destruct begin; [destruct fuel'; reflexivity | cbn in H; lia].
  - destruct begin as [| first begin]; [destruct fuel'; reflexivity |].
    destruct fuel' as [| fuel']; [cbn in H'; lia |].
    cbn [decodeLoop].
    destruct (Hd (first :: begin) ltac:(discriminate)) as (c & rest & E & Hl & _).
    rewrite E. cbn [List.length] in *. rewrite (IH fuel' rest) by lia. reflexivity.
Qed.

(** One turn of the loop. *)
Lemma decodeLoop_step {A : Type} (decode : list Z -> option (Z * list Z))
    (emit : Z -> list A) (begin rest : list Z) (codepoint : Z) :
  advances decode ->
  decode begin = Some (codepoint, rest) -> begin <> [] ->
  decodeLoop decode emit (List.length begin) begin
  = option_map (fun output => emit codepoint ++ output)
               (decodeLoop decode emit (List.length rest) rest).
Proof.
  intros Hd E Hne. destruct begin as [| first begin]; [contradiction |].
  destruct (Hd (first :: begin) Hne) as (c & rest' & E' & Hl & _).
  rewrite E in E'. injection E' as <- <-.
  cbn [List.length decodeLoop]. rewrite E. cbn [List.length] in Hl.
  rewrite (decodeLoop_fuel decode emit Hd (List.length begin) (List.length rest) rest)
    by lia.
  reflexivity.
Qed.

(** The loop ends with a result, and every conversion is the conversion to
    code points followed by the writing of each code point. *)
Lemma decodeLoop_flat_map {A : Type} (decode : list Z -> option (Z * list Z))
    (emit : Z -> list A) :
  advances decode ->
  forall fuel begin,
    (List.length begin <= fuel)%nat ->
    exists codepoints,
      decodeLoop decode (fun codepoint => [codepoint]) fuel begin = Some codepoints
      /\ decodeLoop decode emit fuel begin = Some (flat_map emit codepoints)
      /\ (List.length codepoints <= List.length begin)%nat
      /\ (begin <> [] -> codepoints <> [])
      /\ Forall (fun codepoint => 0 <= codepoint < 2 ^ 32) codepoints.
Proof.
  intros Hd. induction fuel as [| fuel IH]; intros begin H.
  - destruct begin; [| cbn in H; lia]. exists []. cbn. repeat split; auto.
  - destruct begin as [| first begin].
    + exists []. cbn. repeat split; auto.
    + destruct (Hd (first :: begin) ltac:(discriminate)) as (c & rest & E & Hl & Hc).
      cbn [List.length] in *.
      destruct (IH rest ltac:(lia)) as (cps & E1 & E2 & Hlen & _ & Hall).
      exists (c :: cps). cbn [decodeLoop]. rewrite E, E1, E2.
      cbn [option_map flat_map app List.length].
      repeat split; [lia | discriminate | now constructor].
Qed.

(** *** UTF-8 *)

(** The [switch] of [decode] reads [k + 1] elements when it has them. *)
Lemma accumulate_reads (k : nat) :
  forall output begin,
    (k < List.length begin)%nat ->
    exists value,
      Utf8.accumulate k output begin = Some (value, skipn (S k) begin)
      /\ 0 <= value < 2 ^ 32.
Proof.
  induction k as [| k IH]; intros output begin H.
  - destruct begin as [| c begin]; [cbn in H; lia |].
    eexists. cbn [Utf8.accumulate skipn]. split; [reflexivity |].
    unfold to_unsigned. apply Z.mod_pos_bound. lia.
  - destruct begin as [| c begin]; [cbn in H; lia |].
    cbn [List.length] in H. cbn [Utf8.accumulate].
    destruct (IH (to_unsigned 32 (Z.shiftl (to_unsigned 32 (output + to_unsigned 8 c)) 6))
                 begin ltac:(lia)) as (v & E & Hv).
    exists v. rewrite E. split; [reflexivity | exact Hv].
Qed.

Lemma trailing_bounds (first : Z) :
  0 <= nth (Z.to_nat (to_unsigned 8 first)) Utf8.trailing 0 <= 5.
Proof.
  assert (Hb : 0 <= to_unsigned 8 first < 256)
    by (unfold to_unsigned; apply Z.mod_pos_bound; lia).
  rewrite trailing_ranges by exact Hb.
  repeat match goal with |- context [Z.ltb ?a ?b] => destruct (Z.ltb_spec a b) end; lia.
Qed.

(** [decode] reads the first element and the [trailing] ones it announces,
    or, when the range is too short for them, the whole range. *)
Lemma Utf8_decode_reads (first : Z) (begin : list Z) (replacement : Z) :
  let trailingBytes := nth (Z.to_nat (to_unsigned 8 first)) Utf8.trailing 0 in
  (trailingBytes < Z.of_nat (List.length (first :: begin)) ->
   exists codepoint,
     Utf8.decode (first :: begin) replacement
     = Some (codepoint, skipn (Z.to_nat trailingBytes) begin)
     /\ 0 <= codepoint < 2 ^ 32)
  /\ (Z.of_nat (List.length (first :: begin)) <= trailingBytes ->
      Utf8.decode (first :: begin) replacement = Some (replacement, [])).
Proof.
  intros trailingBytes. pose proof (trailing_bounds first) as Ht. fold trailingBytes in Ht.
  unfold Utf8.decode. fold trailingBytes. split; intros H.
  - rewrite (proj2 (Z.ltb_lt _ _) H).
    destruct (accumulate_reads (Z.to_nat trailingBytes) 0 (first :: begin) ltac:(lia))
      as (v & E & Hv).
    rewrite E. eexists. cbn [skipn]. split; [reflexivity |].
    unfold to_unsigned. apply Z.mod_pos_bound. lia.
  - rewrite (proj2 (Z.ltb_ge _ _) H). reflexivity.
Qed.

Lemma Utf8_decode_advances (replacement : Z) :
  0 <= replacement < 2 ^ 32 ->
  advances (fun begin => Utf8.decode begin replacement).
Proof.
  intros Hr [| first begin] Hne; [contradiction |].
  destruct (Utf8_decode_reads first begin replacement) as [Hlong Hshort].
  destruct (Z.lt_ge_cases (nth (Z.to_nat (to_unsigned 8 first)) Utf8.trailing 0)
                          (Z.of_nat (List.length (first :: begin)))) as [H | H].
  - destruct (Hlong H) as (c & E & Hc). exists c. eexists. split; [exact E |].
    rewrite length_skipn. cbn [List.length]. split; [lia | exact Hc].
  - exists replacement, []. split; [exact (Hshort H) |]. split; [cbn; lia | exact Hr].
Qed.

Lemma Utf8_decode_0_advances : advances (fun begin => Utf8.decode begin 0).
Proof. apply Utf8_decode_advances. lia. Qed.


Lemma Utf8_decode_after_encode (input replacement replacement' : Z) (rest : list Z) :
  0 <= input <= 0x10FFFF -> ~ 0xD800 <= input <= 0xDBFF ->
  Utf8.decode (Utf8.encode input replacement ++ rest) replacement' = Some (input, rest).
Proof.
  intros Hi Hs.
  destruct (Utf8_encode_bytes input replacement) as (E1 & E2 & E3 & E4 & _).
  assert (C : input < 0x80 \/ 0x80 <= input < 0x800 \/ 0x800 <= input < 0x10000
              \/ 0x10000 <= input) by lia.
  destruct C as [C | [C | [C | C]]].
  - rewrite E1 by lia. cbn [app].
    apply (proj1 (Utf8_decode_bytes input 0 0 0 rest replacement'
                    ltac:(lia) ltac:(lia) ltac:(lia) ltac:(lia))). lia.
  - rewrite E2 by lia. cbn [app].
    assert (B : 0 <= input / 64 < 0x20 /\ 0 <= input mod 64 < 64)
      by (Z.div_mod_to_equations; lia).
    rewrite (proj1 (proj2 (Utf8_decode_bytes (0xC0 + input / 64) (0x80 + input mod 64) 0 0
                             rest replacement'
                             ltac:(lia) ltac:(lia) ltac:(lia) ltac:(lia)))) by lia.
    do 2 f_equal. rewrite to_unsigned_small; change (2 ^ 32) with 4294967296;
      Z.div_mod_to_equations; lia.
  - rewrite E3 by lia. cbn [app].
    assert (B : 0 <= input / 4096 < 0x10 /\ 0 <= (input / 64) mod 64 < 64
                /\ 0 <= input mod 64 < 64)
      by (Z.div_mod_to_equations; lia).
    rewrite (proj1 (proj2 (proj2 (Utf8_decode_bytes
                             (0xE0 + input / 4096) (0x80 + (input / 64) mod 64)
                             (0x80 + input mod 64) 0 rest replacement'
                             ltac:(lia) ltac:(lia) ltac:(lia) ltac:(lia))))) by lia.
    do 2 f_equal. rewrite to_unsigned_small; change (2 ^ 32) with 4294967296;
      Z.div_mod_to_equations; lia.
  - rewrite E4 by lia. cbn [app].
    assert (B : 0 <= input / 262144 < 0x08 /\ 0 <= (input / 4096) mod 64 < 64
                /\ 0 <= (input / 64) mod 64 < 64 /\ 0 <= input mod 64 < 64)
      by (Z.div_mod_to_equations; lia).
    rewrite (proj2 (proj2 (proj2 (Utf8_decode_bytes
                             (0xF0 + input / 262144) (0x80 + (input / 4096) mod 64)
                             (0x80 + (input / 64) mod 64) (0x80 + input mod 64)
                             rest replacement'
                             ltac:(lia) ltac:(lia) ltac:(lia) ltac:(lia))))) by lia.
    do 2 f_equal. rewrite to_unsigned_small; change (2 ^ 32) with 4294967296;
      Z.div_mod_to_equations; lia.
Qed.

(** X21.  [Utf<8>::decode] reads back what [Utf<8>::encode] writes: for
    every code point up to 0x10FFFF outside 0xD800-0xDBFF, decoding the bytes
    of the code point, whatever follows them, gives the code point and leaves
    what follows. *)
Theorem Utf8_decode_encode_round_trip
    (input replacement replacement' : Z) (rest : list Z) :
  0 <= input <= 0x10FFFF -> ~ 0xD800 <= input <= 0xDBFF ->
  Utf8.decode (Utf8.encode input replacement ++ rest) replacement' = Some (input, rest).
Proof. exact (Utf8_decode_after_encode input replacement replacement' rest). Qed.

Lemma Utf8_decode_encode_round_trip_witness :
  Utf8.encode 0x20AC 0 = [0xE2; 0x82; 0xAC]
  /\ Utf8.decode (Utf8.encode 0x20AC 0 ++ [0x41]) 0 = Some (0x20AC, [0x41]).
Proof.
  split; [reflexivity |].
  apply (Utf8_decode_encode_round_trip 0x20AC 0 0 [0x41]); lia.
Defined.

(** X22.  What [Utf<8>::encode] writes.  A code point above 0x10FFFF or in
    0xD800-0xDBFF is written as the replacement byte, or not at all when the
    replacement is zero.  Every other code point (0xDC00-0xDFFF included) is
    written on one to four bytes by its size: a first byte that is no
    continuation byte and whose entry in the table [trailing] of [decode] is
    the number of bytes that follow, and continuation bytes in 0x80-0xBF. *)
Theorem Utf8_encode_shape (input replacement : Z) :
  0 <= input ->
  (0x10FFFF < input \/ 0xD800 <= input <= 0xDBFF ->
   Utf8.encode input replacement = if replacement =? 0 then [] else [replacement])
  /\ (input <= 0x10FFFF -> ~ 0xD800 <= input <= 0xDBFF ->
      exists first continuation,
        Utf8.encode input replacement = first :: continuation
        /\ Z.of_nat (List.length continuation)
           = (if input <? 0x80 then 0 else if input <? 0x800 then 1
              else if input <? 0x10000 then 2 else 3)
        /\ nth (Z.to_nat first) Utf8.trailing 0 = Z.of_nat (List.length continuation)
        /\ (0 <= first < 0x80 \/ 0xC0 <= first < 0xF8)
        /\ Forall (fun b => 0x80 <= b <= 0xBF) continuation).
Proof.
  intros H0. destruct (Utf8_encode_bytes input replacement) as (E1 & E2 & E3 & E4 & E5).
  split; [exact E5 |]. intros Hi Hs.
  assert (C : input < 0x80 \/ 0x80 <= input < 0x800 \/ 0x800 <= input < 0x10000
              \/ 0x10000 <= input) by lia.
  destruct C as [C | [C | [C | C]]].
  - rewrite E1 by lia. exists input, []. rewrite trailing_ranges by lia. tests.
    repeat split; auto; lia.
  - rewrite E2 by lia. eexists. eexists. split; [reflexivity |].
    assert (B : 0 <= input / 64 < 0x20 /\ 0 <= input mod 64 < 64)
      by (Z.div_mod_to_equations; lia).
    rewrite trailing_ranges by lia. tests. cbn [List.length].
    repeat split; try lia. repeat constructor; lia.
  - rewrite E3 by lia. eexists. eexists. split; [reflexivity |].
    assert (B : 0 <= input / 4096 < 0x10 /\ 0 <= (input / 64) mod 64 < 64
                /\ 0 <= input mod 64 < 64)
      by (Z.div_mod_to_equations; lia).
    rewrite trailing_ranges by lia. tests. cbn [List.length].
    repeat split; try lia. repeat constructor; lia.
  - rewrite E4 by lia. eexists. eexists. split; [reflexivity |].
    assert (B : 0 <= input / 262144 < 0x08 /\ 0 <= (input / 4096) mod 64 < 64
                /\ 0 <= (input / 64) mod 64 < 64 /\ 0 <= input mod 64 < 64)
      by (Z.div_mod_to_equations; lia).
    rewrite trailing_ranges by lia. tests. cbn [List.length].
    repeat split; try lia. repeat constructor; lia.
Qed.

Lemma Utf8_encode_shape_witness :
  Utf8.encode 0xD800 0x3F = [0x3F]
  /\ exists first continuation,
       Utf8.encode 0xDC00 0 = first :: continuation
       /\ Z.of_nat (List.length continuation) = 2
       /\ nth (Z.to_nat first) Utf8.trailing 0 = Z.of_nat (List.length continuation)
       /\ (0 <= first < 0x80 \/ 0xC0 <= first < 0xF8)
       /\ Forall (fun b => 0x80 <= b <= 0xBF) continuation.
Proof.
  split.
  - apply (proj1 (Utf8_encode_shape 0xD800 0x3F ltac:(lia))). lia.
  - apply (proj2 (Utf8_encode_shape 0xDC00 0 ltac:(lia))); lia.
Defined.


(** The conversions from UTF-8 on the bytes [Utf<32>::toUtf8] writes. *)
Lemma Utf8_loop_toUtf8 {A : Type} (emit : Z -> list A) (codepoints : list Z) :
  Forall (fun c => 0 <= c <= 0x10FFFF /\ ~ 0xD800 <= c <= 0xDBFF) codepoints ->
  decodeLoop (fun begin => Utf8.decode begin 0) emit
             (List.length (Utf32.toUtf8 codepoints)) (Utf32.toUtf8 codepoints)
  = Some (flat_map emit codepoints).
Proof.
  induction 1 as [| c codepoints (Hc & Hs) Hall IH]; [reflexivity |].
  unfold Utf32.toUtf8 in *. cbn [flat_map].
  rewrite (to_unsigned_small 32 c) by (change (2 ^ 32) with 4294967296; lia).
  pose proof (Utf8_decode_after_encode c 0 0
                (flat_map (fun c => Utf8.encode (to_unsigned 32 c) 0) codepoints) Hc Hs)
    as E.
  rewrite (decodeLoop_step _ emit _ _ c Utf8_decode_0_advances E).
  - rewrite IH. reflexivity.
  - destruct (Utf8_encode_bytes c 0) as (E1 & E2 & E3 & E4 & _).
    assert (C : c < 0x80 \/ 0x80 <= c < 0x800 \/ 0x800 <= c < 0x10000 \/ 0x10000 <= c)
      by lia.
    destruct C as [C | [C | [C | C]]];
      [rewrite E1 by lia | rewrite E2 by lia | rewrite E3 by lia | rewrite E4 by lia];
      discriminate.
Qed.

Lemma flat_map_singleton {A : Type} (l : list A) : flat_map (fun x => [x]) l = l.
Proof. induction l as [| x l IH]; [reflexivity |]. cbn. now rewrite IH. Qed.

Lemma length_flat_map_unit {A : Type} (l : list A) :
  List.length (flat_map (fun _ => [tt]) l) = List.length l.
Proof. induction l as [| x l IH]; [reflexivity |]. cbn. now rewrite IH. Qed.

(** X23.  A sequence of code points written as UTF-8 by [Utf<32>::toUtf8]
    is read back by [Utf<8>::toUtf32] and by [String::fromUtf8], and
    [Utf<8>::count] counts its code points; for code points up to 0x10FFFF
    outside 0xD800-0xDBFF.  When the code points are Latin-1 characters, below
    256, [Utf<8>::toLatin1] reads back what [Utf<8>::fromLatin1] writes. *)
Theorem Utf8_toUtf32_toUtf8 (codepoints : list Z) :
  Forall (fun c => 0 <= c <= 0x10FFFF /\ ~ 0xD800 <= c <= 0xDBFF) codepoints ->
  Utf8.toUtf32 (Utf32.toUtf8 codepoints) = Some codepoints
  /\ SfString.fromUtf8 (Utf32.toUtf8 codepoints) = Some (SfString.mk codepoints)
  /\ Utf8.count (Utf32.toUtf8 codepoints) = Some (Z.of_nat (List.length codepoints))
  /\ (Forall (fun c => c < 256) codepoints ->
      forall replacement,
        Utf8.toLatin1 (Utf8.fromLatin1 codepoints) replacement = Some codepoints).
Proof.
  intros H.
  assert (E : Utf8.toUtf32 (Utf32.toUtf8 codepoints) = Some codepoints).
  { unfold Utf8.toUtf32. rewrite (Utf8_loop_toUtf8 _ codepoints H).
    now rewrite flat_map_singleton. }
  split; [exact E |]. split; [| split].
  - unfold SfString.fromUtf8. now rewrite E.
  - unfold Utf8.count. rewrite (Utf8_loop_toUtf8 _ codepoints H). cbn [option_map].
    now rewrite length_flat_map_unit.
  - intros L replacement. unfold Utf8.toLatin1.
    change (Utf8.fromLatin1 codepoints) with (Utf32.toUtf8 codepoints).
    rewrite (Utf8_loop_toUtf8 _ codepoints H). f_equal.
    clear E. induction H as [| c codepoints (Hc & _) Hall IH]; [reflexivity |].
    inversion L as [| ? ? Lc Lall]; subst. cbn [flat_map app].
    rewrite (IH Lall). tests.
    now rewrite to_unsigned_small by (change (2 ^ 8) with 256; lia).
Qed.

Lemma Utf8_toUtf32_toUtf8_witness :
  Utf32.toUtf8 [0x48; 0xE9; 0x20AC; 0x1F600]
  = [0x48; 0xC3; 0xA9; 0xE2; 0x82; 0xAC; 0xF0; 0x9F; 0x98; 0x80]
  /\ Utf8.toUtf32 (Utf32.toUtf8 [0x48; 0xE9; 0x20AC; 0x1F600])
     = Some [0x48; 0xE9; 0x20AC; 0x1F600].
Proof.
  split; [reflexivity |].
  apply (Utf8_toUtf32_toUtf8 [0x48; 0xE9; 0x20AC; 0x1F600]).
  repeat constructor; lia.
Defined.

(** X24.  [Utf<8>::decode] never fails on a non-empty range and never looks
    at what it reads.  With [n] the entry of the first byte in [trailing] (0
    to 5): when the range has more than [n] elements it reads [n + 1] of them
    and gives a 32-bit number; when it has not, it gives the replacement and
    ends the range.  So the loops of [toUtf32] and [count] end, with no more
    code points than there are bytes, and at least one for a non-empty range. *)
Theorem Utf8_decode_progress (first : Z) (begin : list Z) (replacement : Z) :
  let trailingBytes := nth (Z.to_nat (to_unsigned 8 first)) Utf8.trailing 0 in
  0 <= trailingBytes <= 5
  /\ (trailingBytes < Z.of_nat (List.length (first :: begin)) ->
      exists codepoint,
        Utf8.decode (first :: begin) replacement
        = Some (codepoint, skipn (Z.to_nat trailingBytes) begin)
        /\ 0 <= codepoint < 2 ^ 32)
  /\ (Z.of_nat (List.length (first :: begin)) <= trailingBytes ->
      Utf8.decode (first :: begin) replacement = Some (replacement, []))
  /\ exists codepoints,
       Utf8.toUtf32 (first :: begin) = Some codepoints
       /\ Utf8.count (first :: begin) = Some (Z.of_nat (List.length codepoints))
       /\ (0 < List.length codepoints <= List.length (first :: begin))%nat.
Proof.
  intros trailingBytes. split; [apply trailing_bounds |].
  destruct (Utf8_decode_reads first begin replacement) as [Hlong Hshort].
  split; [exact Hlong |]. split; [exact Hshort |].
  destruct (decodeLoop_flat_map (fun begin => Utf8.decode begin 0) (fun _ => [tt])
              Utf8_decode_0_advances (List.length (first :: begin)) (first :: begin)
              (le_n _)) as (cps & E1 & E2 & Hlen & Hne & _).
  exists cps. unfold Utf8.toUtf32, Utf8.count. rewrite E1, E2. cbn [option_map].
  rewrite length_flat_map_unit. repeat split; [| exact Hlen].
  destruct cps; [exfalso; apply Hne; [discriminate | reflexivity] | cbn; lia].
Qed.

(** X25.  [Utf<8>::decode] does not validate what it reads.  A byte in
    0x80-0xBF at the start of a character is given back as a code point; after
    a first byte in 0xC0-0xDF any byte is taken for a continuation byte; and
    so every code point below 0x80 is also read from two bytes, a form
    [encode] never writes. *)
Theorem Utf8_decode_not_validating (b0 b1 : Z) (rest : list Z) (replacement : Z) :
  0 <= b0 < 256 -> 0 <= b1 < 256 ->
  (b0 < 0xC0 -> Utf8.decode (b0 :: rest) replacement = Some (b0, rest))
  /\ (0xC0 <= b0 < 0xE0 ->
      Utf8.decode (b0 :: b1 :: rest) replacement
      = Some (to_unsigned 32 (b0 * 64 + b1 - 0x3080), rest))
  /\ (b0 < 0x80 ->
      Utf8.decode (0xC0 + b0 / 64 :: 0x80 + b0 mod 64 :: rest) replacement = Some (b0, rest)
      /\ Utf8.encode b0 replacement = [b0]).
Proof.
  intros H0 H1.
  destruct (Utf8_decode_bytes b0 b1 0 0 rest replacement H0 H1 ltac:(lia) ltac:(lia))
    as (D1 & D2 & _).
  split; [exact D1 |]. split; [exact D2 |]. intros Hb.
  assert (B : 0 <= b0 / 64 < 2 /\ 0 <= b0 mod 64 < 64) by (Z.div_mod_to_equations; lia).
  split.
  - rewrite (proj1 (proj2 (Utf8_decode_bytes (0xC0 + b0 / 64) (0x80 + b0 mod 64) 0 0
                             rest replacement
                             ltac:(lia) ltac:(lia) ltac:(lia) ltac:(lia)))) by lia.
    do 2 f_equal. rewrite to_unsigned_small; change (2 ^ 32) with 4294967296;
      Z.div_mod_to_equations; lia.
  - apply (proj1 (Utf8_encode_bytes b0 replacement)). lia.
Qed.

Lemma Utf8_decode_not_validating_witness :
  Utf8.decode [0xC1; 0x81] 0 = Some (0x41, [])
  /\ Utf8.encode 0x41 0 = [0x41]
  /\ Utf8.decode [0xC0; 0x41] 0 = Some (0xFFFFFFC1, []).
Proof.
  destruct (Utf8_decode_not_validating 0x41 0 [] 0 ltac:(lia) ltac:(lia)) as (_ & _ & H).
  destruct (H ltac:(lia)) as (E1 & E2).
  split; [exact E1 |]. split; [exact E2 |].
  apply (proj1 (proj2 (Utf8_decode_not_validating 0xC0 0x41 [] 0 ltac:(lia) ltac:(lia)))).
  lia.
Defined.


(** *** UTF-16 *)

(** The elements [encode] writes, and what [decode] makes of them. *)
Lemma Utf16_encode_units (input replacement : Z) :
  (0 <= input <= 0xFFFF -> ~ 0xD800 <= input <= 0xDFFF ->
   Utf16.encode input replacement = [input])
  /\ (0xFFFF < input <= 0x10FFFF ->
      Utf16.encode input replacement
      = [0xD800 + (input - 0x10000) / 1024; 0xDC00 + (input - 0x10000) mod 1024])
  /\ (0x10FFFF < input \/ 0xD800 <= input <= 0xDFFF ->
      Utf16.encode input replacement = replace replacement).
Proof.
  unfold Utf16.encode. repeat split.
  - intros H N. assert (C : input < 0xD800 \/ 0xDFFF < input) by lia.
    destruct C; tests; rewrite to_unsigned_small by (change (2 ^ 16) with 65536; lia);
      reflexivity.
  - intros H. tests.
    rewrite (to_unsigned_small 32) by (change (2 ^ 32) with 4294967296; lia).
    change 0x3FF with (Z.ones 10). rewrite Z.land_ones, Z.shiftr_div_pow2 by lia.
    change (2 ^ 10) with 1024.
    assert (B : 0 <= (input - 0x10000) / 1024 < 1024
                /\ 0 <= (input - 0x10000) mod 1024 < 1024)
      by (Z.div_mod_to_equations; lia).
    rewrite !to_unsigned_small by (change (2 ^ 16) with 65536; lia).
    f_equal; [lia | f_equal; lia].
  - intros [H | H]; tests; reflexivity.
Qed.

Lemma Utf16_decode_units (first second : Z) (rest : list Z) (replacement : Z) :
  0 <= first < 2 ^ 16 -> 0 <= second < 2 ^ 16 ->
  (~ 0xD800 <= first <= 0xDBFF ->
   Utf16.decode (first :: rest) replacement = Some (first, rest))
  /\ (0xD800 <= first <= 0xDBFF ->
      Utf16.decode [first] replacement = Some (replacement, [])
      /\ (0xDC00 <= second <= 0xDFFF ->
          Utf16.decode (first :: second :: rest) replacement
          = Some ((first - 0xD800) * 1024 + (second - 0xDC00) + 0x10000, rest))
      /\ (~ 0xDC00 <= second <= 0xDFFF ->
          Utf16.decode (first :: second :: rest) replacement = Some (replacement, rest))).
Proof.
  change (2 ^ 16) with 65536. intros H1 H2. unfold Utf16.decode.
  rewrite (to_unsigned_small 16 first) by (change (2 ^ 16) with 65536; lia).
  rewrite (to_unsigned_small 32 second) by (change (2 ^ 32) with 4294967296; lia).
  split.
  - intros N. assert (C : first < 0xD800 \/ 0xDBFF < first) by lia.
    destruct C; tests; reflexivity.
  - intros H. tests. split; [reflexivity |]. split.
    + intros S. tests. rewrite Z.shiftl_mul_pow2 by lia. change (2 ^ 10) with 1024.
      rewrite to_unsigned_small by (change (2 ^ 32) with 4294967296; lia). reflexivity.
    + intros N. assert (C : second < 0xDC00 \/ 0xDFFF < second) by lia.
      destruct C; tests; reflexivity.
Qed.

Lemma Utf16_decode_after_encode (input replacement replacement' : Z) (rest : list Z) :
  0 <= input <= 0x10FFFF -> ~ 0xD800 <= input <= 0xDFFF ->
  Utf16.decode (Utf16.encode input replacement ++ rest) replacement' = Some (input, rest).
Proof.
  intros Hi Hs. destruct (Utf16_encode_units input replacement) as (E1 & E2 & _).
  destruct (Z.le_gt_cases input 0xFFFF) as [C | C].
  - rewrite E1 by lia. cbn [app].
    apply (proj1 (Utf16_decode_units input 0 rest replacement'
                    ltac:(change (2 ^ 16) with 65536; lia)
                    ltac:(change (2 ^ 16) with 65536; lia))). lia.
  - rewrite E2 by lia. cbn [app].
    assert (B : 0 <= (input - 0x10000) / 1024 < 1024
                /\ 0 <= (input - 0x10000) mod 1024 < 1024)
      by (Z.div_mod_to_equations; lia).
    destruct (Utf16_decode_units (0xD800 + (input - 0x10000) / 1024)
                (0xDC00 + (input - 0x10000) mod 1024) rest replacement'
                ltac:(change (2 ^ 16) with 65536; lia)
                ltac:(change (2 ^ 16) with 65536; lia)) as (_ & D).
    destruct (D ltac:(lia)) as (_ & D2 & _). rewrite D2 by lia.
    do 2 f_equal. Z.div_mod_to_equations. lia.
Qed.

Lemma Utf16_decode_advances (replacement : Z) :
  0 <= replacement < 2 ^ 32 ->
  advances (fun begin => Utf16.decode begin replacement).
Proof.
  intros Hr [| first begin] Hne; [contradiction |]. unfold Utf16.decode.
  assert (H1 : 0 <= to_unsigned 16 first < 2 ^ 16)
    by (unfold to_unsigned; apply Z.mod_pos_bound; lia).
  assert (H32 : forall z, 0 <= to_unsigned 32 z < 2 ^ 32)
    by (intros z; unfold to_unsigned; apply Z.mod_pos_bound; lia).
  change (2 ^ 16) with 65536 in H1. change (2 ^ 32) with 4294967296 in *.
  destruct ((to_unsigned 16 first >=? 0xD800) && (to_unsigned 16 first <=? 0xDBFF)).
  - destruct begin as [| second begin].
    + exists replacement, []. cbn [List.length]. repeat split; lia.
    + destruct ((to_unsigned 32 second >=? 0xDC00) && (to_unsigned 32 second <=? 0xDFFF)).
      * eexists. eexists. split; [reflexivity |]. cbn [List.length].
        split; [lia | apply H32].
      * exists replacement, begin. cbn [List.length]. repeat split; lia.
  - exists (to_unsigned 16 first), begin. cbn [List.length]. repeat split; lia.
Qed.

Lemma Utf16_decode_0_advances : advances (fun begin => Utf16.decode begin 0).
Proof. apply Utf16_decode_advances. lia. Qed.

Lemma Utf16_loop_toUtf16 {A : Type} (emit : Z -> list A) (codepoints : list Z) :
  Forall (fun c => 0 <= c <= 0x10FFFF /\ ~ 0xD800 <= c <= 0xDFFF) codepoints ->
  decodeLoop (fun begin => Utf16.decode begin 0) emit
             (List.length (Utf32.toUtf16 codepoints)) (Utf32.toUtf16 codepoints)
  = Some (flat_map emit codepoints).
Proof.
  induction 1 as [| c codepoints (Hc & Hs) Hall IH]; [reflexivity |].
  unfold Utf32.toUtf16 in *. cbn [flat_map].
  rewrite (to_unsigned_small 32 c) by (change (2 ^ 32) with 4294967296; lia).
  pose proof (Utf16_decode_after_encode c 0 0
                (flat_map (fun c => Utf16.encode (to_unsigned 32 c) 0) codepoints) Hc Hs)
    as E.
  rewrite (decodeLoop_step _ emit _ _ c Utf16_decode_0_advances E).
  - rewrite IH. reflexivity.
  - destruct (Utf16_encode_units c 0) as (E1 & E2 & _).
    destruct (Z.le_gt_cases c 0xFFFF); [rewrite E1 by lia | rewrite E2 by lia]; discriminate.
Qed.

(** X26.  [Utf<16>::decode] reads back what [Utf<16>::encode] writes, for
    every code point up to 0x10FFFF outside 0xD800-0xDFFF: one element, the
    code point itself, up to 0xFFFF, and above it a pair of a high surrogate
    in 0xD800-0xDBFF and a low surrogate in 0xDC00-0xDFFF.  A sequence of such
    code points written by [Utf<32>::toUtf16] is read back by
    [Utf<16>::toUtf32] and by [String::fromUtf16], and [Utf<16>::count]
    counts its code points. *)
Theorem Utf16_round_trip :
  (forall (input replacement replacement' : Z) (rest : list Z),
      0 <= input <= 0x10FFFF -> ~ 0xD800 <= input <= 0xDFFF ->
      Utf16.decode (Utf16.encode input replacement ++ rest) replacement'
      = Some (input, rest)
      /\ (input <= 0xFFFF -> Utf16.encode input replacement = [input])
      /\ (0xFFFF < input ->
          exists high low,
            Utf16.encode input replacement = [high; low]
            /\ 0xD800 <= high <= 0xDBFF /\ 0xDC00 <= low <= 0xDFFF))
  /\ (forall codepoints : list Z,
      Forall (fun c => 0 <= c <= 0x10FFFF /\ ~ 0xD800 <= c <= 0xDFFF) codepoints ->
      Utf16.toUtf32 (Utf32.toUtf16 codepoints) = Some codepoints
      /\ SfString.fromUtf16 (Utf32.toUtf16 codepoints) = Some (SfString.mk codepoints)
      /\ Utf16.count (Utf32.toUtf16 codepoints) = Some (Z.of_nat (List.length codepoints))).
Proof.
  split.
  - intros input replacement replacement' rest Hi Hs.
    split; [now apply Utf16_decode_after_encode |].
    destruct (Utf16_encode_units input replacement) as (E1 & E2 & _). split.
    + intros H. apply E1; lia.
    + intros H. eexists. eexists. split; [apply E2; lia |].
      Z.div_mod_to_equations. lia.
  - intros codepoints H.
    assert (E : Utf16.toUtf32 (Utf32.toUtf16 codepoints) = Some codepoints).
    { unfold Utf16.toUtf32. rewrite (Utf16_loop_toUtf16 _ codepoints H).
      now rewrite flat_map_singleton. }
    split; [exact E |]. split.
    + unfold SfString.fromUtf16. now rewrite E.
    + unfold Utf16.count. rewrite (Utf16_loop_toUtf16 _ codepoints H). cbn [option_map].
      now rewrite length_flat_map_unit.
Qed.

Lemma Utf16_round_trip_witness :
  Utf16.encode 0x1F600 0 = [0xD83D; 0xDE00]
  /\ Utf16.decode (Utf16.encode 0x1F600 0 ++ [0x41]) 0 = Some (0x1F600, [0x41])
  /\ Utf16.toUtf32 (Utf32.toUtf16 [0x48; 0x1F600; 0x20AC]) = Some [0x48; 0x1F600; 0x20AC].
Proof.
  split; [reflexivity |]. split.
  - apply (proj1 Utf16_round_trip 0x1F600 0 0 [0x41]); lia.
  - apply (proj2 Utf16_round_trip [0x48; 0x1F600; 0x20AC]). repeat constructor; lia.
Defined.

(** X27.  Surrogates out of place in [Utf<16>::decode] and [toUtf32]: a
    high surrogate at the end of the range gives the replacement; a high
    surrogate followed by an element that is no low surrogate gives the
    replacement and takes that element with it, so [toUtf32] writes the one
    code point 0 for the two elements; a low surrogate that follows no high
    surrogate is given back as a code point, which [Utf<16>::encode] would
    not write. *)
Theorem Utf16_unpaired_surrogates (first second replacement : Z) (rest : list Z) :
  0 <= first < 2 ^ 16 -> 0 <= second < 2 ^ 16 ->
  (0xD800 <= first <= 0xDBFF ->
   Utf16.decode [first] replacement = Some (replacement, [])
   /\ (~ 0xDC00 <= second <= 0xDFFF ->
       Utf16.decode (first :: second :: rest) replacement = Some (replacement, rest)
       /\ Utf16.toUtf32 (first :: second :: rest)
          = option_map (cons 0) (Utf16.toUtf32 rest)))
  /\ (0xDC00 <= first <= 0xDFFF ->
      Utf16.decode (first :: rest) replacement = Some (first, rest)
      /\ Utf16.toUtf32 (first :: rest) = option_map (cons first) (Utf16.toUtf32 rest)
      /\ Utf16.encode first replacement = if replacement =? 0 then [] else [replacement]).
Proof.
  intros H1 H2.
  destruct (Utf16_decode_units first second rest replacement H1 H2) as (D1 & D2).
  split.
  - intros Hh. destruct (D2 Hh) as (E1 & _ & E3). split; [exact E1 |].
    intros Hn. split; [exact (E3 Hn) |].
    destruct (Utf16_decode_units first second rest 0 H1 H2) as (_ & D0).
    destruct (D0 Hh) as (_ & _ & E0).
    unfold Utf16.toUtf32.
    rewrite (decodeLoop_step _ (fun c => [c]) _ _ 0 Utf16_decode_0_advances (E0 Hn))
      by discriminate.
    reflexivity.
  - intros Hl. split; [apply D1; lia |]. split.
    + destruct (Utf16_decode_units first second rest 0 H1 H2) as (D0 & _).
      unfold Utf16.toUtf32.
      rewrite (decodeLoop_step _ (fun c => [c]) _ _ first Utf16_decode_0_advances
                 (D0 ltac:(lia))) by discriminate.
      reflexivity.
    + apply (proj2 (proj2 (Utf16_encode_units first replacement))). lia.
Qed.

Lemma Utf16_unpaired_surrogates_witness :
  Utf16.toUtf32 [0xD83D; 0x41; 0x42] = Some [0; 0x42]
  /\ Utf16.toUtf32 [0xDE00; 0x41] = Some [0xDE00; 0x41].
Proof.
  split.
  - destruct (Utf16_unpaired_surrogates 0xD83D 0x41 0 [0x42]
                ltac:(change (2 ^ 16) with 65536; lia) ltac:(change (2 ^ 16) with 65536; lia))
      as (H & _).
    destruct (H ltac:(lia)) as (_ & K). destruct (K ltac:(lia)) as (_ & E).
    rewrite E. reflexivity.
  - destruct (Utf16_unpaired_surrogates 0xDE00 0 0 [0x41]
                ltac:(change (2 ^ 16) with 65536; lia) ltac:(change (2 ^ 16) with 65536; lia))
      as (_ & H).
    destruct (H ltac:(lia)) as (_ & E & _). rewrite E. reflexivity.
Defined.

(** *** Conversions between the encodings *)

Lemma flat_map_in_range {A : Type} (emit : Z -> list A) (codepoints : list Z) :
  Forall (fun codepoint => 0 <= codepoint < 2 ^ 32) codepoints ->
  flat_map (fun c => emit (to_unsigned 32 c)) codepoints = flat_map emit codepoints.
Proof.
  induction 1 as [| c codepoints Hc Hall IH]; [reflexivity |].
  cbn [flat_map]. now rewrite IH, (to_unsigned_small 32 c).
Qed.

(** X28.  The conversions between UTF-8 and UTF-16 go through the code
    points: on every range, [Utf<8>::toUtf16] is [Utf<8>::toUtf32] followed
    by [Utf<32>::toUtf16], and [Utf<16>::toUtf8] is [Utf<16>::toUtf32]
    followed by [Utf<32>::toUtf8]; none of them fails.  So the UTF-8 of a
    sequence of code points up to 0x10FFFF outside 0xD800-0xDFFF converts to
    its UTF-16, and its UTF-16 to its UTF-8. *)
Theorem Utf_transcoding :
  (forall begin : list Z,
      (exists codepoints,
          Utf8.toUtf32 begin = Some codepoints
          /\ Utf8.toUtf16 begin = Some (Utf32.toUtf16 codepoints))
      /\ (exists codepoints,
             Utf16.toUtf32 begin = Some codepoints
             /\ Utf16_toUtf8 begin = Some (Utf32.toUtf8 codepoints)))
  /\ (forall codepoints : list Z,
      Forall (fun c => 0 <= c <= 0x10FFFF /\ ~ 0xD800 <= c <= 0xDFFF) codepoints ->
      Utf8.toUtf16 (Utf32.toUtf8 codepoints) = Some (Utf32.toUtf16 codepoints)
      /\ Utf16_toUtf8 (Utf32.toUtf16 codepoints) = Some (Utf32.toUtf8 codepoints)).
Proof.
  split.
  - intros begin. split.
    + destruct (decodeLoop_flat_map (fun begin => Utf8.decode begin 0)
                  (fun c => Utf16.encode c 0) Utf8_decode_0_advances
                  (List.length begin) begin (le_n _)) as (cps & E1 & E2 & _ & _ & Hr).
      exists cps. unfold Utf8.toUtf32, Utf8.toUtf16, Utf32.toUtf16.
      rewrite E1, E2, (flat_map_in_range (fun c => Utf16.encode c 0) cps Hr).
      split; reflexivity.
    + destruct (decodeLoop_flat_map (fun begin => Utf16.decode begin 0)
                  (fun c => Utf8.encode c 0) Utf16_decode_0_advances
                  (List.length begin) begin (le_n _)) as (cps & E1 & E2 & _ & _ & Hr).
      exists cps. unfold Utf16.toUtf32, Utf16_toUtf8, Utf32.toUtf8.
      rewrite E1, E2, (flat_map_in_range (fun c => Utf8.encode c 0) cps Hr).
      split; reflexivity.
  - intros codepoints H.
    assert (H8 : Forall (fun c => 0 <= c <= 0x10FFFF /\ ~ 0xD800 <= c <= 0xDBFF) codepoints).
    { eapply Forall_impl; [| exact H]. cbn. intros c Hc. lia. }
    assert (Hr : Forall (fun c => 0 <= c < 2 ^ 32) codepoints).
    { eapply Forall_impl; [| exact H]. cbn. intros c Hc.
      change (2 ^ 32) with 4294967296. lia. }
    split.
    + unfold Utf8.toUtf16. rewrite (Utf8_loop_toUtf8 _ codepoints H8).
      unfold Utf32.toUtf16.
      now rewrite (flat_map_in_range (fun c => Utf16.encode c 0) codepoints Hr).
    + unfold Utf16_toUtf8. rewrite (Utf16_loop_toUtf16 _ codepoints H).
      unfold Utf32.toUtf8.
      now rewrite (flat_map_in_range (fun c => Utf8.encode c 0) codepoints Hr).
Qed.

Lemma Utf_transcoding_witness :
  Utf8.toUtf16 (Utf32.toUtf8 [0x48; 0x1F600; 0x20AC]) = Some [0x48; 0xD83D; 0xDE00; 0x20AC]
  /\ Utf16_toUtf8 (Utf32.toUtf16 [0x48; 0x1F600; 0x20AC])
     = Some [0x48; 0xF0; 0x9F; 0x98; 0x80; 0xE2; 0x82; 0xAC].
Proof.
  apply (proj2 Utf_transcoding [0x48; 0x1F600; 0x20AC]). repeat constructor; lia.
Defined.

(** X29.  [Utf<32>::count] returns [begin - end], the length of the range
    with the opposite sign: converted to [std::size_t], for a range of [n]
    elements it is [2^N - n], where [N] is the width of [std::size_t], and 0
    for the empty range only. *)
Theorem Utf32_count_negated (size_bits : Z) (begin : list Z) :
  0 < Z.of_nat (List.length begin) < 2 ^ size_bits ->
  Utf32.count size_bits begin = 2 ^ size_bits - Z.of_nat (List.length begin)
  /\ Utf32.count size_bits begin <> 0
  /\ Utf32.count size_bits [] = 0.
Proof.
  intros H. unfold Utf32.count, to_unsigned.
  assert (E : (- Z.of_nat (List.length begin)) mod 2 ^ size_bits
              = 2 ^ size_bits - Z.of_nat (List.length begin)).
  { replace (- Z.of_nat (List.length begin))
      with (2 ^ size_bits - Z.of_nat (List.length begin) + (-1) * 2 ^ size_bits) by lia.
    rewrite Z.mod_add by lia. apply Z.mod_small. lia. }
  rewrite E. split; [reflexivity |]. split; [lia |].
  cbn [List.length Z.of_nat Z.opp]. apply Z.mod_0_l. lia.
Qed.

Lemma Utf32_count_negated_witness :
  Utf32.count 64 [0x48; 0x1F600; 0x20AC] = 18446744073709551613.
Proof.
  apply (proj1 (Utf32_count_negated 64 [0x48; 0x1F600; 0x20AC] ltac:(cbn; lia))).
Defined.

End UtfConversions.

(** ** The render loop of [main] *)

Section RenderLoop.
Import Game.
Local Open Scope Z_scope.

(** Polling the events of one turn draws nothing, and leaves the window open
    exactly when none of them is [Closed]. *)
Lemma pollEvents_spec (queue : list EventType) :
  forall s,
    isOpen (pollEvents queue s) = isOpen s && negb (existsb isClosed queue)
    /\ filter isFrameCall (calls (pollEvents queue s)) = filter isFrameCall (calls s)
    /\ (isOpen s = true -> existsb isClosed queue = true ->
        exists before after,
          calls (pollEvents queue s) = calls s ++ before ++ Window_close :: after).
Proof.
  induction queue as [| event queue IH]; intros s.
  - cbn [pollEvents existsb negb]. rewrite andb_true_r.
    destruct (isOpen s) eqn:E; cbn [call calls isOpen windowOpen];
      rewrite filter_app, app_nil_r; repeat split; auto; discriminate.
  - cbn [pollEvents existsb]. destruct (isOpen s) eqn:E.
    + destruct (isClosed event) eqn:C; cbn [orb negb andb].
      * set (s' := close (call (Window_pollEvent (Some event)) s)).
        destruct (IH s') as (I1 & I2 & _). rewrite I1, I2.
        unfold s'. cbn [close call calls isOpen windowOpen andb].
        rewrite !filter_app. cbn [filter isFrameCall]. rewrite !app_nil_r.
        repeat split. intros _ _.
        destruct queue; cbn [pollEvents isOpen windowOpen close call calls].
        -- exists [Window_pollEvent (Some event)], [Window_pollEvent None].
           now rewrite <- !app_assoc.
        -- exists [Window_pollEvent (Some event)], [Window_pollEvent None].
           now rewrite <- !app_assoc.
      * set (s' := call (Window_pollEvent (Some event)) s).
        destruct (IH s') as (I1 & I2 & I3). rewrite I1, I2.
        unfold s' in *. cbn [call calls isOpen windowOpen] in *.
        fold (isOpen s) in *. rewrite E in *. cbn [andb].
        rewrite !filter_app. cbn [filter isFrameCall]. rewrite !app_nil_r.
        repeat split. intros _ H. destruct (I3 eq_refl H) as (before & after & E3).
        exists (Window_pollEvent (Some event) :: before), after.
        rewrite E3, <- app_assoc. reflexivity.
    + cbn [call calls isOpen windowOpen andb]. fold (isOpen s). rewrite E.
      rewrite filter_app, app_nil_r. repeat split; auto; discriminate.
Qed.

(** One turn of the loop on an open window: the events, then one frame,
    whether or not the window was closed meanwhile. *)
Lemma renderLoop_turn (queue : list EventType) (turns : list (list EventType)) (s : State) :
  isOpen s = true ->
  exists s',
    renderLoop (queue :: turns) s = renderLoop turns s'
    /\ isOpen s' = negb (existsb isClosed queue)
    /\ filter isFrameCall (calls s')
       = filter isFrameCall (calls s) ++ [Window_clear Color.Cyan; Window_draw; Window_display]
    /\ (exists before, calls s' = before ++ [Window_clear Color.Cyan; Window_draw; Window_display]
                       /\ (existsb isClosed queue = true -> In Window_close before)).
Proof.
  intros E. cbn [renderLoop]. rewrite E.
  destruct (pollEvents_spec queue s) as (P1 & P2 & P3). rewrite E in P1. cbn [andb] in P1.
  eexists. split; [reflexivity |].
  cbn [call calls isOpen windowOpen]. fold (isOpen (pollEvents queue s)).
  split; [exact P1 |]. split.
  - rewrite !filter_app, P2. cbn [filter isFrameCall]. rewrite <- !app_assoc. reflexivity.
  - exists (calls (pollEvents queue s)). split; [now rewrite <- !app_assoc |].
    intros C. destruct (P3 E C) as (before & after & ->).
    apply in_or_app. right. apply in_or_app. right. now left.
Qed.

Lemma renderLoop_quiet (quiet : list (list EventType)) :
  Forall (fun queue => existsb isClosed queue = false) quiet ->
  forall (turns : list (list EventType)) (s : State),
    isOpen s = true ->
    exists s',
      renderLoop (quiet ++ turns) s = renderLoop turns s'
      /\ isOpen s' = true
      /\ filter isFrameCall (calls s')
         = filter isFrameCall (calls s)
           ++ List.concat (repeat [Window_clear Color.Cyan; Window_draw; Window_display]
                             (List.length quiet)).
Proof.
  induction 1 as [| queue quiet Hq Hall IH]; intros turns s E.
  - exists s. cbn. rewrite app_nil_r. auto.
  - cbn [app]. destruct (renderLoop_turn queue (quiet ++ turns) s E) as (s1 & R1 & O1 & F1 & _).
    rewrite Hq in O1. cbn [negb] in O1.
    destruct (IH turns s1 O1) as (s2 & R2 & O2 & F2).
    exists s2. split; [now rewrite R1 |]. split; [exact O2 |].
    rewrite F2, F1. cbn [List.length repeat List.concat]. now rewrite <- !app_assoc.
Qed.

(** X30.  When the texture loads, [main] runs one frame ([clear], [draw],
    [display]) for every turn of its loop up to and including the turn in
    which a [Closed] event is polled: that turn still renders its frame after
    the window is closed, and then [main] returns 0.  While no [Closed] event
    comes, the loop goes on. *)
Theorem main_renders_until_closed
    (quiet later : list (list EventType)) (closing : list EventType) :
  Forall (fun queue => existsb isClosed queue = false) quiet ->
  existsb isClosed closing = true ->
  (exists calls before,
      main (mkWorld true (quiet ++ closing :: later)) = Some (0, calls)
      /\ filter isFrameCall calls
         = List.concat (repeat [Window_clear Color.Cyan; Window_draw; Window_display]
                          (S (List.length quiet)))
      /\ calls = before ++ [Window_clear Color.Cyan; Window_draw; Window_display]
      /\ In Window_close before)
  /\ main (mkWorld true quiet) = None.
Proof.
  intros Hq Hc. unfold main. cbn [ballLoads frames negb].
  set (s0 := call (Sprite_setPosition 0 0) _).
  assert (E0 : isOpen s0 = true) by reflexivity.
  assert (F0 : filter isFrameCall (calls s0) = []) by reflexivity.
  split.
  - destruct (renderLoop_quiet quiet Hq (closing :: later) s0 E0) as (s1 & R1 & O1 & F1).
    destruct (renderLoop_turn closing later s1 O1) as (s2 & R2 & O2 & F2 & before & B & Hin).
    rewrite Hc in O2. cbn [negb] in O2.
    rewrite R1, R2, (renderLoop_closed later s2 O2).
    exists (calls s2), before. split; [reflexivity |]. split; [| split; [exact B | auto]].
    rewrite F2, F1, F0. cbn [app].
    replace (S (List.length quiet)) with (List.length quiet + 1)%nat by lia.
    rewrite repeat_app, concat_app. cbn [repeat List.concat]. now rewrite app_nil_r.
  - destruct (renderLoop_quiet quiet Hq [] s0 E0) as (s1 & R1 & O1 & _).
    rewrite app_nil_r in R1. rewrite R1. cbn [renderLoop]. now rewrite O1.
Qed.

Lemma main_renders_until_closed_witness :
  exists calls before,
    main (mkWorld true ([[KeyPressed]; []] ++ [MouseMoved; Closed] :: [[KeyPressed]]))
    = Some (0, calls)
    /\ filter isFrameCall calls
       = List.concat (repeat [Window_clear Color.Cyan; Window_draw; Window_display] 3)
    /\ calls = before ++ [Window_clear Color.Cyan; Window_draw; Window_display]
    /\ In Window_close before.
Proof.
  apply (proj1 (main_renders_until_closed [[KeyPressed]; []] [[KeyPressed]]
                  [MouseMoved; Closed]
                  ltac:(repeat constructor) eq_refl)).
Defined.

End RenderLoop.
